(** * OptimizedDatabaseV1: a chunked key-value store over dynamic properties

    A shallow embedding of [src/scripts/data/data-hive-v1.ts] and the
    properties of its specification, followed by further properties of the
    class and by the function of
    [src/scripts/functions/waitForChunkLoad.ts].

    - The host's dynamic properties ([world.getDynamicProperty] /
      [world.setDynamicProperty]) are a finite map from property names to
      text; writing [null] removes the property.  The class reads and
      writes text only; properties of other types and failures of the host
      (its ceiling on the size of a property) are not modelled.
    - JavaScript strings are sequences of code units; they are embedded as
      [string], one [ascii] per code unit.
    - JavaScript arrays are objects: the pointer array lives in a store of
      arrays and is handled by reference, so that the aliasing between the
      local [pointers] of a method and [this.cachedPointers] is the one of
      the source.
    - Exceptions ([throw], the [SyntaxError] of [JSON.parse]) are an
      outcome of the computation; the state reached when the exception was
      raised is kept.
    - Numbers are binary64.  The counter of a loop
      [for (let i = 0; i < n; i++)] does not go beyond 2^53, so that the
      loops of [delete] and [clear] over the chunk parts of an entry do not
      end when the entry holds a run of digits above 2^53: a call that
      does not return is an outcome of the computation as well. *)

From Stdlib Require Import Ascii DecimalString DecimalNat DecimalZ.
From stdpp Require Import gmap strings list.

Set Warnings "-abstract-large-number,-register-all".
Set Default Proof Using "Type".

(** ** Text *)

Module Text.

(** The double quote, written by its code. *)
Definition dquote : ascii := "034"%char.

Definition is_digit (c : ascii) : bool :=
  match c with
  | "0" | "1" | "2" | "3" | "4" | "5" | "6" | "7" | "8" | "9" => true
  | _ => false
  end%char.

Fixpoint all_digits (s : string) : bool :=
  match s with
  | EmptyString => true
  | String c s' => is_digit c && all_digits s'
  end.

(** [/^\d+$/.test(s)]: one or more decimal digits and nothing else. *)
Definition digits_only (s : string) : bool :=
  match s with
  | EmptyString => false
  | _ => all_digits s
  end.

(** [parseInt(s, 10)] on a text that passed [digits_only] (the only use
    the source makes of it); leading zeros are accepted.  The result is
    the integer that the digits write; the source has the number nearest to
    it, which is that integer up to 2^53. *)
Definition parseInt (s : string) : nat :=
  match NilZero.uint_of_string s with
  | Some d => Nat.of_uint d
  | None => 0
  end.

(** The integer that a run of digits writes, in binary. *)
Definition digits_value (s : string) : N :=
  match NilZero.uint_of_string s with
  | Some d => N.of_uint d
  | None => 0%N
  end.

(** Numbers are binary64: every integer up to [2^53] is a number, and
    [2^53 + 1] is not: it is rounded to [2^53]. *)
Definition max_exact : N := 9007199254740992.

(** The turns of [for (let i = 0; i < parseInt(s, 10); i++)] on a run of
    digits [s].  Up to [2^53] the bound is the integer written and the loop
    takes that many turns; [parseInt] rounds [2^53 + 1] to [2^53]; every
    larger integer gives a bound above [2^53], which the counter does not
    reach, [i + 1] being [i] once [i] is [2^53]: the loop does not end. *)
Definition turns (s : string) : option nat :=
  if (digits_value s <=? max_exact)%N then Some (parseInt s)
  else if (digits_value s =? max_exact + 1)%N then Some (parseInt s - 1)
  else None.

(** [n.toString()] for a non-negative integer. *)
Definition toString (n : nat) : string :=
  NilZero.string_of_uint (Nat.to_uint n).

(** [s.includes(c)] for a one-character needle. *)
Fixpoint includes (c : ascii) (s : string) : bool :=
  match s with
  | EmptyString => false
  | String c' s' => if Ascii.eqb c' c then true else includes c s'
  end.

(** [s.substring(a, b)]: the code units from [min a b] up to, not
    including, [max a b], both clamped to the length of [s]. *)
Definition substring (s : string) (a b : nat) : string :=
  String.substring (a `min` b) (a `max` b - a `min` b) s.

(** [s.split("/").pop()]: what follows the last ["/"], the whole text
    when there is none. *)
Fixpoint last_segment_from (cur s : string) : string :=
  match s with
  | EmptyString => String.rev cur
  | String c s' =>
      if Ascii.eqb c "/" then last_segment_from "" s'
      else last_segment_from (String c cur) s'
  end.
Definition last_segment (s : string) : string := last_segment_from "" s.

(** [sep]-separated concatenation, as [Array.prototype.join]. *)
Fixpoint join (sep : string) (l : list string) : string :=
  match l with
  | [] => ""
  | [x] => x
  | x :: l' => x +:+ sep +:+ join sep l'
  end.

(** JavaScript truthiness of [string | undefined]: present and non-empty. *)
Definition truthy (o : option string) : bool :=
  match o with
  | Some (String _ _) => true
  | _ => false
  end.

(** Whether the last character is a decimal digit. *)
Fixpoint ends_with_digit (s : string) : bool :=
  match s with
  | EmptyString => false
  | String c EmptyString => is_digit c
  | String _ s' => ends_with_digit s'
  end.

End Text.

(** ** JSON

    [JSON.stringify] and [JSON.parse] belong to the JavaScript runtime, not
    to the repository.  They are embedded for the fragment of values that
    the development computes with: [null], booleans, integers, strings,
    arrays, and objects given by their members in insertion order (keys
    distinct and not integer-like, so that insertion order is the order of
    enumeration).  [parse] returns [None] where [JSON.parse] throws a
    [SyntaxError]; texts with a fraction, an exponent or a [\u] escape above
    [00ff] denote values outside the fragment and are rejected as well. *)

Module JSON.
Import Text.

Inductive t :=
| Null
| Bool (b : bool)
| Num (n : Z)
| Str (s : string)
| Arr (l : list t)
| Obj (l : list (string * t)).

Definition backslash : ascii := "092"%char.

Definition hex_digit (n : nat) : ascii :=
  match n with
  | 0 => "0" | 1 => "1" | 2 => "2" | 3 => "3" | 4 => "4" | 5 => "5"
  | 6 => "6" | 7 => "7" | 8 => "8" | 9 => "9" | 10 => "a" | 11 => "b"
  | 12 => "c" | 13 => "d" | 14 => "e" | _ => "f"
  end%char.

Definition escaped (c : ascii) : string := String backslash (String c "").

(** The characters below [U+0020]. *)
Definition is_control (c : ascii) : bool :=
  match c with
  | Ascii _ _ _ _ _ false false false => true
  | _ => false
  end.

Definition escape (c : ascii) : string :=
  match c with
  | "034" => escaped dquote
  | "092" => escaped backslash
  | "008" => escaped "b"
  | "012" => escaped "f"
  | "010" => escaped "n"
  | "013" => escaped "r"
  | "009" => escaped "t"
  | _ =>
      if is_control c then
        let n := nat_of_ascii c in
        String backslash
          (String "u" (String "0" (String "0"
            (String (hex_digit (n / 16)) (String (hex_digit (n mod 16)) "")))))
      else String c ""
  end%char.

Fixpoint escape_all (s : string) : string :=
  match s with
  | EmptyString => ""
  | String c s' => escape c +:+ escape_all s'
  end.

Definition quote (s : string) : string :=
  String dquote (escape_all s +:+ String dquote "").

Definition number (n : Z) : string := NilZero.string_of_int (Z.to_int n).

Fixpoint stringify (v : t) : string :=
  match v with
  | Null => "null"
  | Bool true => "true"
  | Bool false => "false"
  | Num n => number n
  | Str s => quote s
  | Arr l => "[" +:+ join "," (map stringify l) +:+ "]"
  | Obj l =>
      "{" +:+ join "," (map (λ kv, quote kv.1 +:+ ":" +:+ stringify kv.2) l)
          +:+ "}"
  end.

(** *** Parsing *)

Definition is_ws (c : ascii) : bool :=
  let n := nat_of_ascii c in
  (n =? 32) || (n =? 9) || (n =? 10) || (n =? 13).

Fixpoint skip_ws (s : string) : string :=
  match s with
  | String c s' => if is_ws c then skip_ws s' else s
  | EmptyString => s
  end.

Fixpoint strip (p s : string) : option string :=
  match p, s with
  | EmptyString, _ => Some s
  | String a p', String b s' => if Ascii.eqb a b then strip p' s' else None
  | String _ _, EmptyString => None
  end.

Definition hex_value (c : ascii) : option nat :=
  let n := nat_of_ascii c in
  if (48 <=? n) && (n <=? 57) then Some (n - 48)
  else if (97 <=? n) && (n <=? 102) then Some (n - 87)
  else if (65 <=? n) && (n <=? 70) then Some (n - 55)
  else None.

Definition unescape (e : ascii) : option ascii :=
  let n := nat_of_ascii e in
  if n =? 34 then Some dquote
  else if n =? 92 then Some backslash
  else if n =? 47 then Some "/"%char
  else if n =? 98 then Some "008"%char
  else if n =? 102 then Some "012"%char
  else if n =? 110 then Some "010"%char
  else if n =? 114 then Some "013"%char
  else if n =? 116 then Some "009"%char
  else None.

Definition hex4 (a b c d : ascii) : option ascii :=
  x1 ← hex_value a; x2 ← hex_value b; x3 ← hex_value c; x4 ← hex_value d;
  if (x1 =? 0) && (x2 =? 0) then Some (ascii_of_nat (16 * x3 + x4)) else None.

(** The characters of a string literal, after its opening quote, and the
    text that follows the closing quote. *)
Fixpoint parse_chars (s : string) : option (string * string) :=
  match s with
  | EmptyString => None
  | String c s' =>
      if nat_of_ascii c =? 34 then Some ("", s')
      else if nat_of_ascii c =? 92 then
        match s' with
        | EmptyString => None
        | String e s'' =>
            if nat_of_ascii e =? 117 then
              match s'' with
              | String h1 (String h2 (String h3 (String h4 s3))) =>
                  x ← hex4 h1 h2 h3 h4;
                  '(r, rest) ← parse_chars s3;
                  Some (String x r, rest)
              | _ => None
              end
            else
              x ← unescape e;
              '(r, rest) ← parse_chars s'';
              Some (String x r, rest)
        end
      else if nat_of_ascii c <? 32 then None
      else '(r, rest) ← parse_chars s'; Some (String c r, rest)
  end.

Fixpoint take_digits (s : string) : string * string :=
  match s with
  | String c s' =>
      if is_digit c then let '(d, r) := take_digits s' in (String c d, r)
      else ("", s)
  | EmptyString => ("", "")
  end.

Definition parse_number (s : string) : option (Z * string) :=
  let '(neg, s1) :=
    match strip "-" s with Some s' => (true, s') | None => (false, s) end in
  let '(ds, rest) := take_digits s1 in
  if (1 <? String.length ds) && bool_decide (is_Some (strip "0" ds)) then None
  else if bool_decide (is_Some (strip "." rest))
       || bool_decide (is_Some (strip "e" rest))
       || bool_decide (is_Some (strip "E" rest)) then None
  else
    d ← NilZero.uint_of_string ds;
    Some (if neg then (- Z.of_uint d)%Z else Z.of_uint d, rest).

Fixpoint parse_value (fuel : nat) (s : string) : option (t * string) :=
  match fuel with
  | 0 => None
  | S fuel =>
      match s with
      | EmptyString => None
      | String c r =>
          if nat_of_ascii c =? 34 then
            '(x, r') ← parse_chars r; Some (Str x, r')
          else if nat_of_ascii c =? 91 then
            match strip "]" (skip_ws r) with
            | Some r' => Some (Arr [], r')
            | None => '(l, r') ← parse_elements fuel (skip_ws r); Some (Arr l, r')
            end
          else if nat_of_ascii c =? 123 then
            match strip "}" (skip_ws r) with
            | Some r' => Some (Obj [], r')
            | None => '(l, r') ← parse_members fuel (skip_ws r); Some (Obj l, r')
            end
          else
            match strip "null" s, strip "true" s, strip "false" s with
            | Some r', _, _ => Some (Null, r')
            | _, Some r', _ => Some (Bool true, r')
            | _, _, Some r' => Some (Bool false, r')
            | _, _, _ => '(n, r') ← parse_number s; Some (Num n, r')
            end
      end
  end
with parse_elements (fuel : nat) (s : string) : option (list t * string) :=
  match fuel with
  | 0 => None
  | S fuel =>
      '(v, r) ← parse_value fuel s;
      match strip "," (skip_ws r), strip "]" (skip_ws r) with
      | Some r', _ =>
          '(l, r'') ← parse_elements fuel (skip_ws r'); Some (v :: l, r'')
      | _, Some r' => Some ([v], r')
      | _, _ => None
      end
  end
with parse_members (fuel : nat) (s : string)
    : option (list (string * t) * string) :=
  match fuel with
  | 0 => None
  | S fuel =>
      r0 ← strip (String dquote "") s;
      '(k, r1) ← parse_chars r0;
      r2 ← strip ":" (skip_ws r1);
      '(v, r) ← parse_value fuel (skip_ws r2);
      match strip "," (skip_ws r), strip "}" (skip_ws r) with
      | Some r', _ =>
          '(l, r'') ← parse_members fuel (skip_ws r'); Some ((k, v) :: l, r'')
      | _, Some r' => Some ([(k, v)], r')
      | _, _ => None
      end
  end.

Definition parse (text : string) : option t :=
  '(v, r) ← parse_value (S (String.length text)) (skip_ws text);
  match skip_ws r with
  | EmptyString => Some v
  | String _ _ => None
  end.

End JSON.

(** ** Computations

    A method of the class is a function from the state before the call to
    an outcome and the state after it. *)

Inductive exn :=
| Error (message : string)   (* [throw new Error(message)] *)
| SyntaxError                (* raised by [JSON.parse] *)
| TypeError.                 (* a value of the wrong dynamic type *)

Inductive Outcome (A : Type) :=
| Ok (a : A)
| Throw (e : exn)
| Diverges.                  (* the call does not return *)
Arguments Ok {A} a.
Arguments Throw {A} e.
Arguments Diverges {A}.

(** The object [this]: [name] and [pointerKey] are assigned once by the
    constructor; [cachedPointers] is [null] or a reference to an array. *)
Record Database := mkDatabase {
  name : string;
  pointerKey : string;
  cachedPointers : option nat;
}.

Record State := mkState {
  world : gmap string string;    (* the dynamic properties of the host *)
  arrays : list (list string);   (* the arrays allocated so far *)
  this : Database;
}.

Definition M (A : Type) : Type := State → Outcome A * State.

Definition ret {A} (a : A) : M A := λ st, (Ok a, st).

(** Sequencing: an exception ends the computation in the state where it
    was raised, and nothing follows a loop that does not end. *)
Definition bind {A B} (m : M A) (k : A → M B) : M B := λ st,
  match m st with
  | (Ok a, st') => k a st'
  | (Throw e, st') => (Throw e, st')
  | (Diverges, st') => (Diverges, st')
  end.

Declare Scope M_scope.
Delimit Scope M_scope with M.
Notation "x ← m ; k" := (bind m (λ x, k))
  (at level 20, m at level 100, k at level 200, only parsing) : M_scope.
Notation "m ;; k" := (bind m (λ _, k))
  (at level 100, k at level 200, only parsing, right associativity) : M_scope.
Local Open Scope M_scope.

Definition throw {A} (e : exn) : M A := λ st, (Throw e, st).

(** A loop that does not end.  No state is reached: the state given with
    the outcome is the one in which the loop was entered. *)
Definition diverge {A} : M A := λ st, (Diverges, st).

Definition with_world (f : gmap string string → gmap string string)
    (st : State) : State :=
  mkState (f (world st)) (arrays st) (this st).
Definition with_arrays (f : list (list string) → list (list string))
    (st : State) : State :=
  mkState (world st) (f (arrays st)) (this st).
Definition with_cache (c : option nat) (st : State) : State :=
  mkState (world st) (arrays st)
    (mkDatabase (name (this st)) (pointerKey (this st)) c).

Definition get_this : M Database := λ st, (Ok (this st), st).

(** The assignment [this.cachedPointers = c]. *)
Definition set_cache (c : option nat) : M unit :=
  λ st, (Ok (), with_cache c st).

(** [for (const x of l) body(x)], and the counting loop
    [for (let i = 0; i < n; i++) body(i)] as [for_each (seq 0 n) body],
    for [n] up to 2^53: the counter is a number, and does not go beyond. *)
Fixpoint for_each {A} (l : list A) (body : A → M unit) : M unit :=
  match l with
  | [] => ret ()
  | x :: l' => body x ;; for_each l' body
  end.

(** A loop that updates a local variable. *)
Fixpoint for_fold {A S} (l : list A) (acc : S) (body : S → A → M S) : M S :=
  match l with
  | [] => ret acc
  | x :: l' => acc' ← body acc x; for_fold l' acc' body
  end.

(** [l.map(f)] with an effectful callback. *)
Fixpoint map_M {A B} (f : A → M B) (l : list A) : M (list B) :=
  match l with
  | [] => ret []
  | x :: l' => y ← f x; ys ← map_M f l'; ret (y :: ys)
  end.

(** *** The host: [world.getDynamicProperty], [world.setDynamicProperty] *)

Definition getDynamicProperty (key : string) : M (option string) :=
  λ st, (Ok (world st !! key), st).

Definition setDynamicProperty (key : string) (value : option string) : M unit :=
  λ st, (Ok (),
         with_world (λ w, match value with
                          | Some text => <[key := text]> w
                          | None => base.delete key w
                          end) st).

(** *** Arrays, by reference *)

Module Array.
Local Open Scope M_scope.

Definition new (l : list string) : M nat :=
  λ st, (Ok (length (arrays st)), with_arrays (λ h, h ++ [l]) st).

Definition read (r : nat) : M (list string) :=
  λ st, (Ok (default [] (arrays st !! r)), st).

Definition includes (r : nat) (x : string) : M bool :=
  l ← read r; ret (bool_decide (x ∈ l)).

Definition push (r : nat) (x : string) : M unit :=
  λ st, (Ok (), with_arrays (alter (λ l, l ++ [x]) r) st).

Definition filter (r : nat) (keep : string → bool) : M nat :=
  l ← read r; new (List.filter keep l).

End Array.

(** ** The class [OptimizedDatabaseV1] *)

Module OptimizedDatabaseV1.
Import Text.
Local Open Scope M_scope.

(** [const maxChunkSize = 30000], the local constant of [set]. *)
Definition maxChunkSize : nat := 30000.

(** [Math.ceil(a / b)] on non-negative integers. *)
Definition ceil_div (a b : nat) : nat :=
  a / b + (if a mod b =? 0 then 0 else 1).

(** The template [`${dynamicKey}_part${i}`]. *)
Definition part_key (dynamicKey : string) (i : nat) : string :=
  dynamicKey +:+ "_part" +:+ toString i.

(** The template [`${this.name}/${key}`]. *)
Definition entry_key (name key : string) : string := name +:+ "/" +:+ key.

(** [JSON.stringify(pointers)] for an array of strings. *)
Definition stringify_pointers (l : list string) : string :=
  JSON.stringify (JSON.Arr (JSON.Str <$> l)).

Definition as_string (v : JSON.t) : option string :=
  match v with JSON.Str s => Some s | _ => None end.

(** The value of [JSON.parse(pointers)] seen at its declared type
    [string[]]. *)
Definition as_strings (v : JSON.t) : option (list string) :=
  match v with
  | JSON.Arr l => mapM as_string l
  | _ => None
  end.

(** [JSON.parse(text)], throwing on malformed text. *)
Definition JSON_parse (text : string) : M JSON.t :=
  match JSON.parse text with
  | Some v => ret v
  | None => throw SyntaxError
  end.

Definition empty_name_message : string := "Database name cannot be empty.".
Definition invalid_name_message : string :=
  "Database name cannot include the characters `" +:+ String dquote ""
    +:+ "` or `/`.".

(** [new OptimizedDatabaseV1(name)] in a host whose dynamic properties
    are [w].  A constructor that throws yields no object and has written
    nothing. *)
Definition constructor (name : string) (w : gmap string string)
    : Outcome State :=
  if bool_decide (name = "") then Throw (Error empty_name_message)
  else if includes dquote name || includes "/" name then
    Throw (Error invalid_name_message)
  else
    let pointerKey := name +:+ "/pointers" in
    let w' :=
      if negb (truthy (w !! pointerKey))
      then <[pointerKey := JSON.stringify (JSON.Arr [])]> w
      else w in
    Ok (mkState w' [] (mkDatabase name pointerKey None)).

(** [cachedPointers] has the type [string[]].  An index text that parses
    to anything but an array of strings is outside that type: the
    embedding raises [TypeError] when it loads it, where the source goes on
    with the ill-typed value. *)
Definition _getPointers : M nat :=
  self ← get_this;
  match cachedPointers self with
  | Some r => ret r
  | None =>
      pointers ← getDynamicProperty (pointerKey self);
      l ← (if truthy pointers then
             v ← JSON_parse (default "" pointers);
             match as_strings v with
             | Some l => ret l
             | None => throw TypeError
             end
           else ret []);
      r ← Array.new l;
      set_cache (Some r) ;;
      ret r
  end.

Definition _setPointers (pointers : nat) : M unit :=
  self ← get_this;
  set_cache (Some pointers) ;;
  l ← Array.read pointers;
  setDynamicProperty (pointerKey self) (Some (stringify_pointers l)).

(** The removal shared by [delete] and the body of the loop of [clear]:
    the chunk parts counted by the marker, then the base entry.  The loop
    over the parts ends or not as [turns] says. *)
Definition erase (dynamicKey : string) (meta : option string) : M unit :=
  (if digits_only (default "" meta) then
     match turns (default "" meta) with
     | Some chunkCount =>
         for_each (seq 0 chunkCount)
           (λ i, setDynamicProperty (part_key dynamicKey i) None)
     | None => diverge
     end
   else ret ()) ;;
  setDynamicProperty dynamicKey None.

Definition delete (key : string) : M unit :=
  pointers ← _getPointers;
  self ← get_this;
  let dynamicKey := entry_key (name self) key in
  meta ← getDynamicProperty dynamicKey;
  present ← Array.includes pointers dynamicKey;
  if present then
    erase dynamicKey meta ;;
    filtered ← Array.filter pointers (λ ptr, bool_decide (ptr ≠ dynamicKey));
    _setPointers filtered
  else ret ().

(** Lines 81 to 91 of [set]: the value is written whole, or as numbered
    parts with their count under the base key. *)
Definition write (maxChunkSize : nat) (dynamicKey serialized : string)
    : M unit :=
  let chunkCount := ceil_div (String.length serialized) maxChunkSize in
  if 1 <? chunkCount then
    for_each (seq 0 chunkCount)
      (λ i, let chunk := substring serialized (i * maxChunkSize)
                           ((i + 1) * maxChunkSize) in
            setDynamicProperty (part_key dynamicKey i) (Some chunk)) ;;
    setDynamicProperty dynamicKey (Some (toString chunkCount))
  else setDynamicProperty dynamicKey (Some serialized).

(** [set], for any positive value of its local constant [maxChunkSize]. *)
Definition set_with (maxChunkSize : nat) (key : string) (value : JSON.t)
    : M bool :=
  let serialized := JSON.stringify value in
  pointers ← _getPointers;
  self ← get_this;
  let dynamicKey := entry_key (name self) key in
  present ← Array.includes pointers dynamicKey;
  dataExists ← (if present then delete key ;; ret true else ret false);
  write maxChunkSize dynamicKey serialized ;;
  still ← Array.includes pointers dynamicKey;
  (if negb still then
     Array.push pointers dynamicKey ;; _setPointers pointers
   else ret ()) ;;
  ret dataExists.

Definition set : string → JSON.t → M bool := set_with maxChunkSize.

(** [undefined] is [None].  The loop over the parts takes as many turns
    as the marker writes: a marker that [set] wrote counts the chunks of a
    string, and a string has fewer than 2^53 code units.  A run of digits
    above 2^53 is a value that was stored whole, not a marker: there the
    loop of the source does not end, and the properties below state no
    result of [get] ([written_countable]: what [set] writes under an entry
    key is no such run, unless the value is an integer above 2^53). *)
Definition get (key : string) : M (option JSON.t) :=
  self ← get_this;
  let dynamicKey := entry_key (name self) key in
  meta ← getDynamicProperty dynamicKey;
  if negb (truthy meta) then ret None
  else if digits_only (default "" meta) then
    let chunkCount := parseInt (default "" meta) in
    fullData ← for_fold (seq 0 chunkCount) ""
      (λ fullData i,
         part ← getDynamicProperty (part_key dynamicKey i);
         ret (if truthy part then fullData +:+ default "" part
               else fullData));
    v ← JSON_parse fullData; ret (Some v)
  else v ← JSON_parse (default "" meta); ret (Some v).

Definition clear : M unit :=
  pointers ← _getPointers;
  l ← Array.read pointers;
  for_each l (λ dynamicKey,
    meta ← getDynamicProperty dynamicKey;
    erase dynamicKey meta) ;;
  empty ← Array.new [];
  _setPointers empty.

Definition entries : M (list (string * option JSON.t)) :=
  pointers ← _getPointers;
  l ← Array.read pointers;
  map_M (λ ptr, let key := last_segment ptr in
                value ← get key;
                ret (key, value)) l.

End OptimizedDatabaseV1.

(** * The function [waitForChunkLoad]

    The function of [src/scripts/functions/waitForChunkLoad.ts].  It runs
    in the host: [isChunkLoaded(position, player)], which the repository
    defines in another file, is taken as the answer of the host at each
    tick; [await new Promise(resolve => system.runTimeout(resolve, 5))]
    lets five ticks pass; [console.log] and [console.error] append to the
    console.  The numbers of a position and their conversion to text in a
    template are those of the host, and are parameters. *)

Module ChunkLoad.

Inductive output :=
| log (message : string)
| error (message : string).

Record Host := mkHost {
  clock : nat;              (* the ticks elapsed *)
  console : list output;
}.

Section waitForChunkLoad.

Context {number : Type}.
Variable show : number → string.
Variable isChunkLoaded : nat → bool.

Record Vector3 := mkVector3 { x : number; y : number; z : number }.

Definition waiting_message (position : Vector3) : string :=
  "Waiting for chunk to load at " +:+ show (x position) +:+ ", "
    +:+ show (z position) +:+ "...".

Definition failed_message (position : Vector3) : string :=
  "Chunk failed to load at " +:+ show (x position) +:+ ", "
    +:+ show (z position) +:+ " after multiple attempts.".

(** The loop [while (!isChunkLoaded(position, player) && attempts > 0)],
    from a given value of [attempts]: it returns the value of [attempts]
    at its exit. *)
Fixpoint wait_loop (position : Vector3) (attempts : nat) (h : Host)
    : nat * Host :=
  if negb (isChunkLoaded (clock h)) && (0 <? attempts) then
    match attempts with
    | S attempts' =>
        wait_loop position attempts'
          (mkHost (clock h + 5)
             (console h ++ [log (waiting_message position)]))
    | 0 => (attempts, h)
    end
  else (attempts, h).

Definition waitForChunkLoad (position : Vector3) (h : Host) : Host :=
  let '(attempts, h') := wait_loop position 10 h in
  if attempts =? 0
  then mkHost (clock h') (console h' ++ [error (failed_message position)])
  else h'.

End waitForChunkLoad.

End ChunkLoad.

(** * Derived notions

    The effects of the methods as functions on the dynamic properties, the
    pointer list of a database, the states that the methods reach, and the
    databases used as examples. *)

(** ** What the methods do to the dynamic properties

    The loops and sequences of writes of the class, as functions on the
    map of dynamic properties. *)

Module Effects.
Import Text OptimizedDatabaseV1.

(** [world.setDynamicProperty(key, value)] on the map. *)
Definition put (key : string) (value : option string)
    (w : gmap string string) : gmap string string :=
  match value with
  | Some text => <[key := text]> w
  | None => base.delete key w
  end.

(** The [i]-th chunk cut by [set]. *)
Definition chunk (m : nat) (text : string) (i : nat) : string :=
  substring text (i * m) ((i + 1) * m).

Definition put_parts (m : nat) (dk text : string) (n : nat)
    (w : gmap string string) : gmap string string :=
  foldl (λ w i, <[part_key dk i := chunk m text i]> w) w (seq 0 n).

Definition written (m : nat) (dk text : string) (w : gmap string string)
    : gmap string string :=
  let n := ceil_div (String.length text) m in
  if 1 <? n then <[dk := toString n]> (put_parts m dk text n w)
  else <[dk := text]> w.

Definition drop_parts (dk : string) (n : nat) (w : gmap string string)
    : gmap string string :=
  foldl (λ w i, base.delete (part_key dk i) w) w (seq 0 n).

(** A text that the loops of [delete] and [clear] count as it is
    written: no run of digits, or one that writes at most [2^53]. *)
Definition countable (meta : string) : bool :=
  negb (digits_only meta) || (digits_value meta <=? max_exact)%N.

(** A marker on which the loops of [delete] and [clear] do not end. *)
Definition endless (meta : string) : bool :=
  digits_only meta && bool_decide (turns meta = None).

(** What the removal of [delete] and [clear] leaves, when its loop ends. *)
Definition erased (dk : string) (w : gmap string string)
    : gmap string string :=
  let meta := default "" (w !! dk) in
  base.delete dk
    (if digits_only meta then drop_parts dk (default 0 (turns meta)) w
     else w).

(** The text that [get] reassembles from [n] parts. *)
Definition gather (w : gmap string string) (dk : string) (n : nat) : string :=
  foldl (λ acc i, let part := w !! part_key dk i in
                  if truthy part then acc +:+ default "" part else acc)
    "" (seq 0 n).

Definition parsed (text : string) : Outcome (option JSON.t) :=
  match JSON.parse text with
  | Some v => Ok (Some v)
  | None => Throw SyntaxError
  end.

(** The result of [get] on the entry key [dk]. *)
Definition read_value (w : gmap string string) (dk : string)
    : Outcome (option JSON.t) :=
  let meta := w !! dk in
  if negb (truthy meta) then Ok None
  else if digits_only (default "" meta)
  then parsed (gather w dk (parseInt (default "" meta)))
  else parsed (default "" meta).

(** The pointer list that a database without cache reads from the index. *)
Definition stored_pointers (w : gmap string string) (pk : string)
    : Outcome (list string) :=
  let pointers := w !! pk in
  if truthy pointers then
    match JSON.parse (default "" pointers) with
    | None => Throw SyntaxError
    | Some v =>
        match as_strings v with
        | Some l => Ok l
        | None => Throw TypeError
        end
    end
  else Ok [].

End Effects.

Import Text OptimizedDatabaseV1 Effects.
Local Open Scope M_scope.

(** ** Texts

    Notions on texts and on JSON values that the properties are stated
    and proved with. *)

(** [s] without its longest suffix of decimal digits. *)
Fixpoint without_trailing_digits (s : string) : string :=
  match s with
  | EmptyString => ""
  | String c s' =>
      if is_digit c && all_digits s' then "" else String c (without_trailing_digits s')
  end.

(** The characters that a JSON text can begin with, after its leading
    white space: those of a string, an array, an object, a number and the
    three literals. *)
Definition begins_value (c : ascii) : bool :=
  match c with
  | "034" | "[" | "{" | "-" | "t" | "f" | "n" => true
  | _ => is_digit c
  end%char.

(** The texts that are no JSON by their first character: [JSON.parse]
    throws on them whatever follows. *)
Definition no_json (text : string) : bool :=
  match JSON.skip_ws text with
  | EmptyString => true
  | String c _ => negb (begins_value c)
  end.

(** What can follow a value inside a text written by [JSON.stringify]:
    nothing, a comma, or a closing bracket or brace. *)
Definition ends_value (rest : string) : bool :=
  match rest with
  | EmptyString => true
  | String c _ =>
      match c with
      | "," | "]" | "}" => true
      | _ => false
      end%char
  end.

(** The fuel that [JSON.parse_value] uses up on the text of a value. *)
Fixpoint weight (v : JSON.t) : nat :=
  match v with
  | JSON.Arr l => S (list_sum (map (λ x, S (weight x)) l))
  | JSON.Obj l => S (list_sum (map (λ kv, S (weight kv.2)) l))
  | _ => 1
  end.

(** The text of a member of an object, as [JSON.stringify] writes it. *)
Definition member (kv : string * JSON.t) : string :=
  JSON.quote kv.1 +:+ ":" +:+ JSON.stringify kv.2.

(** ** States *)

(** The pointer list of the database: the cached array once there is one,
    otherwise what the index entry holds. *)
Definition Pointers (st : State) (l : list string) : Prop :=
  match cachedPointers (this st) with
  | Some r => arrays st !! r = Some l
  | None => stored_pointers (world st) (pointerKey (this st)) = Ok l
  end.

(** The state once [_getPointers] has returned: a database without cache
    has allocated the array it read and caches it. *)
Definition loaded (l : list string) (st : State) : State :=
  match cachedPointers (this st) with
  | Some _ => st
  | None => with_cache (Some (length (arrays st))) (with_arrays (λ h, h ++ [l]) st)
  end.

Definition pointers_ref (st : State) : nat :=
  default (length (arrays st)) (cachedPointers (this st)).

(** The pointer array without [dk], as [delete] filters it. *)
Definition without (dk : string) (l : list string) : list string :=
  List.filter (λ ptr, bool_decide (ptr ≠ dk)) l.

(** The state after [delete] has removed the entry key [dk] that it found
    in the pointer list [l]. *)
Definition deleted (dk : string) (l : list string) (st : State) : State :=
  let st1 := loaded l st in
  mkState
    (<[pointerKey (this st) := stringify_pointers (without dk l)]>
       (erased dk (world st)))
    (arrays st1 ++ [without dk l])
    (mkDatabase (name (this st)) (pointerKey (this st))
       (Some (length (arrays st1)))).

(** The state after [set] has stored a key that was not in the pointer
    list [l]: the value is written, the entry key is pushed on the cached
    array and the index is rewritten. *)
Definition added (m : nat) (dk text : string) (l : list string) (st : State)
    : State :=
  let st1 := loaded l st in
  mkState
    (<[pointerKey (this st) := stringify_pointers (l ++ [dk])]>
       (written m dk text (world st)))
    (alter (λ l, l ++ [dk]) (pointers_ref st) (arrays st1))
    (this st1).

(** The properties once the loop of [clear] has gone through the pointer
    list [l]. *)
Definition swept (l : list string) (w : gmap string string)
    : gmap string string :=
  foldl (λ w p, erased p w) w l.

Definition cleared (l : list string) (st : State) : State :=
  let st1 := loaded l st in
  mkState
    (<[pointerKey (this st) := stringify_pointers []]> (swept l (world st)))
    (arrays st1 ++ [[]])
    (mkDatabase (name (this st)) (pointerKey (this st))
       (Some (length (arrays st1)))).

(** The pairs that [entries] emits for the pointer list [l], or the first
    exception raised by a [get]. *)
Fixpoint collect (w : gmap string string) (nm : string) (l : list string)
    : Outcome (list (string * option JSON.t)) :=
  match l with
  | [] => Ok []
  | ptr :: l' =>
      let key := last_segment ptr in
      match read_value w (entry_key nm key) with
      | Throw e => Throw e
      | Diverges => Diverges
      | Ok value =>
          match collect w nm l' with
          | Throw e => Throw e
          | Diverges => Diverges
          | Ok rest => Ok ((key, value) :: rest)
          end
      end
  end.

(** The pointer list [l] of a database: what the index entry holds and,
    once there is a cache, what the cached array holds. *)
Definition Index (st : State) (l : list string) : Prop :=
  pointerKey (this st) = name (this st) +:+ "/pointers"
  ∧ stored_pointers (world st) (pointerKey (this st)) = Ok l
  ∧ (∀ r, cachedPointers (this st) = Some r → arrays st !! r = Some l).

(** ** Sequences of calls *)

Inductive operation :=
| Set_ (key : string) (value : JSON.t)
| Delete (key : string)
| Clear.

Definition key_of (op : operation) : option string :=
  match op with
  | Set_ key _ | Delete key => Some key
  | Clear => None
  end.

Definition perform (op : operation) : M unit :=
  match op with
  | Set_ key value => set key value ;; ret ()
  | Delete key => delete key
  | Clear => clear
  end.

(** A sequence of calls. *)
Fixpoint perform_all (ops : list operation) : M unit :=
  match ops with
  | [] => ret ()
  | op :: ops' => perform op ;; perform_all ops'
  end.

(** ** Example databases *)

(** [c.repeat(n)]. *)
Fixpoint repeat_char (c : ascii) (n : nat) : string :=
  match n with
  | 0 => ""
  | S n => String c (repeat_char c n)
  end.

(** A string of 30000 characters: its serialization has 30002 characters
    and is stored in two chunks. *)
Definition big (c : ascii) : JSON.t := JSON.Str (repeat_char c 30000).

(** A database object [db] in a host without any property. *)
Definition empty_state : State :=
  mkState ∅ [] (mkDatabase "db" "db/pointers" None).

(** The database of the scenario of the specification and its states. *)
Definition rc1 : State :=
  mkState {[ "rc1/pointers" := "[]" ]} [] (mkDatabase "rc1" "rc1/pointers" None).

Definition pos (x y z : Z) : JSON.t :=
  JSON.Obj [("x", JSON.Num x); ("y", JSON.Num y); ("z", JSON.Num z)].

Definition rc1_1 : State := (set "pos" (pos 1 2 3) rc1).2.
Definition rc1_2 : State := (set "pos" (pos 9 9 9) rc1_1).2.

(** The database [db] as its constructor leaves it in a host without
    properties. *)
Definition empty_db : State :=
  mkState {[ "db/pointers" := "[]" ]} [] (mkDatabase "db" "db/pointers" None).

(** The database [db] after three calls of [set] on the key [k]: two
    values of two chunks, then a short string. *)
Definition db_1 : State := (set "k" (big "a") empty_db).2.
Definition db_2 : State := (set "k" (big "b") db_1).2.
Definition db_3 : State := (set "k" (JSON.Str "small") db_2).2.

(** The scenario of the specification with a chunk size of 10: the key
    [big] is stored in two parts. *)
Definition chunked_db : State :=
  Eval vm_compute in (set_with 10 "big" (JSON.Str "0123456789ABCDE") empty_db).2.

(** A database with a value stored whole and a value stored in two parts. *)
Definition mixed_db : State :=
  Eval vm_compute in (set "pos" (pos 1 2 3) chunked_db).2.

(** * Properties *)

(** ** Text *)

Module TextFacts.
Import Text.

Lemma app_cons (c : ascii) (a b : string) :
  String c a +:+ b = String c (a +:+ b).
Proof. done. Qed.

Lemma app_nil_l (s : string) : "" +:+ s = s.
Proof. done. Qed.

Lemma app_nil_r (s : string) : s +:+ "" = s.
Proof. induction s as [|c s IH]; [done|]. by rewrite app_cons, IH. Qed.

Lemma app_assoc (a b c : string) : (a +:+ b) +:+ c = a +:+ b +:+ c.
Proof. induction a as [|x a IH]; [done|]. by rewrite !app_cons, IH. Qed.

Lemma app_length (a b : string) :
  String.length (a +:+ b) = String.length a + String.length b.
Proof. induction a as [|x a IH]; [done|]. rewrite app_cons. cbn. by rewrite IH. Qed.

Lemma includes_app (c : ascii) (a b : string) :
  includes c (a +:+ String c b) = true.
Proof.
  induction a as [|x a IH]; rewrite ?app_cons, ?app_nil_l; cbn.
  - by rewrite Ascii.eqb_refl.
  - destruct (Ascii.eqb x c); [done|apply IH].
Qed.

(** *** Decimal numerals *)

Lemma all_digits_string_of_uint (d : Decimal.uint) :
  all_digits (NilEmpty.string_of_uint d) = true.
Proof. induction d; cbn; auto. Qed.

Lemma toString_digits_only (n : nat) : digits_only (toString n) = true.
Proof.
  unfold toString. destruct (Nat.to_uint n) eqn:E; try done;
    apply (all_digits_string_of_uint (_ u)).
Qed.

Lemma parseInt_toString (n : nat) : parseInt (toString n) = n.
Proof.
  unfold parseInt, toString.
  destruct (Nat.to_uint n) as [| | | | | | | | | |] eqn:E.
  { rewrite <- (Unsigned.of_to n), E. done. }
  all: rewrite NilZero.usu by done; rewrite <- E; apply Unsigned.of_to.
Qed.

Example max_exact_pow : max_exact = (2 ^ 53)%N.
Proof. reflexivity. Qed.

(** The two readings of a run of digits, in unary for the turns of a loop
    and in binary for the comparison with [2^53], are the same integer. *)
Lemma of_lu_N (d : Decimal.uint) :
  N.of_nat (DecimalNat.Unsigned.of_lu d) = DecimalPos.Unsigned.of_lu d.
Proof.
  induction d; [done|..];
    rewrite DecimalNat.Unsigned.of_lu_eqn, DecimalPos.Unsigned.of_lu_eqn;
    cbn [DecimalNat.Unsigned.hd DecimalNat.Unsigned.tl
         DecimalPos.Unsigned.hd DecimalPos.Unsigned.tl];
    rewrite Nat2N.inj_add, Nat2N.inj_mul, IHd; reflexivity.
Qed.

Lemma digits_value_parseInt (s : string) :
  digits_value s = N.of_nat (parseInt s).
Proof.
  unfold digits_value, parseInt.
  destruct (NilZero.uint_of_string s) as [d|]; [|done].
  unfold N.of_uint.
  by rewrite DecimalNat.Unsigned.of_uint_alt, DecimalPos.Unsigned.of_uint_alt,
    of_lu_N.
Qed.

Lemma digits_value_toString (n : nat) : digits_value (toString n) = N.of_nat n.
Proof. by rewrite digits_value_parseInt, parseInt_toString. Qed.

Lemma toString_inj (i j : nat) : toString i = toString j → i = j.
Proof.
  intros H. rewrite <- (parseInt_toString i), <- (parseInt_toString j).
  by rewrite H.
Qed.

Lemma toString_nonempty (n : nat) : toString n ≠ "".
Proof. intros H. pose proof (toString_digits_only n) as D. by rewrite H in D. Qed.

Lemma digits_only_truthy (s : string) :
  digits_only s = true → truthy (Some s) = true.
Proof. by destruct s. Qed.

(** *** Substrings *)

Lemma substring_chunk (s : string) (i m : nat) :
  substring s (i * m) ((i + 1) * m) = String.substring (i * m) m s.
Proof. unfold substring. f_equal; lia. Qed.

Lemma substring_length_le (s : string) (a m : nat) :
  String.length (String.substring a m s) ≤ m.
Proof.
  revert a m. induction s as [|c s IH]; intros [|a] [|m]; cbn; try lia.
  - specialize (IH 0 m). lia.
  - apply (IH a 0).
  - apply (IH a (S m)).
Qed.

Lemma substring_whole (s : string) (n : nat) :
  String.length s ≤ n → String.substring 0 n s = s.
Proof.
  revert n. induction s as [|c s IH]; intros [|n] H; cbn in *; try done; try lia.
  f_equal. apply IH. lia.
Qed.

Lemma substring_shift (c : ascii) (s : string) (a m : nat) :
  String.substring (S a) m (String c s) = String.substring a m s.
Proof. done. Qed.

Lemma substring_split (s : string) (a b : nat) :
  String.substring 0 a s +:+ String.substring a b s
  = String.substring 0 (a + b) s.
Proof.
  revert a b. induction s as [|c s IH]; intros a b.
  - by destruct a, b.
  - destruct a as [|a].
    + cbn [Nat.add]. by destruct b.
    + change (String c (String.substring 0 a s +:+ String.substring a b s)
              = String c (String.substring 0 (a + b) s)).
      by rewrite IH.
Qed.

(** The prefix of [s] of length [a], the piece of length [m] that follows
    it, and the rest make up [s]: the pieces cut by [substring] are
    contiguous and do not overlap. *)
Lemma substring_contiguous (s : string) (a m : nat) :
  String.substring 0 a s +:+ String.substring a m s
    +:+ String.substring (a + m) (String.length s) s = s.
Proof.
  rewrite <- app_assoc, substring_split, substring_split.
  apply substring_whole. lia.
Qed.

End TextFacts.

(** ** Keys and chunk counts *)

Module KeyFacts.
Import Text TextFacts OptimizedDatabaseV1.

Lemma ends_with_digit_app (a b : string) :
  b ≠ "" → ends_with_digit (a +:+ b) = ends_with_digit b.
Proof.
  intros Hb. induction a as [|c a IH]; [done|].
  rewrite app_cons. cbn. rewrite IH.
  destruct (a +:+ b) eqn:E; [|done].
  destruct a; [by rewrite app_nil_l in E|by rewrite app_cons in E].
Qed.

Lemma all_digits_ends (s : string) :
  s ≠ "" → all_digits s = true → ends_with_digit s = true.
Proof.
  induction s as [|c s IH]; [done|]. intros _. cbn.
  intros [Hc Hs]%andb_prop. destruct s; [done|]. by apply IH.
Qed.

Lemma toString_ends_with_digit (i : nat) : ends_with_digit (toString i) = true.
Proof.
  pose proof (toString_digits_only i) as D.
  apply all_digits_ends; [apply toString_nonempty|].
  by destruct (toString i).
Qed.

Lemma part_key_inj (dk : string) (i j : nat) :
  part_key dk i = part_key dk j → i = j.
Proof.
  unfold part_key. intros H.
  do 2 apply String.app_inj in H. by apply toString_inj.
Qed.

Lemma part_key_ne_base (dk : string) (i : nat) : part_key dk i ≠ dk.
Proof.
  intros H. apply (f_equal String.length) in H.
  unfold part_key in H. rewrite !app_length in H. cbn in H. lia.
Qed.

(** No chunk-part key is an index key. *)
Lemma part_key_ne_pointers (p nm : string) (i : nat) :
  part_key p i ≠ nm +:+ "/pointers".
Proof.
  intros H. apply (f_equal ends_with_digit) in H.
  unfold part_key in H.
  rewrite !ends_with_digit_app, toString_ends_with_digit in H;
    [done|done|apply toString_nonempty|].
  destruct (toString i) eqn:E; [by apply toString_nonempty in E|done].
Qed.

Lemma entry_key_inj (nm k k' : string) :
  entry_key nm k = entry_key nm k' → k = k'.
Proof. unfold entry_key. intros H. by do 2 apply String.app_inj in H. Qed.

(** The entry key of [key] is the index key exactly for [key = "pointers"]. *)
Lemma entry_key_pointers (nm k : string) :
  entry_key nm k = nm +:+ "/pointers" ↔ k = "pointers".
Proof.
  split; [|by intros ->].
  intros H. by apply (entry_key_inj nm k "pointers").
Qed.

(** *** [Math.ceil(length / maxChunkSize)] *)

Lemma ceil_div_upper (a m : nat) : 0 < m → a ≤ ceil_div a m * m.
Proof.
  intros Hm. unfold ceil_div.
  pose proof (Nat.div_mod_eq a m) as E.
  pose proof (Nat.mod_upper_bound a m ltac:(lia)) as U.
  destruct (a mod m =? 0) eqn:Z; [apply Nat.eqb_eq in Z|]; nia.
Qed.

Lemma ceil_div_lower (a m : nat) : 0 < m → 0 < a → (ceil_div a m - 1) * m < a.
Proof.
  intros Hm Ha. unfold ceil_div.
  pose proof (Nat.div_mod_eq a m) as E.
  pose proof (Nat.mod_upper_bound a m ltac:(lia)) as U.
  destruct (a mod m =? 0) eqn:Z; [apply Nat.eqb_eq in Z|apply Nat.eqb_neq in Z].
  - assert (0 < a / m) by nia. nia.
  - nia.
Qed.

(** More than one chunk is needed exactly when the text exceeds the limit. *)
Lemma ceil_div_chunked (a m : nat) :
  0 < m → (1 <? ceil_div a m) = bool_decide (m < a).
Proof.
  intros Hm.
  pose proof (ceil_div_upper a m Hm) as U.
  case_bool_decide as Hlt.
  - apply Nat.ltb_lt. destruct (ceil_div a m) as [|[|n]]; lia.
  - apply Nat.ltb_ge.
    destruct (decide (a = 0)) as [->|Ha].
    { unfold ceil_div. rewrite Nat.Div0.div_0_l, Nat.Div0.mod_0_l. cbn. lia. }
    pose proof (ceil_div_lower a m Hm ltac:(lia)) as L.
    destruct (ceil_div a m) as [|[|n]]; [lia|lia|]. cbn in L. nia.
Qed.

Lemma ceil_div_le (a m : nat) : 0 < m → ceil_div a m ≤ a.
Proof.
  intros Hm. destruct (decide (a = 0)) as [->|Ha].
  { unfold ceil_div. rewrite Nat.Div0.div_0_l, Nat.Div0.mod_0_l. cbn. lia. }
  pose proof (ceil_div_lower a m Hm ltac:(lia)). nia.
Qed.

Lemma maxChunkSize_pos : 0 < maxChunkSize.
Proof. apply Nat.ltb_lt. by vm_compute. Qed.

End KeyFacts.

(** ** Elementary steps *)

Import TextFacts KeyFacts.

Lemma with_world_compose f g st :
  with_world f (with_world g st) = with_world (f ∘ g) st.
Proof. done. Qed.

Lemma with_world_id st : with_world (λ w, w) st = st.
Proof. by destruct st. Qed.

Lemma bind_ok {A B} (m : M A) (k : A → M B) st a st' :
  m st = (Ok a, st') → bind m k st = k a st'.
Proof. unfold bind. by intros ->. Qed.

Lemma bind_throw {A B} (m : M A) (k : A → M B) st e st' :
  m st = (Throw e, st') → bind m k st = (Throw e, st').
Proof. unfold bind. by intros ->. Qed.

Lemma bind_diverges {A B} (m : M A) (k : A → M B) st st' :
  m st = (Diverges, st') → bind m k st = (Diverges, st').
Proof. unfold bind. by intros ->. Qed.

Lemma setDynamicProperty_run key value st :
  setDynamicProperty key value st = (Ok (), with_world (put key value) st).
Proof. done. Qed.

Lemma for_each_put {A} (l : list A) (f : A → string) (g : A → option string) st :
  for_each l (λ x, setDynamicProperty (f x) (g x)) st
  = (Ok (), with_world (λ w, foldl (λ w x, put (f x) (g x) w) w l) st).
Proof.
  revert st. induction l as [|x l IH]; intros st.
  - cbn. by rewrite with_world_id.
  - cbn [for_each]. erewrite bind_ok by apply setDynamicProperty_run.
    by rewrite IH.
Qed.

Lemma write_run m dk text st :
  write m dk text st = (Ok (), with_world (written m dk text) st).
Proof.
  unfold write, written.
  destruct (1 <? ceil_div (String.length text) m); [|done].
  erewrite bind_ok by apply for_each_put. done.
Qed.

(** ** The methods, step by step *)

Lemma countable_turns meta :
  digits_only meta = true → countable meta = true →
  turns meta = Some (parseInt meta).
Proof.
  unfold countable, turns. intros -> H. cbn in H. by rewrite H.
Qed.

Lemma countable_endless meta : countable meta = true → endless meta = false.
Proof.
  intros H. unfold endless. destruct (digits_only meta) eqn:D; [|done].
  by rewrite (countable_turns meta D H).
Qed.

(** The removal ends, or its loop over the parts does not. *)
Lemma erase_cases dk st :
  erase dk (world st !! dk) st
  = if endless (default "" (world st !! dk)) then (Diverges, st)
    else (Ok (), with_world (erased dk) st).
Proof.
  destruct st as [w h t].
  unfold erase, erased, endless, with_world. cbn [world arrays this].
  destruct (digits_only (default "" (w !! dk))) eqn:D; [|done].
  destruct (turns (default "" (w !! dk))) as [n|] eqn:T; cbn [andb default].
  - rewrite bool_decide_false by done.
    erewrite bind_ok by apply for_each_put. done.
  - by rewrite bool_decide_true.
Qed.

Lemma erase_run dk st :
  countable (default "" (world st !! dk)) = true →
  erase dk (world st !! dk) st = (Ok (), with_world (erased dk) st).
Proof. intros H. by rewrite erase_cases, countable_endless. Qed.

(** Unfolds the sequencing and the elementary steps of a method. *)
Ltac run :=
  repeat (progress (
    unfold bind, ret, throw, get_this, set_cache, getDynamicProperty,
      Array.includes, Array.read, Array.new, Array.filter, Array.push;
    cbn [fst snd world arrays this name pointerKey cachedPointers
         with_world with_arrays with_cache])).

Lemma getPointers_run st l :
  Pointers st l → _getPointers st = (Ok (pointers_ref st), loaded l st).
Proof.
  destruct st as [w h [nm pk [r|]]]; unfold Pointers, loaded, pointers_ref; cbn.
  - done.
  - intros H. unfold _getPointers, stored_pointers in *.
    cbn -[JSON.parse] in *.
    destruct (truthy (w !! pk)); [|by simplify_eq].
    unfold JSON_parse.
    destruct (JSON.parse (default "" (w !! pk))) as [v|]; [|done]. run.
    destruct (as_strings v); by simplify_eq.
Qed.

Lemma getPointers_throw st e :
  cachedPointers (this st) = None →
  stored_pointers (world st) (pointerKey (this st)) = Throw e →
  _getPointers st = (Throw e, st).
Proof.
  destruct st as [w h [nm pk c]]; cbn. intros -> H.
  unfold _getPointers, stored_pointers in *. cbn -[JSON.parse] in *.
  destruct (truthy (w !! pk)); [|done].
  unfold JSON_parse.
  destruct (JSON.parse (default "" (w !! pk))) as [v|]; [|by simplify_eq]. run.
  destruct (as_strings v); by simplify_eq.
Qed.

Lemma loaded_cache l st :
  cachedPointers (this (loaded l st)) = Some (pointers_ref st).
Proof. by destruct st as [w h [nm pk [r|]]]. Qed.

Lemma loaded_array l st :
  Pointers st l → arrays (loaded l st) !! pointers_ref st = Some l.
Proof.
  destruct st as [w h [nm pk [r|]]]; unfold Pointers, loaded, pointers_ref; cbn.
  - done.
  - intros _. by rewrite lookup_app_r, Nat.sub_diag.
Qed.

Lemma loaded_world l st : world (loaded l st) = world st.
Proof. by destruct st as [w h [nm pk [r|]]]. Qed.

Lemma loaded_name l st : name (this (loaded l st)) = name (this st).
Proof. by destruct st as [w h [nm pk [r|]]]. Qed.

Lemma loaded_pointerKey l st : pointerKey (this (loaded l st)) = pointerKey (this st).
Proof. by destruct st as [w h [nm pk [r|]]]. Qed.

Lemma loaded_Pointers l st : Pointers st l → Pointers (loaded l st) l.
Proof.
  intros H. unfold Pointers at 1. rewrite loaded_cache. by apply loaded_array.
Qed.

Lemma loaded_idem l st : loaded l (loaded l st) = loaded l st.
Proof. by destruct st as [w h [nm pk [r|]]]. Qed.
Lemma setPointers_run r st :
  _setPointers r st
  = (Ok (), with_world (put (pointerKey (this st))
                          (Some (stringify_pointers (default [] (arrays st !! r)))))
              (with_cache (Some r) st)).
Proof. by destruct st as [w h [nm pk c]]. Qed.

(** *** [delete] *)

(** [delete] on a key of the pointer list: the call goes through, unless
    the loop over the parts does not end. *)
Lemma delete_cases st l key :
  Pointers st l →
  entry_key (name (this st)) key ∈ l →
  delete key st
  = if endless (default "" (world st !! entry_key (name (this st)) key))
    then (Diverges, loaded l st)
    else (Ok (), deleted (entry_key (name (this st)) key) l st).
Proof.
  intros HP Hin. unfold delete.
  erewrite bind_ok by (by apply getPointers_run).
  pose proof (loaded_array l st HP) as Ha.
  pose proof (loaded_cache l st) as Hc.
  unfold deleted.
  rewrite <- (loaded_world l st), <- (loaded_pointerKey l st).
  rewrite <- (loaded_name l st) in Hin |- *.
  generalize dependent (loaded l st). intros st1 Hin Ha Hc.
  destruct st1 as [w h [nm pk c]]. cbn in *. subst c.
  run. rewrite Ha. cbn [default]. rewrite bool_decide_true by done.
  pose proof (erase_cases (entry_key nm key)
    (mkState w h (mkDatabase nm pk (Some (pointers_ref st))))) as E.
  cbn [world] in E. rewrite E. clear E.
  destruct (endless _); [done|]. run.
  rewrite Ha. cbn [default].
  rewrite setPointers_run. run.
  rewrite lookup_app_r, Nat.sub_diag by done. done.
Qed.

Lemma delete_present st l key :
  Pointers st l →
  entry_key (name (this st)) key ∈ l →
  countable (default "" (world st !! entry_key (name (this st)) key)) = true →
  delete key st = (Ok (), deleted (entry_key (name (this st)) key) l st).
Proof.
  intros HP Hin Hc. by rewrite (delete_cases st l), countable_endless.
Qed.

Lemma delete_absent st l key :
  Pointers st l →
  entry_key (name (this st)) key ∉ l →
  delete key st = (Ok (), loaded l st).
Proof.
  intros HP Hin. unfold delete.
  erewrite bind_ok by (by apply getPointers_run).
  pose proof (loaded_array l st HP) as Ha.
  rewrite <- (loaded_name l st) in Hin.
  generalize dependent (loaded l st). intros st1 Hin Ha.
  destruct st1 as [w h [nm pk c]]. cbn in *.
  run. rewrite Ha. cbn [default]. by rewrite bool_decide_false.
Qed.

(** *** [set] *)

(** [set] on a key of the pointer list: the call goes through, unless the
    loop of its [delete] does not end. *)
Lemma set_cases m st l key value :
  Pointers st l →
  entry_key (name (this st)) key ∈ l →
  set_with m key value st
  = if endless (default "" (world st !! entry_key (name (this st)) key))
    then (Diverges, loaded l st)
    else (Ok true,
          with_world (written m (entry_key (name (this st)) key) (JSON.stringify value))
            (deleted (entry_key (name (this st)) key) l st)).
Proof.
  intros HP Hin. unfold set_with.
  erewrite bind_ok by (by apply getPointers_run).
  pose proof (loaded_array l st HP) as Ha.
  pose proof (loaded_cache l st) as Hc.
  pose proof (loaded_Pointers l st HP) as HP1.
  pose proof (delete_cases (loaded l st) l key HP1) as D.
  unfold deleted in *. rewrite loaded_idem in D.
  rewrite <- (loaded_world l st), <- (loaded_pointerKey l st).
  rewrite <- (loaded_name l st) in Hin |- *.
  specialize (D Hin).
  assert (pointers_ref st < length (arrays (loaded l st))) as Hlt
    by by eapply lookup_lt_Some.
  generalize dependent (loaded l st). intros st1 Hin Ha Hc HP1 D Hlt.
  destruct st1 as [w h [nm pk c]]. cbn in *. subst c.
  run. rewrite Ha. cbn [default]. rewrite bool_decide_true by done.
  rewrite D. destruct (endless _); [done|]. run. rewrite write_run. run.
  rewrite lookup_app_l, Ha by done. cbn [default].
  rewrite bool_decide_true by done. done.
Qed.

Lemma set_present m st l key value :
  Pointers st l →
  entry_key (name (this st)) key ∈ l →
  countable (default "" (world st !! entry_key (name (this st)) key)) = true →
  set_with m key value st
  = (Ok true,
     with_world (written m (entry_key (name (this st)) key) (JSON.stringify value))
       (deleted (entry_key (name (this st)) key) l st)).
Proof.
  intros HP Hin Hc. by rewrite (set_cases m st l), countable_endless.
Qed.

Lemma set_absent m st l key value :
  Pointers st l →
  entry_key (name (this st)) key ∉ l →
  set_with m key value st
  = (Ok false, added m (entry_key (name (this st)) key) (JSON.stringify value) l st).
Proof.
  intros HP Hin. unfold set_with.
  erewrite bind_ok by (by apply getPointers_run).
  pose proof (loaded_array l st HP) as Ha.
  pose proof (loaded_cache l st) as Hc.
  unfold added.
  rewrite <- (loaded_world l st), <- (loaded_pointerKey l st).
  rewrite <- (loaded_name l st) in Hin |- *.
  assert (pointers_ref st < length (arrays (loaded l st))) as Hlt
    by by eapply lookup_lt_Some.
  generalize dependent (loaded l st). intros st1 Hin Ha Hc Hlt.
  destruct st1 as [w h [nm pk c]]. cbn in *. subst c.
  run. rewrite Ha. cbn [default]. rewrite bool_decide_false by done.
  run. rewrite write_run. run. rewrite Ha. cbn [default].
  rewrite bool_decide_false by done. cbn [negb].
  rewrite setPointers_run. run.
  rewrite list_lookup_alter_eq, Ha. done.
Qed.

(** *** [get] *)

Lemma gather_run (w : gmap string string) dk (l : list nat) acc st :
  world st = w →
  for_fold l acc
    (λ fullData i,
       part ← getDynamicProperty (part_key dk i);
       ret (if truthy part then fullData +:+ default "" part else fullData)) st
  = (Ok (foldl (λ acc i, let part := w !! part_key dk i in
                         if truthy part then acc +:+ default "" part else acc)
           acc l), st).
Proof.
  intros <-. revert acc. induction l as [|i l IH]; intros acc; [done|].
  cbn [for_fold foldl]. erewrite bind_ok by reflexivity. apply IH.
Qed.

Lemma get_run key st :
  get key st = (read_value (world st) (entry_key (name (this st)) key), st).
Proof.
  unfold get, read_value.
  erewrite bind_ok by reflexivity. erewrite bind_ok by reflexivity.
  destruct (truthy (world st !! entry_key (name (this st)) key)); [|done].
  cbn [negb].
  destruct (digits_only _).
  - erewrite bind_ok by (by apply gather_run).
    unfold gather, parsed, JSON_parse, bind, ret. by destruct (JSON.parse _).
  - unfold parsed, JSON_parse, bind, ret. by destruct (JSON.parse _).
Qed.

(** *** [entries] *)

Lemma collect_run (l : list string) st :
  map_M (λ ptr, let key := last_segment ptr in
                value ← get key; ret (key, value)) l st
  = (collect (world st) (name (this st)) l, st).
Proof.
  set (f := λ ptr, _).
  induction l as [|p l IH]; [done|].
  cbn [map_M collect]. unfold bind at 1. unfold f at 1. unfold bind at 1.
  rewrite get_run.
  destruct (read_value _ _); [|done..].
  unfold ret at 1. unfold bind at 1. rewrite IH.
  by destruct (collect _ _ _).
Qed.

Lemma entries_run st l :
  Pointers st l →
  entries st = (collect (world st) (name (this st)) l, loaded l st).
Proof.
  intros HP. unfold entries.
  erewrite bind_ok by (by apply getPointers_run).
  pose proof (loaded_array l st HP) as Ha.
  rewrite <- (loaded_world l st), <- (loaded_name l st).
  generalize dependent (loaded l st). intros st1 Ha.
  unfold bind, Array.read. rewrite Ha. cbn [default].
  apply collect_run.
Qed.

(** The keys of the pairs emitted by [entries] are the last segments of
    the pointers, in the order of the pointer list. *)
Lemma collect_keys w nm l es :
  collect w nm l = Ok es → es.*1 = last_segment <$> l.
Proof.
  revert es. induction l as [|p l IH]; intros es; cbn.
  - by intros [= <-].
  - destruct (read_value _ _); [|done..].
    destruct (collect w nm l); [|done..].
    intros [= <-]. cbn. f_equal. by apply IH.
Qed.

(** ** Lookups after the writes of a method *)

Lemma put_parts_S m dk text n w :
  put_parts m dk text (S n) w
  = <[part_key dk n := chunk m text n]> (put_parts m dk text n w).
Proof. unfold put_parts. by rewrite seq_S, foldl_app. Qed.

Lemma lookup_put_parts_in m dk text n w i :
  i < n → put_parts m dk text n w !! part_key dk i = Some (chunk m text i).
Proof.
  induction n as [|n IH]; [lia|]. intros Hi. rewrite put_parts_S.
  destruct (decide (i = n)) as [->|Hne].
  - by rewrite lookup_insert_eq.
  - rewrite lookup_insert_ne by (intros ?%part_key_inj; lia). apply IH. lia.
Qed.

Lemma lookup_put_parts_out m dk text n w key :
  (∀ i, i < n → key ≠ part_key dk i) →
  put_parts m dk text n w !! key = w !! key.
Proof.
  induction n as [|n IH]; [done|]. intros H. rewrite put_parts_S.
  rewrite lookup_insert_ne by (intros ?; by eapply (H n); [lia|]).
  apply IH. intros i Hi. apply H. lia.
Qed.

Lemma drop_parts_S dk n w :
  drop_parts dk (S n) w = base.delete (part_key dk n) (drop_parts dk n w).
Proof. unfold drop_parts. by rewrite seq_S, foldl_app. Qed.

Lemma lookup_drop_parts_in dk n w i :
  i < n → drop_parts dk n w !! part_key dk i = None.
Proof.
  induction n as [|n IH]; [lia|]. intros Hi. rewrite drop_parts_S.
  destruct (decide (i = n)) as [->|Hne].
  - by rewrite lookup_delete_eq.
  - rewrite lookup_delete_ne by (intros ?%part_key_inj; lia). apply IH. lia.
Qed.

Lemma lookup_drop_parts_out dk n w key :
  (∀ i, i < n → key ≠ part_key dk i) →
  drop_parts dk n w !! key = w !! key.
Proof.
  induction n as [|n IH]; [done|]. intros H. rewrite drop_parts_S.
  rewrite lookup_delete_ne by (intros ?; by eapply (H n); [lia|]).
  apply IH. intros i Hi. apply H. lia.
Qed.

(** [drop_parts] and [erased] only remove properties. *)
Lemma lookup_drop_parts_cases dk n w key :
  drop_parts dk n w !! key = None ∨ drop_parts dk n w !! key = w !! key.
Proof.
  induction n as [|n IH]; [by right|]. rewrite drop_parts_S.
  destruct (decide (part_key dk n = key)) as [<-|Hne].
  - left. by rewrite lookup_delete_eq.
  - by rewrite lookup_delete_ne.
Qed.

Lemma lookup_erased_base dk w : erased dk w !! dk = None.
Proof. unfold erased. by rewrite lookup_delete_eq. Qed.

Lemma lookup_erased_cases dk w key :
  erased dk w !! key = None ∨ erased dk w !! key = w !! key.
Proof.
  unfold erased. destruct (decide (dk = key)) as [<-|Hne].
  - left. by rewrite lookup_delete_eq.
  - rewrite lookup_delete_ne by done.
    destruct (digits_only _); [apply lookup_drop_parts_cases|by right].
Qed.

(** The parts counted by the marker are removed. *)
Lemma lookup_erased_part dk w i :
  digits_only (default "" (w !! dk)) = true →
  countable (default "" (w !! dk)) = true →
  i < parseInt (default "" (w !! dk)) →
  erased dk w !! part_key dk i = None.
Proof.
  intros D C Hi. unfold erased. rewrite D, (countable_turns _ D C). cbn [default].
  rewrite lookup_delete_ne by (intros ?; by eapply part_key_ne_base).
  by apply lookup_drop_parts_in.
Qed.

(** Every other property is left as it was. *)
Lemma lookup_erased_other dk w key :
  key ≠ dk → (∀ i, key ≠ part_key dk i) → erased dk w !! key = w !! key.
Proof.
  intros Hne Hp. unfold erased. rewrite lookup_delete_ne by done.
  destruct (digits_only _); [|done]. by apply lookup_drop_parts_out.
Qed.

(** *** [clear] *)

(** A removal leaves no text that was not there. *)
Lemma countable_erased dk w key :
  countable (default "" (w !! key)) = true →
  countable (default "" (erased dk w !! key)) = true.
Proof.
  intros H. by destruct (lookup_erased_cases dk w key) as [-> | ->].
Qed.

Lemma sweep_run (l : list string) st :
  (∀ p, p ∈ l → countable (default "" (world st !! p)) = true) →
  for_each l (λ dynamicKey,
    meta ← getDynamicProperty dynamicKey; erase dynamicKey meta) st
  = (Ok (), with_world (swept l) st).
Proof.
  revert st. induction l as [|p l IH]; intros st H.
  - cbn. by rewrite with_world_id.
  - cbn [for_each]. run.
    rewrite erase_run by (apply H; left).
    rewrite IH; [done|].
    intros q Hq. cbn [world with_world]. apply countable_erased, H. by right.
Qed.

Lemma clear_run st l :
  Pointers st l →
  (∀ p, p ∈ l → countable (default "" (world st !! p)) = true) →
  clear st = (Ok (), cleared l st).
Proof.
  intros HP Hc. unfold clear.
  erewrite bind_ok by (by apply getPointers_run).
  pose proof (loaded_array l st HP) as Ha.
  unfold cleared.
  rewrite <- (loaded_world l st), <- (loaded_pointerKey l st), <- (loaded_name l st).
  assert (∀ p, p ∈ l → countable (default "" (world (loaded l st) !! p)) = true)
    as Hc' by (intros p Hp; rewrite loaded_world; by apply Hc).
  clear Hc HP. revert Ha Hc'. generalize (loaded l st). intros st1 Ha Hc.
  destruct st1 as [w h [nm pk c]]. cbn in *.
  run. rewrite Ha. cbn [default]. rewrite sweep_run by done. run.
  rewrite setPointers_run. run.
  rewrite lookup_app_r, Nat.sub_diag by done. done.
Qed.

(** The loop of [clear] on any pointer list: it goes through, or one of
    its removals does not end; it writes to the pointers and their chunk
    parts only. *)
Lemma sweep_cases (l : list string) st :
  let r := for_each l (λ dynamicKey,
             meta ← getDynamicProperty dynamicKey; erase dynamicKey meta) st in
  (r.1 = Diverges ∨ r = (Ok (), with_world (swept l) st))
  ∧ arrays r.2 = arrays st ∧ this r.2 = this st
  ∧ ∀ k, (∀ p, p ∈ l → k ≠ p ∧ ∀ i, k ≠ part_key p i) →
         world r.2 !! k = world st !! k.
Proof.
  revert st. induction l as [|p l IH]; intros st.
  - cbn. rewrite with_world_id. split_and!; auto.
  - cbn [for_each].
    destruct (endless (default "" (world st !! p))) eqn:E.
    { erewrite bind_diverges
        by (unfold bind, getDynamicProperty; by rewrite erase_cases, E).
      split_and!; auto. }
    erewrite bind_ok
      by (unfold bind, getDynamicProperty; by rewrite erase_cases, E).
    destruct (IH (with_world (erased p) st)) as (Hr & Ha & Ht & Hw).
    split_and!.
    + destruct Hr as [Hr| ->]; [by left|by right].
    + by rewrite Ha.
    + by rewrite Ht.
    + intros k Hk. rewrite Hw by (intros q Hq; apply Hk; by right).
      cbn [world with_world].
      destruct (Hk p) as [? ?]; [by left|]. by apply lookup_erased_other.
Qed.

Lemma clear_cases st l :
  Pointers st l →
  ((clear st).1 = Diverges ∨ clear st = (Ok (), cleared l st))
  ∧ name (this (clear st).2) = name (this st)
  ∧ pointerKey (this (clear st).2) = pointerKey (this st)
  ∧ ∀ k, k ≠ pointerKey (this st) →
         (∀ p, p ∈ l → k ≠ p ∧ ∀ i, k ≠ part_key p i) →
         world (clear st).2 !! k = world st !! k.
Proof.
  intros HP. unfold clear.
  erewrite bind_ok by (by apply getPointers_run).
  pose proof (loaded_array l st HP) as Ha.
  unfold cleared.
  rewrite <- (loaded_world l st), <- (loaded_pointerKey l st), <- (loaded_name l st).
  clear HP. revert Ha. generalize (loaded l st). intros st1 Ha.
  destruct st1 as [w h [nm pk c]]. cbn in *.
  run. rewrite Ha. cbn [default].
  destruct (sweep_cases l (mkState w h (mkDatabase nm pk c)))
    as (Hr & Hh & Ht & Hw).
  cbv zeta in *.
  destruct (for_each _ _ _) as [[[]|e|] st2]; cbn [fst snd] in *.
  - destruct Hr as [?|[= ->]]; [done|].
    rewrite setPointers_run. run.
    rewrite lookup_app_r, Nat.sub_diag by done.
    split_and!; [by right|done..|].
    intros k Hk Hl. cbn. rewrite lookup_insert_ne by done. by apply Hw.
  - by destruct Hr.
  - rewrite Ht. cbn. split_and!; auto.
Qed.

(** *** [written] *)

Lemma written_direct m dk text w :
  0 < m → String.length text ≤ m → written m dk text w = <[dk := text]> w.
Proof.
  intros Hm Hlen. unfold written. rewrite ceil_div_chunked by done.
  by rewrite bool_decide_false by lia.
Qed.

Lemma written_chunked m dk text w :
  0 < m → m < String.length text →
  written m dk text w
  = <[dk := toString (ceil_div (String.length text) m)]>
      (put_parts m dk text (ceil_div (String.length text) m) w).
Proof.
  intros Hm Hlen. unfold written. rewrite ceil_div_chunked by done.
  by rewrite bool_decide_true by lia.
Qed.

Lemma lookup_written_other m dk text w key :
  key ≠ dk → (∀ i, key ≠ part_key dk i) → written m dk text w !! key = w !! key.
Proof.
  intros Hne Hp. unfold written. destruct (1 <? _).
  - rewrite lookup_insert_ne by done. by apply lookup_put_parts_out.
  - by rewrite lookup_insert_ne.
Qed.

(** The text that [set] leaves under the entry key, which is the
    serialized value or the count of its chunks, is no run of digits above
    2^53 when the value is not an integer above 2^53: a text has fewer than
    2^53 characters, and so fewer chunks. *)
Lemma written_countable m dk text (w : gmap string string) :
  0 < m →
  countable text = true →
  (N.of_nat (String.length text) < max_exact)%N →
  countable (default "" (written m dk text w !! dk)) = true.
Proof.
  intros Hm Hc Hlen. unfold written.
  destruct (1 <? _); rewrite lookup_insert_eq; cbn [default from_option id];
    [|done].
  unfold countable. rewrite toString_digits_only, digits_value_toString.
  cbn [negb orb]. apply N.leb_le.
  pose proof (ceil_div_le (String.length text) m Hm). lia.
Qed.

(** *** Reassembly *)

Lemma chunk_substring m text i : chunk m text i = String.substring (i * m) m text.
Proof. apply substring_chunk. Qed.

Lemma chunk_length m text i : String.length (chunk m text i) ≤ m.
Proof. rewrite chunk_substring. apply substring_length_le. Qed.

(** The first [n] chunks, concatenated, are the first [n * m] characters. *)
Lemma chunks_prefix m text n :
  foldl (λ acc i, acc +:+ chunk m text i) "" (seq 0 n)
  = String.substring 0 (n * m) text.
Proof.
  induction n as [|n IH].
  - cbn. by destruct text.
  - rewrite seq_S, foldl_app, IH. cbn [foldl Nat.add].
    rewrite chunk_substring, substring_split. f_equal. lia.
Qed.

Lemma chunks_whole m text :
  0 < m →
  foldl (λ acc i, acc +:+ chunk m text i) ""
    (seq 0 (ceil_div (String.length text) m)) = text.
Proof.
  intros Hm. rewrite chunks_prefix. apply substring_whole.
  by apply ceil_div_upper.
Qed.

Lemma gather_parts (w : gmap string string) dk (f : nat → string) n :
  (∀ i, i < n → w !! part_key dk i = Some (f i)) →
  gather w dk n = foldl (λ acc i, acc +:+ f i) "" (seq 0 n).
Proof.
  unfold gather. induction n as [|n IH]; [done|]. intros H.
  rewrite seq_S, !foldl_app, IH by (intros; apply H; lia).
  cbn [foldl Nat.add]. rewrite H by lia. cbn.
  destruct (f n); [by rewrite app_nil_r|done].
Qed.

(** ** The index entry read back

    [JSON.parse] inverts [JSON.stringify] on arrays of strings: what
    [_setPointers] persists is what a later [_getPointers] loads. *)

Module JSONFacts.
Import JSON.

Lemma parse_chars_escape (c : ascii) (s : string) :
  parse_chars (escape c +:+ s)
  = '(r, rest) ← parse_chars s; Some (String c r, rest).
Proof. by destruct c as [[] [] [] [] [] [] [] []]. Qed.

Lemma parse_chars_escape_all (s rest : string) :
  parse_chars (escape_all s +:+ String dquote rest) = Some (s, rest).
Proof.
  induction s as [|c s IH]; [done|].
  cbn [escape_all]. by rewrite app_assoc, parse_chars_escape, IH.
Qed.

Lemma quote_app (s rest : string) :
  quote s +:+ rest = String dquote (escape_all s +:+ String dquote rest).
Proof. unfold quote. by rewrite app_cons, app_assoc. Qed.

Lemma parse_value_quote (fuel : nat) (s rest : string) :
  parse_value (S fuel) (quote s +:+ rest) = Some (Str s, rest).
Proof.
  rewrite quote_app. cbn -[parse_chars].
  by rewrite parse_chars_escape_all.
Qed.

Lemma join_cons (sep x y : string) (l : list string) :
  join sep (x :: y :: l) = x +:+ sep +:+ join sep (y :: l).
Proof. done. Qed.

Lemma skip_ws_dquote (s : string) : skip_ws (String dquote s) = String dquote s.
Proof. done. Qed.

Lemma skip_ws_comma (s : string) : skip_ws (String "," s) = String "," s.
Proof. done. Qed.

Lemma skip_ws_bracket (s : string) : skip_ws (String "]" s) = String "]" s.
Proof. done. Qed.

Lemma strip_char (c : ascii) (s : string) : strip (String c "") (String c s) = Some s.
Proof. cbn. by rewrite Ascii.eqb_refl. Qed.

Lemma strip_char_ne (a b : ascii) (s : string) :
  a ≠ b → strip (String a "") (String b s) = None.
Proof. intros H. cbn. by apply Ascii.eqb_neq in H as ->. Qed.

Lemma parse_elements_S (fuel : nat) (s : string) :
  parse_elements (S fuel) s
  = '(v, r) ← parse_value fuel s;
    match strip "," (skip_ws r), strip "]" (skip_ws r) with
    | Some r', _ =>
        '(l, r'') ← parse_elements fuel (skip_ws r'); Some (v :: l, r'')
    | _, Some r' => Some ([v], r')
    | _, _ => None
    end.
Proof. done. Qed.

Lemma join_quotes_head (x : string) (l : list string) (r : string) :
  ∃ t, join "," (quote <$> x :: l) +:+ r = String dquote t.
Proof.
  destruct l as [|y l].
  - eexists. cbn [fmap list_fmap join]. by rewrite quote_app.
  - eexists. rewrite !fmap_cons, join_cons, app_assoc. by rewrite quote_app.
Qed.

Lemma parse_elements_quotes (x : string) (l : list string) (fuel : nat)
    (rest : string) :
  S (length l) < fuel →
  parse_elements fuel (join "," (quote <$> x :: l) +:+ String "]" rest)
  = Some (Str <$> x :: l, rest).
Proof.
  revert x fuel. induction l as [|y l IH]; intros x fuel Hf.
  - destruct fuel as [|[|fuel]]; [cbn in Hf; lia..|].
    cbn [fmap list_fmap join]. rewrite parse_elements_S.
    rewrite parse_value_quote. cbn [mbind option_bind].
    rewrite skip_ws_bracket, strip_char, strip_char_ne; done.
  - destruct fuel as [|[|fuel]]; [cbn in Hf; lia..|].
    rewrite (fmap_cons quote x), (fmap_cons quote y), join_cons, !app_assoc.
    rewrite <- (fmap_cons quote y).
    rewrite parse_elements_S, parse_value_quote. cbn [mbind option_bind].
    change ("," +:+ ?X) with (String "," X).
    rewrite skip_ws_comma, strip_char.
    destruct (join_quotes_head y l (String "]" rest)) as [t Ht].
    rewrite Ht, skip_ws_dquote, <- Ht.
    rewrite IH by (cbn in *; lia). done.
Qed.

Lemma join_quotes_length (l : list string) :
  length l ≤ String.length (join "," (quote <$> l)).
Proof.
  induction l as [|x l IH]; [done|].
  destruct l as [|y l].
  { cbn [fmap list_fmap join length]. unfold quote. cbn [String.length]. lia. }
  rewrite (fmap_cons quote x), (fmap_cons quote y), join_cons.
  rewrite <- (fmap_cons quote y).
  unfold quote at 1. rewrite !app_cons. cbn [String.length length] in *.
  rewrite !app_length. cbn [String.length]. rewrite app_nil_l. lia.
Qed.

Lemma parse_value_array (fuel : nat) (s : string) :
  strip "]" (skip_ws s) = None →
  parse_value (S fuel) (String "[" s)
  = '(l, r') ← parse_elements fuel (skip_ws s); Some (Arr l, r').
Proof. intros H. cbn [parse_value]. by rewrite H. Qed.

Theorem parse_stringify_strings (l : list string) :
  parse (stringify (Arr (Str <$> l))) = Some (Arr (Str <$> l)).
Proof.
  cbn [stringify]. rewrite <- list_fmap_compose.
  change (stringify ∘ Str) with quote.
  unfold parse.
  destruct l as [|x l].
  { done. }
  pose proof (join_quotes_length (x :: l)) as Hlen.
  destruct (join_quotes_head x l "]") as [t Ht].
  change ("[" +:+ join "," (quote <$> x :: l) +:+ "]")
    with (String "[" (join "," (quote <$> x :: l) +:+ "]")).
  cbn [String.length]. rewrite app_length. cbn [String.length].
  change (skip_ws (String "[" ?X)) with (String "[" X).
  rewrite parse_value_array.
  2:{ rewrite Ht, skip_ws_dquote. by apply strip_char_ne. }
  rewrite Ht, skip_ws_dquote, <- Ht.
  rewrite parse_elements_quotes by (cbn [length] in *; lia).
  done.
Qed.

End JSONFacts.

Lemma as_strings_strings (l : list string) :
  as_strings (JSON.Arr (JSON.Str <$> l)) = Some l.
Proof.
  cbn. induction l as [|x l IH]; [done|].
  cbn. by rewrite IH.
Qed.

Lemma stored_pointers_insert (w : gmap string string) (pk : string) (l : list string) :
  stored_pointers (<[pk := stringify_pointers l]> w) pk = Ok l.
Proof.
  unfold stored_pointers. rewrite lookup_insert_eq. cbn [from_option id].
  unfold stringify_pointers.
  by rewrite JSONFacts.parse_stringify_strings, as_strings_strings.
Qed.

Lemma stored_pointers_eq (w w' : gmap string string) (pk : string) :
  w' !! pk = w !! pk → stored_pointers w' pk = stored_pointers w pk.
Proof. unfold stored_pointers. by intros ->. Qed.

(** * The claims of the specification *)

(** ** Writing a value: whole, or in chunks *)

(** What [write] leaves in the dynamic properties, for any positive chunk
    size [m]. *)
Lemma write_spec (m : nat) (st : State) (dk text : string) :
  0 < m →
  let n := ceil_div (String.length text) m in
  let w := world st in
  ∃ w', write m dk text st = (Ok (), with_world (λ _, w') st) ∧
    (String.length text ≤ m → w' = <[dk := text]> w) ∧
    (m < String.length text →
       (n - 1) * m < String.length text ≤ n * m ∧
       w' !! dk = Some (toString n) ∧
       (∀ i, i < n →
          w' !! part_key dk i = Some (String.substring (i * m) m text) ∧
          String.length (String.substring (i * m) m text) ≤ m ∧
          String.substring 0 (i * m) text
            +:+ String.substring (i * m) m text
            +:+ String.substring (i * m + m) (String.length text) text = text) ∧
       foldl (λ acc i, acc +:+ String.substring (i * m) m text) "" (seq 0 n)
         = text ∧
       (∀ key, key ≠ dk → (∀ i, i < n → key ≠ part_key dk i) →
          w' !! key = w !! key)).
Proof.
  intros Hm n w. exists (written m dk text w). split; [apply write_run|].
  split; [by apply written_direct|].
  intros Hlen. rewrite written_chunked by done. fold n.
  split.
  { split; [apply ceil_div_lower; lia|by apply ceil_div_upper]. }
  split; [by rewrite lookup_insert_eq|].
  split.
  { intros i Hi.
    rewrite lookup_insert_ne by (intros ?; by eapply part_key_ne_base).
    rewrite lookup_put_parts_in, chunk_substring by done.
    split; [done|]. split; [apply substring_length_le|apply substring_contiguous]. }
  split.
  { etrans; [|apply (chunks_whole m text Hm)]. fold n.
    generalize "". induction (seq 0 n) as [|i l IH]; intros acc; [done|].
    cbn [foldl]. by rewrite chunk_substring, IH. }
  intros key Hk Hp.
  rewrite lookup_insert_ne by done. by apply lookup_put_parts_out.
Qed.

(** C2. A text longer than [maxChunkSize] is stored as
    [n = ceil(length / maxChunkSize)] parts under the keys
    [entryKey_part0 .. entryKey_part(n-1)], the [i]-th part being the [i]-th
    run of [maxChunkSize] characters of the text (the last one may be
    shorter), so that the parts are contiguous, do not overlap and make up
    the text in order; the decimal numeral of [n] is stored under the entry
    key, and nothing else is written.  A text of at most [maxChunkSize]
    characters is stored under the entry key, and nothing else is
    written. *)
Theorem C2_write_chunks (st : State) (dk text : string) :
  let n := ceil_div (String.length text) maxChunkSize in
  let w := world st in
  ∃ w', write maxChunkSize dk text st = (Ok (), with_world (λ _, w') st) ∧
    (String.length text ≤ maxChunkSize → w' = <[dk := text]> w) ∧
    (maxChunkSize < String.length text →
       (n - 1) * maxChunkSize < String.length text ≤ n * maxChunkSize ∧
       w' !! dk = Some (toString n) ∧
       (∀ i, i < n →
          w' !! part_key dk i
            = Some (String.substring (i * maxChunkSize) maxChunkSize text) ∧
          String.length (String.substring (i * maxChunkSize) maxChunkSize text)
            ≤ maxChunkSize ∧
          String.substring 0 (i * maxChunkSize) text
            +:+ String.substring (i * maxChunkSize) maxChunkSize text
            +:+ String.substring (i * maxChunkSize + maxChunkSize)
                  (String.length text) text = text) ∧
       foldl (λ acc i, acc +:+ String.substring (i * maxChunkSize) maxChunkSize text)
         "" (seq 0 n) = text ∧
       (∀ key, key ≠ dk → (∀ i, i < n → key ≠ part_key dk i) →
          w' !! key = w !! key)).
Proof. apply write_spec, maxChunkSize_pos. Qed.

Lemma C2_write_chunks_witness :
  ∃ w', write maxChunkSize "db/k" (JSON.stringify (big "a")) empty_state
          = (Ok (), with_world (λ _, w') empty_state) ∧
        w' !! "db/k" = Some "2" ∧
        w' !! "db/k_part1" = Some (String "a" (String dquote "")).
Proof.
  assert (maxChunkSize < String.length (JSON.stringify (big "a"))) as Hlong.
  { apply Nat.ltb_lt. vm_compute. reflexivity. }
  assert (1 < ceil_div (String.length (JSON.stringify (big "a"))) maxChunkSize)
    as Hone.
  { apply Nat.ltb_lt. vm_compute. reflexivity. }
  destruct (C2_write_chunks empty_state "db/k" (JSON.stringify (big "a")))
    as (w' & Hrun & _ & Hchunked).
  exists w'. split; [exact Hrun|].
  destruct (Hchunked Hlong) as (_ & Hn & Hparts & _).
  destruct (Hparts 1 Hone) as (H1 & _).
  split.
  - etrans; [exact Hn|]. vm_compute. reflexivity.
  - etrans; [exact H1|]. vm_compute. reflexivity.
Defined.

(** The scenario of the specification, with a chunk size of 10: the 17
    characters are stored as two parts. *)
Example write_17_by_10 :
  map_to_list (world ((write 10 "db/big" "0123456789ABCDEFG" empty_state).2))
  = [("db/big_part1", "ABCDEFG"); ("db/big_part0", "0123456789"); ("db/big", "2")].
Proof. vm_compute. reflexivity. Qed.

(** ** Construction *)





(** ** Absent and empty *)

(** C9 as stated fails on a property that exists with an empty text: [get]
    reports it as absent. *)
Lemma C9_counterexample :
  let st := mkState {[ "db/k" := "" ]} [] (mkDatabase "db" "db/pointers" None) in
  world st !! entry_key "db" "k" = Some "" ∧ (get "k" st).1 = Ok None.
Proof. split; vm_compute; reflexivity. Qed.

(** C9, amended.  [get] returns [undefined] exactly when the property at
    the entry key is missing or holds the empty text; it changes nothing. *)
Theorem C9_get_absent (st : State) (key : string) :
  let dk := entry_key (name (this st)) key in
  ((get key st).1 = Ok None ↔ world st !! dk = None ∨ world st !! dk = Some "")
  ∧ (get key st).2 = st.
Proof.
  cbn zeta. rewrite get_run. cbn [fst snd]. split; [|done].
  unfold read_value.
  destruct (world st !! entry_key (name (this st)) key) as [[|c text]|] eqn:E;
    cbn [truthy negb].
  - split; [by right|done].
  - split; [|by intros [|]].
    cbn [default from_option id].
    destruct (digits_only _); unfold parsed; by destruct (JSON.parse _).
  - split; [by left|done].
Qed.

Lemma C9_get_absent_witness :
  (get "k" empty_state).1 = Ok None.
Proof.
  apply (proj2 (proj1 (C9_get_absent empty_state "k"))). left. reflexivity.
Defined.

(** ** The pointer list under [delete] and [set] *)

Lemma elem_of_without (x dk : string) (l : list string) :
  x ∈ without dk l ↔ x ∈ l ∧ x ≠ dk.
Proof.
  unfold without. rewrite !list_elem_of_In, filter_In, bool_decide_eq_true.
  done.
Qed.

Lemma NoDup_without (dk : string) (l : list string) :
  NoDup l → NoDup (without dk l).
Proof.
  induction 1 as [|x l Hx Hl IH]; [constructor|].
  unfold without in *. cbn. case_bool_decide; [|done].
  apply NoDup_cons. split; [|done].
  intros [? _]%elem_of_without. done.
Qed.

Lemma without_not_elem (dk : string) (l : list string) :
  dk ∉ l → without dk l = l.
Proof.
  intros H. unfold without. induction l as [|x l IH]; [done|].
  cbn. apply not_elem_of_cons in H as [Hx Hl].
  rewrite bool_decide_true by done. by rewrite IH.
Qed.

Lemma deleted_Pointers dk l st : Pointers (deleted dk l st) (without dk l).
Proof.
  unfold Pointers, deleted. cbn.
  by rewrite lookup_app_r, Nat.sub_diag.
Qed.

Lemma added_Pointers m dk text l st :
  Pointers st l → Pointers (added m dk text l st) (l ++ [dk]).
Proof.
  intros HP. unfold Pointers, added. cbn. rewrite loaded_cache.
  by rewrite list_lookup_alter_eq, loaded_array.
Qed.

Lemma cleared_Pointers l st : Pointers (cleared l st) [].
Proof.
  unfold Pointers, cleared. cbn.
  by rewrite lookup_app_r, Nat.sub_diag.
Qed.

Example rc1_constructed : constructor "rc1" ∅ = Ok rc1.
Proof. reflexivity. Qed.

(** For a key of the pointer list whose entry holds no run of digits
    above 2^53, [set] returns [true], and it has first run [delete]: the old
    entry and the chunk parts counted by its marker are removed, the pointer
    list loses the entry key and is persisted, and only then is the new
    value written.  [set] returns [false] when the entry key is not in the
    pointer list. *)
Lemma set_reports_existing (st : State) (l : list string)
    (key : string) (value : JSON.t) :
  Pointers st l →
  let dk := entry_key (name (this st)) key in
  let meta := default "" (world st !! dk) in
  (dk ∈ l → countable meta = true →
     ∃ st1, delete key st = (Ok (), st1)
       ∧ world st1 = <[pointerKey (this st) := stringify_pointers (without dk l)]>
                       (erased dk (world st))
       ∧ erased dk (world st) !! dk = None
       ∧ (digits_only meta = true →
            ∀ i, i < parseInt meta → erased dk (world st) !! part_key dk i = None)
       ∧ Pointers st1 (without dk l)
       ∧ (dk ∉ without dk l)
       ∧ set key value st
         = (Ok true, with_world (written maxChunkSize dk (JSON.stringify value)) st1))
  ∧ (dk ∉ l → (set key value st).1 = Ok false).
Proof.
  intros HP dk meta. split.
  - intros Hin Hc. exists (deleted dk l st).
    split; [by apply delete_present|]. split; [done|].
    split; [apply lookup_erased_base|].
    split; [intros D i Hi; by apply lookup_erased_part|].
    split; [apply deleted_Pointers|].
    split; [rewrite elem_of_without; by intros [_ ?]|].
    by apply set_present.
  - intros Hin. unfold set. by erewrite set_absent.
Qed.

(** On a key of the pointer list whose entry holds a run of digits above
    [2^53 + 1], neither [set] nor [delete] returns. *)
Lemma listed_key_never_returns (st : State) (l : list string)
    (key : string) (value : JSON.t) :
  Pointers st l →
  let dk := entry_key (name (this st)) key in
  let meta := default "" (world st !! dk) in
  dk ∈ l →
  digits_only meta = true →
  (max_exact + 1 < digits_value meta)%N →
  (set key value st).1 = Diverges ∧ (delete key st).1 = Diverges.
Proof.
  intros HP dk meta Hin D Hv.
  assert (endless meta = true) as E.
  { unfold endless, turns. rewrite D.
    destruct (N.leb_spec (digits_value meta) max_exact) as [?|_]; [lia|].
    destruct (N.eqb_spec (digits_value meta) (max_exact + 1)) as [?|_]; [lia|].
    done. }
  unfold set. rewrite (set_cases _ st l), (delete_cases st l) by done.
  fold dk meta. by rewrite E.
Qed.

(** C8, on a key that holds the integer [10^16].  The first [set] stores
    the digits of [10^16] whole and puts the entry key in the pointer list.
    The second [set] finds the key there and calls [delete], which takes the
    digits for a count of chunk parts: the counter of its loop stays at
    [2^53], below the count, and the call does not return [true]: it does
    not return.  Nor do [delete] and [clear] on this database. *)
Theorem C8_overwrite_never_returns :
  let st := (set "k" (JSON.Num 10000000000000000) rc1).2 in
  (set "k" (JSON.Num 10000000000000000) rc1).1 = Ok false
  ∧ Pointers st ["rc1/k"]
  ∧ world st !! "rc1/k" = Some "10000000000000000"
  ∧ (set "k" (JSON.Num 1) st).1 = Diverges
  ∧ (delete "k" st).1 = Diverges
  ∧ (clear st).1 = Diverges.
Proof. split_and!; vm_compute; reflexivity. Qed.

(** ** Reading back what [set] stored *)

Lemma gather_ext (w w' : gmap string string) dk n :
  (∀ i, i < n → w' !! part_key dk i = w !! part_key dk i) →
  gather w' dk n = gather w dk n.
Proof.
  unfold gather. induction n as [|n IH]; [done|]. intros H.
  rewrite seq_S, !foldl_app, IH by (intros; apply H; lia).
  cbn [foldl Nat.add]. by rewrite H by lia.
Qed.

Lemma read_value_ext (w w' : gmap string string) dk :
  w' !! dk = w !! dk →
  (∀ i, w' !! part_key dk i = w !! part_key dk i) →
  read_value w' dk = read_value w dk.
Proof.
  intros Hdk Hp. unfold read_value. rewrite Hdk.
  destruct (negb _); [done|]. destruct (digits_only _); [|done].
  f_equal. by apply gather_ext.
Qed.

Lemma read_value_written m dk text w value :
  0 < m →
  JSON.parse text = Some value →
  digits_only text = false ∨ m < String.length text →
  read_value (written m dk text w) dk = Ok (Some value).
Proof.
  intros Hm Hparse Hcase.
  assert (truthy (Some text) = true) as Htext by by destruct text.
  destruct (decide (m < String.length text)) as [Hlong|Hshort].
  - rewrite written_chunked by done.
    set (n := ceil_div (String.length text) m).
    unfold read_value. rewrite lookup_insert_eq.
    rewrite digits_only_truthy by apply toString_digits_only.
    cbn [negb default from_option id].
    rewrite toString_digits_only, parseInt_toString.
    rewrite (gather_parts _ dk (chunk m text) n).
    + subst n. rewrite chunks_whole by done. unfold parsed. by rewrite Hparse.
    + intros i Hi.
      rewrite lookup_insert_ne by (intros ?; by eapply part_key_ne_base).
      by apply lookup_put_parts_in.
  - destruct Hcase as [Hd|?]; [|lia].
    rewrite written_direct by lia.
    unfold read_value. rewrite lookup_insert_eq, Htext.
    cbn [negb default from_option id]. rewrite Hd. unfold parsed.
    by rewrite Hparse.
Qed.

(** A value comes back from [get] as it was given to [set] when its key is
    not [pointers] and its serialization, if it fits in one chunk, is not a
    run of digits; for a key of the pointer list, the call of [set] has to
    return: the entry that it replaces holds no run of digits above 2^53. *)
Lemma set_get_roundtrip (m : nat) (st : State) (l : list string)
    (key : string) (value : JSON.t) :
  0 < m →
  Pointers st l →
  pointerKey (this st) = name (this st) +:+ "/pointers" →
  key ≠ "pointers" →
  (entry_key (name (this st)) key ∈ l →
   countable (default "" (world st !! entry_key (name (this st)) key)) = true) →
  JSON.parse (JSON.stringify value) = Some value →
  digits_only (JSON.stringify value) = false
    ∨ m < String.length (JSON.stringify value) →
  (get key (set_with m key value st).2).1 = Ok (Some value).
Proof.
  intros Hm HP Hpk Hkey Hc Hparse Hcase.
  set (dk := entry_key (name (this st)) key).
  destruct (decide (dk ∈ l)) as [Hin|Hin].
  - rewrite (set_present m st l) by auto. cbn [snd].
    rewrite get_run. cbn [fst]. fold dk.
    unfold with_world, deleted; cbn [world this name].
    by apply read_value_written.
  - rewrite (set_absent m st l) by done. cbn [snd].
    rewrite get_run. cbn [fst]. fold dk.
    unfold added; cbn [world this]. rewrite loaded_name. fold dk.
    etrans;
      [|by apply (read_value_written m dk (JSON.stringify value) (world st))].
    apply read_value_ext.
    + rewrite lookup_insert_ne; [done|].
      rewrite Hpk. intros E. symmetry in E. by apply entry_key_pointers in E.
    + intros i. rewrite lookup_insert_ne; [done|].
      rewrite Hpk. intros E. symmetry in E. by apply part_key_ne_pointers in E.
Qed.

(** C1, on the value [5].  Its serialization is the digit [5], which [get]
    takes for a count of chunks: it gathers five missing parts into the
    empty text, and [JSON.parse] throws on it. *)
Theorem C1_digit_value_unreadable :
  let st := (set "n" (JSON.Num 5) rc1).2 in
  JSON.parse (JSON.stringify (JSON.Num 5)) = Some (JSON.Num 5)
  ∧ world st !! "rc1/n" = Some "5"
  ∧ (get "n" st).1 = Throw SyntaxError.
Proof. split_and!; vm_compute; reflexivity. Qed.

(** The same value under the key [pointers]: its entry key is the index
    key, and [get] returns the pointer list. *)
Example value_under_pointers_key :
  (get "pointers" (set "pointers" (JSON.Num 7) rc1).2).1
  = Ok (Some (JSON.Arr [JSON.Str "rc1/pointers"])).
Proof. vm_compute. reflexivity. Qed.

(** The scenario of the specification: the first [get] returns the value
    that was set. *)
Example rc1_get_pos : (get "pos" rc1_1).1 = Ok (Some (pos 1 2 3)).
Proof.
  apply (set_get_roundtrip maxChunkSize rc1 []); try done.
  - apply maxChunkSize_pos.
  - by left.
Qed.

(** ** Overwriting a key *)

(** After [set] on a key that was in the pointer list, the list is the old
    one without the key: the test that guards the [push] reads the array
    that [set] obtained before [delete] replaced the cached one. *)
Lemma overwrite_unlinks (m : nat) (st : State) (l : list string)
    (key : string) (value : JSON.t) :
  Pointers st l →
  entry_key (name (this st)) key ∈ l →
  countable (default "" (world st !! entry_key (name (this st)) key)) = true →
  Pointers (set_with m key value st).2
    (without (entry_key (name (this st)) key) l).
Proof.
  intros HP Hin Hc. rewrite (set_present m st l) by done. cbn [snd].
  apply deleted_Pointers.
Qed.

(** C10, on the scenario of the specification.  After the second [set] of
    the key [pos] the pointer list is empty: the entry is stored, but
    [entries] does not emit it. *)
Theorem C10_overwrite_unlinks_key :
  Pointers rc1_1 ["rc1/pos"]
  ∧ (set "pos" (pos 9 9 9) rc1_1).1 = Ok true
  ∧ Pointers rc1_2 []
  ∧ world rc1_2 !! "rc1/pointers" = Some "[]"
  ∧ world rc1_2 !! "rc1/pos" = Some (JSON.stringify (pos 9 9 9))
  ∧ (entries rc1_2).1 = Ok [].
Proof. split_and!; vm_compute; reflexivity. Qed.

(** A property holds a given text when the comparison evaluates to [true]. *)
Lemma holds_text (o : option string) (text : string) :
  match o with Some t => String.eqb t text | None => false end = true →
  o = Some text.
Proof. destruct o as [t|]; [|done]. by intros ->%String.eqb_eq. Qed.

Example empty_db_constructed : constructor "db" ∅ = Ok empty_db.
Proof. reflexivity. Qed.

(** C3, on three calls.  The second [set] of a large value unlinks the key
    (see [overwrite_unlinks]); the third [set], of a small value, then
    finds no pointer, skips [delete], and leaves the two parts of the
    second value in place. *)
Theorem C3_parts_survive_overwrite :
  Pointers db_1 [entry_key "db" "k"]
  ∧ world db_2 !! "db/k" = Some "2"
  ∧ Pointers db_2 []
  ∧ String.length (JSON.stringify (JSON.Str "small")) ≤ maxChunkSize
  ∧ (set "k" (JSON.Str "small") db_2).1 = Ok false
  ∧ world db_3 !! "db/k" = Some (JSON.stringify (JSON.Str "small"))
  ∧ world db_3 !! part_key "db/k" 0 = Some (String dquote (repeat_char "b" 29999))
  ∧ world db_3 !! part_key "db/k" 1 = Some (String "b" (String dquote "")).
Proof.
  split_and!.
  - vm_compute. reflexivity.
  - apply holds_text. vm_compute. reflexivity.
  - vm_compute. reflexivity.
  - apply Nat.leb_le. vm_compute. reflexivity.
  - vm_compute. reflexivity.
  - apply holds_text. vm_compute. reflexivity.
  - apply holds_text. vm_compute. reflexivity.
  - apply holds_text. vm_compute. reflexivity.
Qed.

(** ** The pointer list has no duplicates *)

Lemma Index_Pointers st l : Index st l → Pointers st l.
Proof.
  intros (_ & Hs & Hc). unfold Pointers.
  destruct (cachedPointers (this st)) as [r|]; [by apply Hc|done].
Qed.

Lemma Index_intro st l :
  pointerKey (this st) = name (this st) +:+ "/pointers" →
  stored_pointers (world st) (pointerKey (this st)) = Ok l →
  is_Some (cachedPointers (this st)) →
  Pointers st l →
  Index st l.
Proof.
  intros Hpk Hs [r Hr] HP. split; [done|]. split; [done|].
  intros r' Hr'. unfold Pointers in HP. rewrite Hr' in HP. done.
Qed.

Lemma pointers_key_untouched_by_write m nm key text (w : gmap string string) :
  key ≠ "pointers" →
  written m (entry_key nm key) text w !! (nm +:+ "/pointers")
  = w !! (nm +:+ "/pointers").
Proof.
  intros Hkey. apply lookup_written_other.
  - intros E. symmetry in E. by apply entry_key_pointers in E.
  - intros i E. symmetry in E. by apply part_key_ne_pointers in E.
Qed.

Ltac fields :=
  unfold with_world, deleted, added, cleared; cbv zeta;
  cbn [world arrays this name pointerKey cachedPointers fst snd];
  rewrite ?loaded_name, ?loaded_pointerKey, ?loaded_world, ?loaded_cache.

(** A call on a key other than [pointers] does not return, or it returns
    normally and keeps the pointer list of the index and of the cache free
    of duplicates. *)
Lemma perform_Index (op : operation) (st : State) (l : list string) :
  Index st l → NoDup l → key_of op ≠ Some "pointers" →
  (perform op st).1 = Diverges
  ∨ (perform op st).1 = Ok ()
    ∧ ∃ l', Index (perform op st).2 l' ∧ NoDup l'.
Proof.
  intros HI Hnd Hkey. pose proof (Index_Pointers st l HI) as HP.
  destruct HI as (Hpk & Hs & Hc).
  destruct op as [key value|key|]; cbn [perform key_of] in *.
  - assert (key ≠ "pointers") as Hk by congruence.
    unfold bind, set.
    destruct (decide (entry_key (name (this st)) key ∈ l)) as [Hin|Hin].
    + rewrite (set_cases _ st l) by done.
      destruct (endless _); [by left|right]. unfold ret. cbn [fst snd].
      split; [done|].
      eexists. split; [|by apply NoDup_without].
      apply Index_intro; fields; try done.
      * rewrite Hpk.
        erewrite stored_pointers_eq
          by (by apply pointers_key_untouched_by_write).
        apply stored_pointers_insert.
      * apply (deleted_Pointers _ l st).
    + right. rewrite (set_absent _ st l) by done. unfold ret. cbn [fst snd].
      split; [done|].
      exists (l ++ [entry_key (name (this st)) key]). split.
      * apply Index_intro; fields.
        -- done.
        -- apply stored_pointers_insert.
        -- by eexists.
        -- by apply added_Pointers.
      * apply NoDup_app. split; [done|]. split; [|apply NoDup_singleton].
        intros x Hx ->%list_elem_of_singleton. done.
  - destruct (decide (entry_key (name (this st)) key ∈ l)) as [Hin|Hin].
    + rewrite (delete_cases st l) by done.
      destruct (endless _); [by left|right]. cbn [fst snd]. split; [done|].
      eexists. split; [|by apply NoDup_without].
      apply Index_intro; fields; try done.
      * apply stored_pointers_insert.
      * apply (deleted_Pointers _ l st).
    + right. rewrite (delete_absent st l) by done. cbn [fst snd]. split; [done|].
      exists l. split; [|done].
      apply Index_intro; fields.
      * done.
      * done.
      * by eexists.
      * by apply loaded_Pointers.
  - destruct (clear_cases st l HP) as ([Hd|Hr] & _); [by left|right].
    rewrite Hr. cbn [fst snd]. split; [done|].
    exists []. split; [|constructor].
    apply Index_intro; fields; try done.
    + apply stored_pointers_insert.
    + apply (cleared_Pointers l st).
Qed.

(** Starting from a pointer list without duplicates, held by the index
    entry and by the cache if there is one, a sequence of [set], [delete]
    and [clear] on keys other than [pointers] throws no exception; when
    every call returns, it leaves a pointer list without duplicates, which
    is both the cached list and the list held by the index entry. *)
Lemma no_duplicate_pointers (ops : list operation) (st : State)
    (l : list string) :
  Index st l → NoDup l →
  Forall (λ op, key_of op ≠ Some "pointers") ops →
  (perform_all ops st).1 = Diverges
  ∨ ∃ st' l', perform_all ops st = (Ok (), st') ∧ Index st' l' ∧ NoDup l'.
Proof.
  intros HI Hnd Hops. revert st l HI Hnd.
  induction Hops as [|op ops Hop Hops IH]; intros st l HI Hnd.
  - right. by exists st, l.
  - cbn [perform_all]. unfold bind.
    destruct (perform_Index op st l HI Hnd Hop) as [Hd|(Hok & l1 & HI1 & Hnd1)].
    + left. destruct (perform op st) as [[[]|e|] st1]; by cbn [fst snd] in *.
    + destruct (perform op st) as [[[]|e|] st1]; cbn [fst snd] in *; [|done..].
      by apply (IH st1 l1).
Qed.

(** C6, on the key [pointers], whose entry key is the index key.  Both
    calls return.  The second [set] rewrites the index with the empty list
    in its [delete], then writes the value over it and, finding the key in
    the array that it holds, does not persist the pointer list again: the
    index entry is left holding the value, here a list in which [x] occurs
    twice, while the cached list is empty. *)
Theorem C6_duplicate_in_index :
  let st1 := (set "pointers" (JSON.Num 0) empty_db).2 in
  let st2 := (set "pointers" (JSON.Arr [JSON.Str "x"; JSON.Str "x"]) st1).2 in
  (set "pointers" (JSON.Num 0) empty_db).1 = Ok false
  ∧ Index st1 ["db/pointers"]
  ∧ NoDup ["db/pointers"]
  ∧ (set "pointers" (JSON.Arr [JSON.Str "x"; JSON.Str "x"]) st1).1 = Ok true
  ∧ Pointers st2 []
  ∧ stored_pointers (world st2) (pointerKey (this st2)) = Ok ["x"; "x"]
  ∧ ¬ NoDup ["x"; "x"].
Proof.
  split_and!.
  - vm_compute. reflexivity.
  - split_and!; [reflexivity|vm_compute; reflexivity|].
    intros r. vm_compute. by intros [= <-].
  - apply NoDup_singleton.
  - vm_compute. reflexivity.
  - vm_compute. reflexivity.
  - vm_compute. reflexivity.
  - intros H. apply NoDup_cons in H as [H _]. apply H, list_elem_of_here.
Qed.

(** ** [delete] *)

(** Under the key [pointers], [delete] removes the index entry and then
    persists the filtered pointer list under the same key: [get] finds the
    empty list there. *)
Example delete_under_pointers_key :
  let st1 := (set "pointers" (JSON.Num 1) empty_db).2 in
  let st2 := (delete "pointers" st1).2 in
  Pointers st1 [entry_key "db" "pointers"]
  ∧ (delete "pointers" st1).1 = Ok ()
  ∧ (get "pointers" st2).1 = Ok (Some (JSON.Arr [])).
Proof. split_and!; vm_compute; reflexivity. Qed.

(** A key that contains a slash is emitted by [entries] as its last
    segment: after [delete] of the key [b], the pointer of the key [a/b]
    still yields a pair with the key [b]. *)
Example entries_last_segment :
  let st1 := (set "a/b" (JSON.Num 1) empty_db).2 in
  let st2 := (set "b" (JSON.Str "x") st1).2 in
  let st3 := (delete "b" st2).2 in
  (entries st3).1 = Ok [("b", None)].
Proof. vm_compute. reflexivity. Qed.

(** For a key other than [pointers] whose entry key is in the pointer
    list and whose entry holds no run of digits above 2^53, [delete]
    returns normally and afterwards: [get] returns [undefined]; the
    pointer list, cached and persisted, is the old one without the entry
    key; the keys of the pairs emitted by [entries] are
    the last segments of the remaining pointers, so the key is not among
    them unless it is the last segment of another pointer; the chunk parts
    counted by the marker of the entry are removed and no part is created,
    so no part remains if none existed beyond that count. *)
Lemma delete_complete (st : State) (l : list string) (key : string) :
  Pointers st l →
  pointerKey (this st) = name (this st) +:+ "/pointers" →
  key ≠ "pointers" →
  let dk := entry_key (name (this st)) key in
  let meta := default "" (world st !! dk) in
  dk ∈ l →
  countable meta = true →
  ∃ st', delete key st = (Ok (), st')
    ∧ (get key st').1 = Ok None
    ∧ Pointers st' (without dk l)
    ∧ stored_pointers (world st') (pointerKey (this st')) = Ok (without dk l)
    ∧ (dk ∉ without dk l)
    ∧ (∀ es, (entries st').1 = Ok es → es.*1 = last_segment <$> without dk l)
    ∧ ((∀ p, p ∈ l → p ≠ dk → last_segment p ≠ key) →
         ∀ es, (entries st').1 = Ok es → key ∉ es.*1)
    ∧ (digits_only meta = true →
         ∀ i, i < parseInt meta → world st' !! part_key dk i = None)
    ∧ (∀ i, world st !! part_key dk i = None → world st' !! part_key dk i = None)
    ∧ ((∀ i, is_Some (world st !! part_key dk i) →
              digits_only meta = true ∧ i < parseInt meta) →
         ∀ i, world st' !! part_key dk i = None).
Proof.
  intros HP Hpk Hkey dk meta Hin Hc.
  assert (dk ≠ pointerKey (this st)) as Hdk.
  { rewrite Hpk. intros E. by apply entry_key_pointers in E. }
  assert (∀ i, part_key dk i ≠ pointerKey (this st)) as Hpart.
  { rewrite Hpk. intros i E. by apply part_key_ne_pointers in E. }
  assert (∀ i, world (deleted dk l st) !! part_key dk i
               = erased dk (world st) !! part_key dk i) as Hw.
  { intros i. fields. by rewrite lookup_insert_ne. }
  assert (∀ es, (entries (deleted dk l st)).1 = Ok es →
                es.*1 = last_segment <$> without dk l) as Hes.
  { intros es. rewrite (entries_run _ _ (deleted_Pointers dk l st)).
    cbn [fst]. apply collect_keys. }
  exists (deleted dk l st). split; [by apply delete_present|].
  split_and!.
  - rewrite get_run. cbn [fst]. fields. fold dk.
    unfold read_value.
    by rewrite lookup_insert_ne, lookup_erased_base by done.
  - apply deleted_Pointers.
  - fields. apply stored_pointers_insert.
  - rewrite elem_of_without. by intros [_ ?].
  - done.
  - intros Hseg es Hentries. rewrite (Hes es Hentries).
    intros (p & Hp & [Hpl Hne]%elem_of_without)%list_elem_of_fmap.
    by apply (Hseg p).
  - intros D i Hi. rewrite Hw. by apply lookup_erased_part.
  - intros i Hi. rewrite Hw.
    destruct (lookup_erased_cases dk (world st) (part_key dk i)) as [->| ->]; done.
  - intros Hcounted i. rewrite Hw.
    destruct (world st !! part_key dk i) as [t|] eqn:E.
    + destruct (Hcounted i) as [D Hi]; [by rewrite E|].
      by apply lookup_erased_part.
    + destruct (lookup_erased_cases dk (world st) (part_key dk i)) as [->| ->]; done.
Qed.

Example chunked_db_parts :
  map_to_list (world chunked_db)
  = [("db/big_part1", String "9" ("ABCDE" +:+ String dquote ""));
     ("db/big_part0", String dquote "012345678");
     ("db/big", "2");
     ("db/pointers", stringify_pointers ["db/big"])].
Proof. vm_compute. reflexivity. Qed.

(** A key stored in two parts is deleted. *)
Example delete_complete_chunked :
  ∃ st', delete "big" chunked_db = (Ok (), st')
    ∧ (get "big" st').1 = Ok None
    ∧ Pointers st' []
    ∧ (∀ es, (entries st').1 = Ok es → "big" ∉ es.*1)
    ∧ world st' !! part_key "db/big" 0 = None
    ∧ world st' !! part_key "db/big" 1 = None.
Proof.
  assert (Pointers chunked_db ["db/big"]) as HP by (vm_compute; reflexivity).
  assert ("big" ≠ "pointers") as Hkey by (intros H; discriminate H).
  assert (entry_key (name (this chunked_db)) "big" ∈ ["db/big"]) as Hin
    by (vm_compute; apply list_elem_of_here).
  destruct (delete_complete chunked_db ["db/big"] "big" HP eq_refl Hkey Hin eq_refl)
    as (st' & Hrun & Hget & HP' & _ & _ & _ & Hentries & Hparts & _).
  exists st'. split_and!.
  - exact Hrun.
  - exact Hget.
  - exact HP'.
  - apply Hentries. intros p Hp Hne. exfalso. apply Hne.
    apply list_elem_of_singleton in Hp. rewrite Hp. vm_compute. reflexivity.
  - apply Hparts; [vm_compute; reflexivity|].
    apply Nat.ltb_lt. vm_compute. reflexivity.
  - apply Hparts; [vm_compute; reflexivity|].
    apply Nat.ltb_lt. vm_compute. reflexivity.
Qed.

(** ** [clear] *)

Lemma swept_cons p l w : swept (p :: l) w = swept l (erased p w).
Proof. done. Qed.

(** The loop of [clear] only removes properties. *)
Lemma lookup_swept_cases (l : list string) (w : gmap string string) key :
  swept l w !! key = None ∨ swept l w !! key = w !! key.
Proof.
  revert w. induction l as [|p l IH]; intros w; [by right|].
  rewrite swept_cons. destruct (IH (erased p w)) as [->| ->]; [by left|].
  apply lookup_erased_cases.
Qed.

(** It removes the base entry of every pointer. *)
Lemma lookup_swept_base (l : list string) (w : gmap string string) p :
  p ∈ l → swept l w !! p = None.
Proof.
  revert w. induction l as [|x l IH]; intros w Hp; [by apply elem_of_nil in Hp|].
  rewrite swept_cons. apply elem_of_cons in Hp as [->|Hp]; [|by apply IH].
  destruct (lookup_swept_cases l (erased x w) x) as [->| ->]; [done|].
  apply lookup_erased_base.
Qed.

(** It removes the parts counted by the marker of a pointer that is not
    itself a part of another pointer. *)
Lemma lookup_swept_part (l : list string) (w : gmap string string) p i :
  p ∈ l →
  (∀ q j, q ∈ l → p ≠ part_key q j) →
  digits_only (default "" (w !! p)) = true →
  countable (default "" (w !! p)) = true →
  i < parseInt (default "" (w !! p)) →
  swept l w !! part_key p i = None.
Proof.
  revert w. induction l as [|x l IH]; intros w Hp Hq D C Hi;
    [by apply elem_of_nil in Hp|].
  rewrite swept_cons.
  destruct (decide (x = p)) as [->|Hne].
  - destruct (lookup_swept_cases l (erased p w) (part_key p i)) as [->| ->];
      [done|]. by apply lookup_erased_part.
  - apply elem_of_cons in Hp as [->|Hp]; [done|].
    assert (erased x w !! p = w !! p) as E.
    { apply lookup_erased_other; [done|]. intros j. apply Hq, list_elem_of_here. }
    apply IH; rewrite ?E; try done.
    intros q j Hql. apply Hq. by apply list_elem_of_further.
Qed.

(** Under the key [pointers] the base entry of the pointer is the index
    entry, which [clear] removes and then writes again. *)
Example clear_under_pointers_key :
  let st1 := (set "pointers" (JSON.Num 1) empty_db).2 in
  let st2 := (clear st1).2 in
  Pointers st1 ["db/pointers"]
  ∧ (clear st1).1 = Ok ()
  ∧ world st2 !! "db/pointers" = Some "[]".
Proof. split_and!; vm_compute; reflexivity. Qed.

(** When no pointer holds a run of digits above 2^53, [clear] returns
    normally and afterwards: the pointer list is empty, in the cache and in
    the index entry; [entries] returns the empty sequence; the base entry
    of every pointer other than the index key is removed; no property other than the index entry is
    created or changed; and, when no pointer is a chunk part of a pointer,
    the chunk parts counted by the marker of every pointer are removed. *)
Lemma clear_empties (st : State) (l : list string) :
  Pointers st l →
  pointerKey (this st) = name (this st) +:+ "/pointers" →
  (∀ p, p ∈ l → countable (default "" (world st !! p)) = true) →
  let pk := pointerKey (this st) in
  ∃ st', clear st = (Ok (), st')
    ∧ Pointers st' []
    ∧ world st' !! pk = Some (stringify_pointers [])
    ∧ stored_pointers (world st') (pointerKey (this st')) = Ok []
    ∧ (entries st').1 = Ok []
    ∧ (∀ p, p ∈ l → p ≠ pk → world st' !! p = None)
    ∧ (∀ key, key ≠ pk →
         world st' !! key = None ∨ world st' !! key = world st !! key)
    ∧ ((∀ p q j, p ∈ l → q ∈ l → p ≠ part_key q j) →
         ∀ p i, p ∈ l →
           digits_only (default "" (world st !! p)) = true →
           i < parseInt (default "" (world st !! p)) →
           world st' !! part_key p i = None).
Proof.
  intros HP Hpk Hc pk.
  exists (cleared l st). split; [by apply clear_run|].
  split_and!.
  - apply cleared_Pointers.
  - fields. apply lookup_insert_eq.
  - fields. apply stored_pointers_insert.
  - by rewrite (entries_run _ _ (cleared_Pointers l st)).
  - intros p Hp Hne. fields. rewrite lookup_insert_ne by done.
    by apply lookup_swept_base.
  - intros key Hne. fields. rewrite lookup_insert_ne by done.
    apply lookup_swept_cases.
  - intros Hparts p i Hp D Hi. fields.
    rewrite lookup_insert_ne
      by (rewrite Hpk; intros E; symmetry in E; by apply part_key_ne_pointers in E).
    apply lookup_swept_part; try done; [|by apply Hc].
    intros q j Hq. by apply Hparts.
Qed.

(** A key that does not end in a digit is not a chunk-part key. *)
Lemma not_part_key (p q : string) (j : nat) :
  ends_with_digit p = false → p ≠ part_key q j.
Proof.
  intros H ->. unfold part_key in H.
  rewrite !ends_with_digit_app, toString_ends_with_digit in H;
    [done|apply toString_nonempty|].
  destruct (toString j) eqn:E; [by apply toString_nonempty in E|done].
Qed.

Example clear_empties_mixed :
  ∃ st', clear mixed_db = (Ok (), st')
    ∧ Pointers st' []
    ∧ (entries st').1 = Ok []
    ∧ world st' !! "db/pos" = None
    ∧ world st' !! "db/big" = None
    ∧ world st' !! part_key "db/big" 0 = None
    ∧ world st' !! part_key "db/big" 1 = None.
Proof.
  assert (Pointers mixed_db ["db/big"; "db/pos"]) as HP
    by (vm_compute; reflexivity).
  assert (∀ p, p ∈ ["db/big"; "db/pos"] →
               countable (default "" (world mixed_db !! p)) = true) as Hc.
  { intros p [->|[->|[]%elem_of_nil]%elem_of_cons]%elem_of_cons;
      vm_compute; reflexivity. }
  destruct (clear_empties mixed_db ["db/big"; "db/pos"] HP eq_refl Hc)
    as (st' & Hrun & HP' & _ & _ & Hentries & Hbase & _ & Hparts).
  assert (∀ p q j, p ∈ ["db/big"; "db/pos"] → q ∈ ["db/big"; "db/pos"] →
                   p ≠ part_key q j) as Hkeys.
  { intros p q j Hp _. apply not_part_key.
    apply elem_of_cons in Hp as [->|Hp]; [vm_compute; reflexivity|].
    apply list_elem_of_singleton in Hp as ->. vm_compute. reflexivity. }
  exists st'. split_and!.
  - exact Hrun.
  - exact HP'.
  - exact Hentries.
  - apply Hbase; [apply list_elem_of_further, list_elem_of_here|].
    intros H; discriminate H.
  - apply Hbase; [apply list_elem_of_here|]. intros H; discriminate H.
  - apply (Hparts Hkeys); [apply list_elem_of_here|vm_compute; reflexivity|].
    apply Nat.ltb_lt. vm_compute. reflexivity.
  - apply (Hparts Hkeys); [apply list_elem_of_here|vm_compute; reflexivity|].
    apply Nat.ltb_lt. vm_compute. reflexivity.
Qed.

(** ** Shrinking a value whose key is still linked *)

(** When the entry key is in the pointer list and the entry holds no run
    of digits above 2^53, [set] of a text that fits in one chunk leaves no
    part of the key, provided the parts present before the call are those
    counted by the marker. *)
Lemma shrink_removes_parts (st : State) (l : list string) (key : string)
    (value : JSON.t) :
  Pointers st l →
  pointerKey (this st) = name (this st) +:+ "/pointers" →
  let dk := entry_key (name (this st)) key in
  let meta := default "" (world st !! dk) in
  dk ∈ l →
  countable meta = true →
  String.length (JSON.stringify value) ≤ maxChunkSize →
  (∀ i, is_Some (world st !! part_key dk i) →
        digits_only meta = true ∧ i < parseInt meta) →
  ∀ i, world (set key value st).2 !! part_key dk i = None.
Proof.
  intros HP Hpk dk meta Hin Hc Hlen Hcounted i.
  unfold set. rewrite (set_present _ st l) by done. fields. fold dk.
  rewrite written_direct by (done || apply maxChunkSize_pos).
  rewrite lookup_insert_ne by (intros E; symmetry in E; by apply part_key_ne_base in E).
  rewrite lookup_insert_ne
    by (rewrite Hpk; intros E; symmetry in E; by apply part_key_ne_pointers in E).
  destruct (world st !! part_key dk i) as [t|] eqn:E.
  - destruct (Hcounted i) as [D Hi]; [by rewrite E|].
    by apply lookup_erased_part.
  - destruct (lookup_erased_cases dk (world st) (part_key dk i)) as [->| ->]; done.
Qed.

(** ** Parts left behind by an overwrite *)

(** C4, on the database [db] after its three calls of [set].  The key [k]
    is in the pointer list and holds a short string; the two parts left by
    the second [set] are not counted by any marker, and [delete] does not
    remove them. *)
Theorem C4_parts_survive_delete :
  let st := (delete "k" db_3).2 in
  Pointers db_3 [entry_key "db" "k"]
  ∧ (delete "k" db_3).1 = Ok ()
  ∧ Pointers st []
  ∧ (get "k" st).1 = Ok None
  ∧ (entries st).1 = Ok []
  ∧ world st !! part_key "db/k" 0 = Some (String dquote (repeat_char "b" 29999))
  ∧ world st !! part_key "db/k" 1 = Some (String "b" (String dquote "")).
Proof.
  split_and!; [vm_compute; reflexivity..| |]; apply holds_text; vm_compute;
    reflexivity.
Qed.

(** C5, on the same database.  [clear] empties the pointer list and removes
    the base entry of the key [k]; the two parts left by the second [set]
    stay in the dynamic properties. *)
Theorem C5_parts_survive_clear :
  let st := (clear db_3).2 in
  Pointers db_3 [entry_key "db" "k"]
  ∧ (clear db_3).1 = Ok ()
  ∧ Pointers st []
  ∧ world st !! "db/pointers" = Some "[]"
  ∧ (entries st).1 = Ok []
  ∧ world st !! "db/k" = None
  ∧ world st !! part_key "db/k" 0 = Some (String dquote (repeat_char "b" 29999))
  ∧ world st !! part_key "db/k" 1 = Some (String "b" (String dquote "")).
Proof.
  split_and!; [vm_compute; reflexivity..| |]; apply holds_text; vm_compute;
    reflexivity.
Qed.

(** * Further properties of the class *)

(** ** More on keys *)

Module MoreKeyFacts.
Import Text TextFacts KeyFacts OptimizedDatabaseV1.

Lemma app_inj_r (a b s : string) : a +:+ s = b +:+ s → a = b.
Proof.
  revert b. induction a as [|x a IH]; intros [|y b] H.
  - done.
  - apply (f_equal String.length) in H.
    rewrite app_nil_l, app_cons in H. cbn in H. rewrite app_length in H. lia.
  - apply (f_equal String.length) in H.
    rewrite app_nil_l, app_cons in H. cbn in H. rewrite app_length in H. lia.
  - rewrite !app_cons in H. injection H as -> H. f_equal. by apply IH.
Qed.

Lemma all_digits_app_r (a : string) (c : ascii) (d : string) :
  is_digit c = false → all_digits (a +:+ String c d) = false.
Proof.
  intros Hc. induction a as [|x a IH].
  - rewrite app_nil_l. cbn. by rewrite Hc.
  - rewrite app_cons. cbn. rewrite IH. apply andb_false_r.
Qed.

Lemma trailing_digits_all (d : string) :
  all_digits d = true → without_trailing_digits d = "".
Proof. destruct d as [|c d]; [done|]. cbn. by intros ->. Qed.

Lemma trailing_digits_app (a : string) (c : ascii) (d : string) :
  is_digit c = false → all_digits d = true →
  without_trailing_digits (a +:+ String c d) = a +:+ String c "".
Proof.
  intros Hc Hd. induction a as [|x a IH].
  - rewrite !app_nil_l. cbn. rewrite Hc. cbn. by rewrite trailing_digits_all.
  - rewrite !app_cons. cbn. rewrite all_digits_app_r by done.
    rewrite andb_false_r. by rewrite IH.
Qed.

Lemma toString_all_digits (i : nat) : all_digits (toString i) = true.
Proof.
  pose proof (toString_digits_only i) as D. by destruct (toString i).
Qed.

(** A chunk-part key determines the entry key and the number of the part. *)
Lemma part_key_inj2 (a b : string) (i j : nat) :
  part_key a i = part_key b j → a = b ∧ i = j.
Proof.
  intros H.
  assert (∀ x n, part_key x n = (x +:+ "_par") +:+ String "t" (toString n)) as E.
  { intros x n. unfold part_key. by rewrite app_assoc. }
  assert (a = b) as ->.
  { apply (f_equal without_trailing_digits) in H.
    rewrite !E, !trailing_digits_app in H by (done || apply toString_all_digits).
    rewrite !app_assoc in H. by apply app_inj_r in H. }
  split; [done|]. by apply (part_key_inj b).
Qed.

(** The part keys of an entry key are the entry keys of the part names. *)
Lemma part_key_entry_key (nm key : string) (i : nat) :
  part_key (entry_key nm key) i = entry_key nm (part_key key i).
Proof. unfold part_key, entry_key. by rewrite !app_assoc. Qed.

Lemma includes_app_false (c : ascii) (a b : string) :
  includes c (a +:+ b) = includes c a || includes c b.
Proof.
  induction a as [|x a IH]; [done|]. rewrite app_cons. cbn.
  destruct (Ascii.eqb x c); [done|apply IH].
Qed.

(** Names without a slash are determined by the keys built on them. *)
Lemma entry_key_name_inj (nm nm' x y : string) :
  includes "/" nm = false → includes "/" nm' = false →
  entry_key nm x = entry_key nm' y → nm = nm'.
Proof.
  unfold entry_key. revert nm'.
  induction nm as [|a nm IH]; intros [|b nm'] H1 H2 H; try done.
  - rewrite app_nil_l, !app_cons in H. injection H as <- _.
    cbn in H2. done.
  - rewrite app_nil_l, !app_cons in H. injection H as -> _.
    cbn in H1. done.
  - rewrite !app_cons in H. injection H as -> H. f_equal.
    cbn in H1, H2. destruct (Ascii.eqb b "/"); [done|]. by apply IH.
Qed.

(** *** Last segments *)

Lemma last_segment_from_entry_key (cur nm key : string) :
  last_segment_from cur (entry_key nm key) = last_segment key.
Proof.
  unfold entry_key. revert cur. induction nm as [|c nm IH]; intros cur.
  - done.
  - rewrite app_cons. cbn. by destruct (Ascii.eqb c "/"); rewrite IH.
Qed.

Lemma last_segment_entry_key (nm key : string) :
  last_segment (entry_key nm key) = last_segment key.
Proof. apply last_segment_from_entry_key. Qed.

Lemma last_segment_from_plain (cur key : string) :
  includes "/" key = false → last_segment_from cur key = String.rev_app cur key.
Proof.
  revert cur. induction key as [|c key IH]; intros cur H; [done|].
  cbn in *. destruct (Ascii.eqb c "/"); [done|]. by rewrite IH.
Qed.

Lemma last_segment_plain (key : string) :
  includes "/" key = false → last_segment key = key.
Proof. apply last_segment_from_plain. Qed.

Lemma includes_rev_app (c : ascii) (cur s : string) :
  includes c (String.rev_app cur s) = includes c cur || includes c s.
Proof.
  revert s. induction cur as [|x cur IH]; intros s; [done|].
  cbn. rewrite IH. cbn. destruct (Ascii.eqb x c); [|done].
  by rewrite orb_true_r.
Qed.

Lemma last_segment_from_no_slash (cur s : string) :
  includes "/" cur = false → includes "/" (last_segment_from cur s) = false.
Proof.
  revert cur. induction s as [|c s IH]; intros cur H.
  - cbn. unfold String.rev. by rewrite includes_rev_app, H.
  - cbn. destruct (Ascii.eqb c "/") eqn:E; apply IH; [done|].
    cbn. by rewrite E.
Qed.

Lemma last_segment_no_slash (s : string) : includes "/" (last_segment s) = false.
Proof. by apply last_segment_from_no_slash. Qed.

(** A key with a slash is not its own last segment. *)
Lemma last_segment_slash (key : string) :
  includes "/" key = true → last_segment key ≠ key.
Proof.
  intros H E. pose proof (last_segment_no_slash key) as N.
  rewrite E in N. congruence.
Qed.

End MoreKeyFacts.

(** ** [JSON.parse] after [JSON.stringify] *)

Module JSONRoundTrip.
Import JSON JSONFacts.


(** *** Numbers *)

Lemma ends_value_no_digit (rest : string) :
  ends_value rest = true → take_digits rest = ("", rest).
Proof.
  destruct rest as [|c r]; [done|]. cbn.
  by destruct c as [[] [] [] [] [] [] [] []].
Qed.

Lemma ends_value_no_fraction (rest : string) :
  ends_value rest = true →
  bool_decide (is_Some (strip "." rest))
  || bool_decide (is_Some (strip "e" rest))
  || bool_decide (is_Some (strip "E" rest)) = false.
Proof.
  destruct rest as [|c r]; [by intros _; vm_compute|].
  cbn [ends_value].
  destruct c as [[] [] [] [] [] [] [] []]; try done; intros _; cbn;
    rewrite !bool_decide_false; try done; by intros [? ?].
Qed.

Lemma take_digits_uint (d : Decimal.uint) (rest : string) :
  ends_value rest = true →
  take_digits (NilEmpty.string_of_uint d +:+ rest)
  = (NilEmpty.string_of_uint d, rest).
Proof.
  intros H. induction d; cbn [NilEmpty.string_of_uint];
    [rewrite app_nil_l; by apply ends_value_no_digit|..];
    rewrite app_cons; cbn [take_digits is_digit]; by rewrite IHd.
Qed.

(** The numeral of a positive number does not begin with a zero. *)
Lemma to_uint_no_leading_zero (p : positive) (d : Decimal.uint) :
  Pos.to_uint p ≠ Decimal.D0 d.
Proof.
  intros E.
  pose proof (DecimalPos.Unsigned.to_of (Pos.to_uint p)) as H.
  rewrite DecimalPos.Unsigned.of_to in H. change (N.to_uint (N.pos p))
    with (Pos.to_uint p) in H.
  rewrite E in H. unfold Decimal.unorm in H.
  destruct (Decimal.nzhead (Decimal.D0 d)) eqn:N; try done.
  - injection H as Hd. subst d. by apply (DecimalPos.Unsigned.to_uint_nonzero p).
  - by apply DecimalFacts.nzhead_nonzero in N.
Qed.

Lemma parse_number_pos (p : positive) (rest : string) :
  ends_value rest = true →
  take_digits (NilZero.string_of_uint (Pos.to_uint p) +:+ rest)
  = (NilZero.string_of_uint (Pos.to_uint p), rest)
  ∧ (1 <? String.length (NilZero.string_of_uint (Pos.to_uint p)))
    && bool_decide (is_Some (strip "0" (NilZero.string_of_uint (Pos.to_uint p))))
    = false
  ∧ (λ d, Z.of_uint d) <$> NilZero.uint_of_string
                              (NilZero.string_of_uint (Pos.to_uint p))
    = Some (Z.pos p)
  ∧ ∃ c r, NilZero.string_of_uint (Pos.to_uint p) = String c r
           ∧ is_digit c = true.
Proof.
  intros H.
  pose proof (DecimalPos.Unsigned.to_uint_nonnil p) as Hnil.
  pose proof (to_uint_no_leading_zero p) as Hzero.
  assert (NilZero.string_of_uint (Pos.to_uint p)
          = NilEmpty.string_of_uint (Pos.to_uint p)) as E
    by by destruct (Pos.to_uint p).
  split_and!.
  - rewrite E. by apply take_digits_uint.
  - apply andb_false_iff. right. apply bool_decide_eq_false.
    rewrite E. destruct (Pos.to_uint p) as [|d| | | | | | | | |]; cbn;
      try (by intros [? ?]). by destruct (Hzero d).
  - rewrite NilZero.usu by done. cbn. unfold Z.of_uint.
    by rewrite DecimalPos.Unsigned.of_to.
  - rewrite E. destruct (Pos.to_uint p); try done; by eexists _, _.
Qed.

Lemma parse_number_run (neg : bool) (s s1 ds rest : string) :
  match strip "-" s with Some s' => (true, s') | None => (false, s) end
  = (neg, s1) →
  take_digits s1 = (ds, rest) →
  (1 <? String.length ds) && bool_decide (is_Some (strip "0" ds)) = false →
  ends_value rest = true →
  parse_number s
  = match NilZero.uint_of_string ds with
    | Some d => Some (if neg then (- Z.of_uint d)%Z else Z.of_uint d, rest)
    | None => None
    end.
Proof.
  intros E1 E2 E3 E4. unfold parse_number.
  by rewrite E1, E2, E3, ends_value_no_fraction.
Qed.

Lemma parse_number_number (n : Z) (rest : string) :
  ends_value rest = true →
  parse_number (number n +:+ rest) = Some (n, rest).
Proof.
  intros H. unfold number. destruct n as [|p|p]; cbn [Z.to_int NilZero.string_of_int].
  - rewrite (parse_number_run false _ (String "0" rest) "0" rest); try done.
    cbn [take_digits is_digit]. by rewrite ends_value_no_digit.
  - destruct (parse_number_pos p rest H) as (Htake & Hlead & Hval & c & r & E & Hc).
    assert (match strip "-" (NilZero.string_of_uint (Pos.to_uint p) +:+ rest) with
            | Some s' => (true, s')
            | None => (false, NilZero.string_of_uint (Pos.to_uint p) +:+ rest)
            end = (false, NilZero.string_of_uint (Pos.to_uint p) +:+ rest)) as Hs.
    { rewrite E, app_cons. cbn [strip].
      by destruct c as [[] [] [] [] [] [] [] []]. }
    rewrite (parse_number_run false _ _ _ rest Hs Htake Hlead H).
    destruct (NilZero.uint_of_string _); [|done]. cbn in *.
    by injection Hval as ->.
  - destruct (parse_number_pos p rest H) as (Htake & Hlead & Hval & _).
    rewrite app_cons.
    rewrite (parse_number_run true
               (String "-" (NilZero.string_of_uint (Pos.to_uint p) +:+ rest))
               _ _ rest eq_refl Htake Hlead H).
    destruct (NilZero.uint_of_string _); [|done]. cbn in *.
    by injection Hval as ->.
Qed.

(** *** First characters *)

Lemma begins_value_facts (c : ascii) (s : string) :
  begins_value c = true →
  skip_ws (String c s) = String c s
  ∧ strip "]" (String c s) = None
  ∧ strip "}" (String c s) = None
  ∧ strip "," (String c s) = None.
Proof. by destruct c as [[] [] [] [] [] [] [] []]. Qed.

Lemma number_begins (n : Z) :
  ∃ c r, number n = String c r ∧ (is_digit c = true ∨ c = "-"%char).
Proof.
  unfold number. destruct n as [|p|p]; cbn [Z.to_int NilZero.string_of_int].
  - eexists _, _. split; [done|by left].
  - destruct (parse_number_pos p "" eq_refl) as (_ & _ & _ & c & r & E & Hc).
    exists c, r. split; [done|by left].
  - eexists _, _. split; [done|by right].
Qed.

Lemma stringify_begins (v : t) :
  ∃ c r, stringify v = String c r ∧ begins_value c = true.
Proof.
  destruct v as [|[]|n|s|l|l]; try (by eexists _, _).
  destruct (number_begins n) as (c & r & E & Hc).
  exists c, r. split; [done|].
  destruct Hc as [Hc| ->]; [|done]. revert Hc.
  by destruct c as [[] [] [] [] [] [] [] []].
Qed.

Lemma join_begins {A} (f : A → string) (x : A) (l : list A) (s : string) :
  (∃ c r, f x = String c r ∧ begins_value c = true) →
  ∃ c r, join "," (map f (x :: l)) +:+ s = String c r ∧ begins_value c = true.
Proof.
  intros (c & r & E & Hc). destruct l as [|y l].
  - cbn [map join]. rewrite E, app_cons. by eexists _, _.
  - cbn [map]. rewrite join_cons, E, !app_cons. by eexists _, _.
Qed.

(** *** Values *)

Lemma parse_value_number (fuel : nat) (c : ascii) (s : string) :
  is_digit c = true ∨ c = "-"%char →
  parse_value (S fuel) (String c s)
  = match parse_number (String c s) with
    | Some (n, r) => Some (Num n, r)
    | None => None
    end.
Proof.
  intros [Hc| ->]; [|done]. revert Hc.
  by destruct c as [[] [] [] [] [] [] [] []].
Qed.

Lemma parse_members_S (fuel : nat) (s : string) :
  parse_members (S fuel) s
  = match strip (String dquote "") s with
    | None => None
    | Some r0 =>
        match parse_chars r0 with
        | None => None
        | Some (k, r1) =>
            match strip ":" (skip_ws r1) with
            | None => None
            | Some r2 =>
                match parse_value fuel (skip_ws r2) with
                | None => None
                | Some (v, r) =>
                    match strip "," (skip_ws r), strip "}" (skip_ws r) with
                    | Some r', _ =>
                        match parse_members fuel (skip_ws r') with
                        | Some (l, r'') => Some ((k, v) :: l, r'')
                        | None => None
                        end
                    | _, Some r' => Some ([(k, v)], r')
                    | _, _ => None
                    end
                end
            end
        end
    end.
Proof.
  cbn [parse_members]. destruct (strip _ s) as [r0|]; [|done]. cbn.
  destruct (parse_chars r0) as [[k r1]|]; [|done]. cbn.
  destruct (strip ":" (skip_ws r1)) as [r2|]; [|done]. cbn.
  destruct (parse_value fuel (skip_ws r2)) as [[v r]|]; [|done]. cbn.
  destruct (strip "," (skip_ws r)) as [r'|]; [|done].
  by destruct (parse_members fuel (skip_ws r')) as [[l r'']|].
Qed.

Lemma parse_stringify_fuel (fuel : nat) :
  (∀ v rest, weight v ≤ fuel → ends_value rest = true →
     parse_value fuel (stringify v +:+ rest) = Some (v, rest))
  ∧ (∀ x l rest, list_sum (map (λ x, S (weight x)) (x :: l)) ≤ fuel →
       parse_elements fuel (join "," (map stringify (x :: l)) +:+ String "]" rest)
       = Some (x :: l, rest))
  ∧ (∀ kv l rest, list_sum (map (λ kv, S (weight kv.2)) (kv :: l)) ≤ fuel →
       parse_members fuel (join "," (map member (kv :: l)) +:+ String "}" rest)
       = Some (kv :: l, rest)).
Proof.
  induction fuel as [|fuel (IHv & IHe & IHm)].
  { split_and!.
    - intros v rest Hw. destruct v; cbn in Hw; lia.
    - intros x l rest Hw. cbn in Hw. lia.
    - intros kv l rest Hw. cbn in Hw. lia. }
  split_and!.
  - intros v rest Hw Hrest. destruct v as [|[]|n|s|l|l].
    + done.
    + done.
    + done.
    + cbn [stringify]. destruct (number_begins n) as (c & r & E & Hc).
      pose proof (parse_number_number n rest Hrest) as Hn.
      rewrite E, app_cons in Hn |- *.
      by rewrite parse_value_number, Hn.
    + apply parse_value_quote.
    + change (stringify (Arr l)) with ("[" +:+ join "," (map stringify l) +:+ "]").
      rewrite !app_assoc.
      change ("[" +:+ ?s) with (String "[" s).
      change ("]" +:+ rest) with (String "]" rest).
      destruct l as [|x l]; [done|].
      destruct (join_begins stringify x l (String "]" rest) (stringify_begins x))
        as (c & r & E & Hc).
      destruct (begins_value_facts c r Hc) as (Hws & Hb & _).
      rewrite parse_value_array by (by rewrite E, Hws).
      rewrite E, Hws, <- E. rewrite IHe; [done|]. cbn [weight] in Hw. unfold list_sum in *. lia.
    + change (stringify (Obj l)) with ("{" +:+ join "," (map member l) +:+ "}").
      rewrite !app_assoc.
      change ("{" +:+ ?s) with (String "{" s).
      change ("}" +:+ rest) with (String "}" rest).
      destruct l as [|kv l]; [done|].
      assert (∃ c r, member kv = String c r ∧ begins_value c = true) as Hkv.
      { unfold member, quote. rewrite app_cons. by eexists _, _. }
      destruct (join_begins member kv l (String "}" rest) Hkv)
        as (c & r & E & Hc).
      destruct (begins_value_facts c r Hc) as (Hws & _ & Hb & _).
      cbn [parse_value]. rewrite E, Hws, Hb, <- E.
      change (nat_of_ascii "{" =? 34) with false.
      change (nat_of_ascii "{" =? 91) with false.
      change (nat_of_ascii "{" =? 123) with true. cbn match.
      rewrite IHm; [done|]. cbn [weight] in Hw. unfold list_sum in *. lia.
  - intros x l rest Hw. rewrite parse_elements_S.
    unfold list_sum in *. cbn [map fold_right] in Hw.
    destruct l as [|y l].
    + cbn [map join]. rewrite IHv by (done || lia). cbn [mbind option_bind].
      rewrite skip_ws_bracket, strip_char, strip_char_ne; done.
    + cbn [map]. rewrite join_cons, !app_assoc.
      change ("," +:+ ?s) with (String "," s).
      rewrite IHv by (done || lia). cbn [mbind option_bind].
      rewrite skip_ws_comma, strip_char.
      destruct (join_begins stringify y l (String "]" rest) (stringify_begins y))
        as (c & r & E & Hc).
      destruct (begins_value_facts c r Hc) as (Hws & _).
      cbn [map] in E. rewrite E, Hws, <- E.
      change (stringify y :: map stringify l) with (map stringify (y :: l)).
      rewrite (IHe y l rest) by (cbn [map fold_right] in *; lia). done.
  - intros [k v] l rest Hw. rewrite parse_members_S.
    unfold list_sum in *. cbn [map fold_right snd] in Hw.
    assert (∀ s, member (k, v) +:+ s
                 = String dquote (escape_all k +:+ String dquote
                                    (String ":" (stringify v +:+ s)))) as Hmem.
    { intros s. unfold member. cbn [fst snd]. rewrite !app_assoc.
      by rewrite quote_app. }
    destruct (stringify_begins v) as (cv & rv & Ev & Hcv).
    assert (∀ s, skip_ws (stringify v +:+ s) = stringify v +:+ s) as Hwsv.
    { intros s. rewrite Ev, app_cons. by apply begins_value_facts. }
    destruct l as [|kv' l].
    + cbn [map join]. rewrite Hmem, strip_char, parse_chars_escape_all.
      change (skip_ws (String ":" ?s)) with (String ":" s).
      rewrite strip_char, Hwsv, IHv by (done || lia).
      change (skip_ws (String "}" ?s)) with (String "}" s).
      rewrite strip_char, strip_char_ne; done.
    + cbn [map]. rewrite join_cons, !app_assoc.
      change ("," +:+ ?s) with (String "," s).
      rewrite Hmem, strip_char, parse_chars_escape_all.
      change (skip_ws (String ":" ?s)) with (String ":" s).
      rewrite strip_char, Hwsv, IHv by (done || lia).
      rewrite skip_ws_comma, strip_char.
      assert (∃ c r, member kv' = String c r ∧ begins_value c = true) as Hkv.
      { unfold member, quote. rewrite app_cons. by eexists _, _. }
      destruct (join_begins member kv' l (String "}" rest) Hkv)
        as (c & r & E & Hc).
      destruct (begins_value_facts c r Hc) as (Hws & _).
      cbn [map] in E. rewrite E, Hws, <- E.
      change (member kv' :: map member l) with (map member (kv' :: l)).
      rewrite (IHm kv' l rest) by (cbn [map fold_right] in *; lia). done.
Qed.

(** *** The fuel is enough *)

Lemma list_sum_elem {A} (f : A → nat) (x : A) (l : list A) :
  x ∈ l → f x ≤ list_sum (map f l).
Proof.
  induction 1 as [x l|x y l _ IH]; cbn [map list_sum]; unfold list_sum in *;
    cbn [fold_right]; lia.
Qed.

Lemma weight_ind (P : t → Prop) :
  P Null → (∀ b, P (Bool b)) → (∀ n, P (Num n)) → (∀ s, P (Str s)) →
  (∀ l, Forall P l → P (Arr l)) →
  (∀ l, Forall (λ kv, P kv.2) l → P (Obj l)) →
  ∀ v, P v.
Proof.
  intros HNull HBool HNum HStr HArr HObj v.
  assert (∀ n v, weight v ≤ n → P v) as H; [|by apply (H (weight v))].
  clear v. induction n as [|n IH]; intros v Hv.
  { destruct v; cbn in Hv; lia. }
  destruct v as [|b|z|s|l|l]; [done..| |].
  - apply HArr, Forall_forall. intros x Hx. apply IH.
    pose proof (list_sum_elem (λ x, S (weight x)) x l Hx) as Hs.
    cbn [weight] in Hv. cbn beta in Hs. lia.
  - apply HObj, Forall_forall. intros kv Hkv. apply IH.
    pose proof (list_sum_elem (λ kv, S (weight kv.2)) kv l Hkv) as Hs.
    cbn [weight] in Hv. cbn beta in Hs. lia.
Qed.

Lemma list_sum_join {A} (f : A → string) (g : A → nat) (l : list A) :
  Forall (λ x, g x ≤ String.length (f x)) l →
  list_sum (map (λ x, S (g x)) l) ≤ S (String.length (join "," (map f l))).
Proof.
  unfold list_sum.
  induction 1 as [|x l Hx Hl IH]; [cbn; lia|].
  destruct l as [|y l].
  - cbn [map fold_right join]. lia.
  - cbn [map]. rewrite join_cons, !app_length. cbn [map] in IH.
    cbn [fold_right String.length] in *. lia.
Qed.

Lemma weight_length (v : t) : weight v ≤ String.length (stringify v).
Proof.
  induction v as [|[]|n|s|l IH|l IH] using weight_ind.
  - cbn. lia.
  - cbn. lia.
  - cbn. lia.
  - cbn [weight stringify]. destruct (number_begins n) as (c & r & -> & _).
    cbn. lia.
  - cbn [weight stringify]. unfold quote. cbn. lia.
  - change (stringify (Arr l)) with ("[" +:+ join "," (map stringify l) +:+ "]").
    cbn [weight]. rewrite !app_length. cbn [String.length].
    pose proof (list_sum_join stringify weight l IH). lia.
  - change (stringify (Obj l)) with ("{" +:+ join "," (map member l) +:+ "}").
    cbn [weight]. rewrite !app_length. cbn [String.length].
    assert (Forall (λ kv, weight kv.2 ≤ String.length (member kv)) l) as IH'.
    { eapply Forall_impl; [exact IH|]. intros [k x] Hx. unfold member.
      rewrite !app_length. cbn in *. lia. }
    pose proof (list_sum_join member (λ kv, weight kv.2) l IH'). lia.
Qed.

(** [JSON.parse] gives back every value that [JSON.stringify] has
    written. *)
Theorem parse_stringify (v : t) : parse (stringify v) = Some v.
Proof.
  unfold parse.
  destruct (stringify_begins v) as (c & r & E & Hc).
  assert (skip_ws (stringify v) = stringify v) as ->.
  { rewrite E. by apply begins_value_facts. }
  rewrite <- (app_nil_r (stringify v)) at 2.
  destruct (parse_stringify_fuel (S (String.length (stringify v))))
    as (H & _).
  rewrite H; [done| |done].
  pose proof (weight_length v). lia.
Qed.

End JSONRoundTrip.

Import MoreKeyFacts.

(** ** What a method leaves alone *)

Lemma lookup_deleted_other dk l st k :
  k ≠ dk → (∀ i, k ≠ part_key dk i) → k ≠ pointerKey (this st) →
  world (deleted dk l st) !! k = world st !! k.
Proof.
  intros Hk Hp Hpk. unfold deleted. cbn [world].
  rewrite lookup_insert_ne by done. by apply lookup_erased_other.
Qed.

Lemma lookup_added_other m dk text l st k :
  k ≠ dk → (∀ i, k ≠ part_key dk i) → k ≠ pointerKey (this st) →
  world (added m dk text l st) !! k = world st !! k.
Proof.
  intros Hk Hp Hpk. unfold added. cbn [world].
  rewrite lookup_insert_ne by done. by apply lookup_written_other.
Qed.

Lemma lookup_set_other m st l key value k :
  Pointers st l →
  let dk := entry_key (name (this st)) key in
  k ≠ dk → (∀ i, k ≠ part_key dk i) → k ≠ pointerKey (this st) →
  world (set_with m key value st).2 !! k = world st !! k.
Proof.
  intros HP dk Hk Hp Hpk.
  destruct (decide (dk ∈ l)) as [Hin|Hin].
  - rewrite (set_cases m st l) by done.
    destruct (endless _); cbn [snd with_world world];
      [by rewrite loaded_world|].
    rewrite lookup_written_other by done. by apply lookup_deleted_other.
  - rewrite (set_absent m st l) by done. cbn [snd].
    by apply lookup_added_other.
Qed.

Lemma lookup_delete_other st l key k :
  Pointers st l →
  let dk := entry_key (name (this st)) key in
  k ≠ dk → (∀ i, k ≠ part_key dk i) → k ≠ pointerKey (this st) →
  world (delete key st).2 !! k = world st !! k.
Proof.
  intros HP dk Hk Hp Hpk.
  destruct (decide (dk ∈ l)) as [Hin|Hin].
  - rewrite (delete_cases st l) by done.
    destruct (endless _); cbn [snd]; [by rewrite loaded_world|].
    by apply lookup_deleted_other.
  - rewrite (delete_absent st l) by done. cbn [snd]. by rewrite loaded_world.
Qed.

Lemma lookup_swept_other (l : list string) (w : gmap string string) k :
  (∀ p, p ∈ l → k ≠ p ∧ ∀ i, k ≠ part_key p i) → swept l w !! k = w !! k.
Proof.
  revert w. induction l as [|p l IH]; intros w H; [done|].
  rewrite swept_cons, IH by (intros q Hq; apply H; by apply list_elem_of_further).
  destruct (H p) as [Hne Hparts]; [apply list_elem_of_here|].
  by apply lookup_erased_other.
Qed.

Lemma lookup_cleared_other l st k :
  (∀ p, p ∈ l → k ≠ p ∧ ∀ i, k ≠ part_key p i) → k ≠ pointerKey (this st) →
  world (cleared l st) !! k = world st !! k.
Proof.
  intros H Hpk. unfold cleared. cbn [world].
  rewrite lookup_insert_ne by done. by apply lookup_swept_other.
Qed.

(** The name and the index key of the database are never reassigned. *)
Lemma deleted_this dk l st :
  name (this (deleted dk l st)) = name (this st)
  ∧ pointerKey (this (deleted dk l st)) = pointerKey (this st).
Proof. done. Qed.

Lemma added_this m dk text l st :
  name (this (added m dk text l st)) = name (this st)
  ∧ pointerKey (this (added m dk text l st)) = pointerKey (this st).
Proof. unfold added. cbn. by rewrite loaded_name, loaded_pointerKey. Qed.

(** ** The states reached by a call

    Whatever the key, a call of [set], [delete] or [clear] on a database
    whose pointer list can be read throws no exception and leaves the name
    and the index key of the database as they are; when it returns, the
    pointer list is made of pointers of the old one and of the entry key of
    the call. *)
Lemma perform_Pointers (op : operation) (st : State) (l : list string) :
  Pointers st l →
  name (this (perform op st).2) = name (this st)
  ∧ pointerKey (this (perform op st).2) = pointerKey (this st)
  ∧ ((perform op st).1 = Diverges
     ∨ (perform op st).1 = Ok ()
       ∧ ∃ l', Pointers (perform op st).2 l'
           ∧ ∀ p, p ∈ l' →
               p ∈ l
               ∨ ∃ key, key_of op = Some key
                        ∧ p = entry_key (name (this st)) key).
Proof.
  intros HP. destruct op as [key value|key|]; cbn [perform key_of].
  - unfold bind, set.
    destruct (decide (entry_key (name (this st)) key ∈ l)) as [Hin|Hin].
    + rewrite (set_cases _ st l) by done.
      destruct (endless _); unfold ret; cbn [fst snd].
      { rewrite loaded_name, loaded_pointerKey. split_and!; auto. }
      split_and!; [done..|right]. split; [done|].
      exists (without (entry_key (name (this st)) key) l). split.
      * apply (deleted_Pointers _ l st).
      * intros p [Hp _]%elem_of_without. by left.
    + rewrite (set_absent _ st l) by done. unfold ret. cbn [fst snd].
      split_and!; [apply added_this..|right]. split; [done|].
      eexists. split.
      * by apply added_Pointers.
      * intros p [Hp|Hp%list_elem_of_singleton]%elem_of_app; [by left|].
        right. by eexists.
  - destruct (decide (entry_key (name (this st)) key ∈ l)) as [Hin|Hin].
    + rewrite (delete_cases st l) by done.
      destruct (endless _); cbn [fst snd].
      { rewrite loaded_name, loaded_pointerKey. split_and!; auto. }
      split_and!; [done..|right]. split; [done|].
      eexists. split.
      * apply deleted_Pointers.
      * intros p [Hp _]%elem_of_without. by left.
    + rewrite (delete_absent st l) by done. cbn [fst snd].
      split_and!; [apply loaded_name|apply loaded_pointerKey|right].
      split; [done|]. exists l. split; [by apply loaded_Pointers|by left].
  - destruct (clear_cases st l HP) as (Hr & Hn & Hk & _).
    split_and!; [done..|].
    destruct Hr as [Hr|Hr]; [by left|right]. rewrite Hr. cbn [fst snd].
    split; [done|]. exists []. split.
    + apply cleared_Pointers.
    + by intros p ?%elem_of_nil.
Qed.

(** The state that a call of [set] leaves is the one that the call leaves
    in a sequence. *)
Lemma perform_set_state key value st :
  (perform (Set_ key value) st).2 = (set key value st).2.
Proof.
  cbn [perform]. unfold bind, ret. by destruct (set key value st) as [[b|e|] st'].
Qed.

(** ** Values that come back, and values that do not *)

Lemma number_digits_only (n : Z) :
  (0 ≤ n)%Z → digits_only (JSON.number n) = true.
Proof.
  intros Hn. unfold JSON.number. destruct n as [|p|p]; [done| |lia].
  cbn. destruct (Pos.to_uint p) eqn:E; try done;
    apply (all_digits_string_of_uint (_ u)).
Qed.

(** The serializations made of digits only are those of the non-negative
    integers. *)
Lemma digits_only_stringify (value : JSON.t) :
  digits_only (JSON.stringify value) = true ↔
  ∃ n, value = JSON.Num n ∧ (0 ≤ n)%Z.
Proof.
  split.
  - destruct value as [|[]|n|s|l|l]; try done.
    destruct n as [|p|p]; [by exists 0%Z|by exists (Z.pos p)|done].
  - intros (n & -> & Hn). by apply number_digits_only.
Qed.


(** X1. A value comes back from [get] as it was given to [set], whether or
    not the key was stored before, when the key is not [pointers] and the
    serialization of the value either is longer than [maxChunkSize] (it is
    then stored in chunks and reassembled) or is not a run of digits, that
    is, the value is not a non-negative integer ([digits_only_stringify]).
    When the key is in the pointer list, the entry that [set] replaces holds
    no run of digits above 2^53: on such an entry the call does not return
    ([listed_key_never_returns]). *)
Theorem set_then_get (st : State) (l : list string) (key : string)
    (value : JSON.t) :
  Pointers st l →
  pointerKey (this st) = name (this st) +:+ "/pointers" →
  key ≠ "pointers" →
  let dk := entry_key (name (this st)) key in
  (dk ∈ l → countable (default "" (world st !! dk)) = true) →
  digits_only (JSON.stringify value) = false
    ∨ maxChunkSize < String.length (JSON.stringify value) →
  (set key value st).1 = Ok (bool_decide (dk ∈ l))
  ∧ (get key (set key value st).2).1 = Ok (Some value).
Proof.
  intros HP Hpk Hkey dk Hc Hcase. split.
  - unfold set. case_bool_decide as Hin.
    + by rewrite (set_present _ st l) by auto.
    + by rewrite (set_absent _ st l) by auto.
  - apply (set_get_roundtrip maxChunkSize st l); try done.
    + apply maxChunkSize_pos.
    + apply JSONRoundTrip.parse_stringify.
Qed.

Lemma set_then_get_witness :
  (set "pos" (pos 9 9 9) rc1_1).1 = Ok true
  ∧ (get "pos" (set "pos" (pos 9 9 9) rc1_1).2).1 = Ok (Some (pos 9 9 9)).
Proof.
  apply (set_then_get rc1_1 ["rc1/pos"]).
  - vm_compute. reflexivity.
  - reflexivity.
  - intros H. discriminate H.
  - intros _. vm_compute. reflexivity.
  - left. vm_compute. reflexivity.
Defined.







(** ** Deleting *)

(** X3. [delete] of a key whose entry key is not in the pointer list
    returns normally and writes nothing: a property that exists under the
    entry key, or under the names of its chunk parts, is left in place, and
    the pointer list is the same. *)
Theorem delete_unlisted (st : State) (l : list string) (key : string) :
  Pointers st l →
  entry_key (name (this st)) key ∉ l →
  (delete key st).1 = Ok ()
  ∧ world (delete key st).2 = world st
  ∧ Pointers (delete key st).2 l.
Proof.
  intros HP Hin. rewrite (delete_absent st l) by done. cbn [fst snd].
  split; [done|]. split; [apply loaded_world|by apply loaded_Pointers].
Qed.

(** After its second [set] the key [pos] of the database [rc1] is stored
    but not listed: [delete] leaves it there. *)
Lemma delete_unlisted_witness :
  (delete "pos" rc1_2).1 = Ok ()
  ∧ world (delete "pos" rc1_2).2 = world rc1_2
  ∧ Pointers (delete "pos" rc1_2).2 [].
Proof.
  apply (delete_unlisted rc1_2 [] "pos").
  - vm_compute. reflexivity.
  - apply not_elem_of_nil.
Defined.

(** X4. [delete] of a key other than [pointers] whose entry key is in the
    pointer list and whose entry holds no run of digits above 2^53 returns
    normally and afterwards: the property under the entry key and the chunk
    parts counted by its marker are removed, so that [get] returns
    [undefined]; the pointer list, cached and persisted in the index entry,
    is the old one without the entry key; and every property other than the
    entry, its chunk parts and the index entry is as it was. *)
Theorem delete_listed (st : State) (l : list string) (key : string) :
  Pointers st l →
  pointerKey (this st) = name (this st) +:+ "/pointers" →
  key ≠ "pointers" →
  let dk := entry_key (name (this st)) key in
  let meta := default "" (world st !! dk) in
  dk ∈ l →
  countable meta = true →
  ∃ st', delete key st = (Ok (), st')
    ∧ world st' !! dk = None
    ∧ (digits_only meta = true →
         ∀ i, i < parseInt meta → world st' !! part_key dk i = None)
    ∧ (get key st').1 = Ok None
    ∧ Pointers st' (without dk l)
    ∧ stored_pointers (world st') (pointerKey (this st')) = Ok (without dk l)
    ∧ (dk ∉ without dk l)
    ∧ (∀ k, k ≠ dk → (∀ i, k ≠ part_key dk i) → k ≠ pointerKey (this st) →
         world st' !! k = world st !! k).
Proof.
  intros HP Hpk Hkey dk meta Hin Hc.
  assert (dk ≠ pointerKey (this st)) as Hdk.
  { rewrite Hpk. intros E. by apply entry_key_pointers in E. }
  assert (∀ i, part_key dk i ≠ pointerKey (this st)) as Hpart.
  { rewrite Hpk. intros i E. by apply part_key_ne_pointers in E. }
  exists (deleted dk l st). split; [by apply delete_present|].
  assert (world (deleted dk l st) !! dk = None) as Hnone.
  { unfold deleted. cbn [world].
    by rewrite lookup_insert_ne, lookup_erased_base by done. }
  split_and!.
  - done.
  - intros D i Hi. unfold deleted. cbn [world].
    rewrite lookup_insert_ne by done. by apply lookup_erased_part.
  - rewrite get_run. cbn [fst]. unfold deleted at 2. cbn [this name]. fold dk.
    unfold read_value. by rewrite Hnone.
  - apply deleted_Pointers.
  - unfold deleted. cbn [world this pointerKey]. apply stored_pointers_insert.
  - rewrite elem_of_without. by intros [_ ?].
  - intros k Hk Hp Hkpk. by apply lookup_deleted_other.
Qed.

Lemma delete_listed_witness :
  ∃ st', delete "big" chunked_db = (Ok (), st')
    ∧ world st' !! "db/big" = None
    ∧ world st' !! part_key "db/big" 0 = None
    ∧ world st' !! part_key "db/big" 1 = None
    ∧ (get "big" st').1 = Ok None
    ∧ Pointers st' [].
Proof.
  assert (Pointers chunked_db ["db/big"]) as HP by (vm_compute; reflexivity).
  assert ("big" ≠ "pointers") as Hkey by (intros H; discriminate H).
  assert (entry_key (name (this chunked_db)) "big" ∈ ["db/big"]) as Hin
    by (vm_compute; apply list_elem_of_here).
  destruct (delete_listed chunked_db ["db/big"] "big" HP eq_refl Hkey Hin eq_refl)
    as (st' & Hrun & Hbase & Hparts & Hget & HP' & _).
  exists st'. split_and!; try done.
  - apply Hparts; [vm_compute; reflexivity|].
    apply Nat.ltb_lt. vm_compute. reflexivity.
  - apply Hparts; [vm_compute; reflexivity|].
    apply Nat.ltb_lt. vm_compute. reflexivity.
Defined.

(** ** The pointer list under [set] *)


Lemma set_absent_index (st : State) (l : list string) (key : string)
    (value : JSON.t) :
  Pointers st l →
  let dk := entry_key (name (this st)) key in
  dk ∉ l →
  let st' := (set key value st).2 in
  (set key value st).1 = Ok false
  ∧ Pointers st' (l ++ [dk])
  ∧ stored_pointers (world st') (pointerKey (this st')) = Ok (l ++ [dk]).
Proof.
  intros HP dk Hin st'. subst st'. unfold set.
  rewrite (set_absent _ st l) by done. cbn [fst snd]. split; [done|].
  split; [by apply added_Pointers|].
  unfold added. cbn [world this]. rewrite loaded_pointerKey.
  apply stored_pointers_insert.
Qed.

(** X5. [set] of a key whose entry key is not in the pointer list returns
    [false], pushes the entry key at the end of the pointer list and
    persists the list in the index entry. *)
Theorem set_new_key (st : State) (l : list string) (key : string)
    (value : JSON.t) :
  Pointers st l →
  let dk := entry_key (name (this st)) key in
  dk ∉ l →
  let st' := (set key value st).2 in
  (set key value st).1 = Ok false
  ∧ Pointers st' (l ++ [dk])
  ∧ stored_pointers (world st') (pointerKey (this st')) = Ok (l ++ [dk]).
Proof. apply set_absent_index. Qed.

Lemma set_new_key_witness :
  (set "pos" (pos 1 2 3) rc1).1 = Ok false
  ∧ Pointers rc1_1 ["rc1/pos"]
  ∧ stored_pointers (world rc1_1) (pointerKey (this rc1_1)) = Ok ["rc1/pos"].
Proof.
  apply (set_new_key rc1 [] "pos" (pos 1 2 3)).
  - vm_compute. reflexivity.
  - apply not_elem_of_nil.
Defined.



(** ** Keys that do not interfere *)

(** The entry key and the chunk-part keys of [key'] are not among the
    properties that a call on [key] writes or removes. *)
Lemma apart_keys (nm key key' : string) :
  key' ≠ key →
  (∀ i, key' ≠ part_key key i) →
  (∀ j, key ≠ part_key key' j) →
  let dk := entry_key nm key in
  let dk' := entry_key nm key' in
  dk' ≠ dk ∧ (∀ i, dk' ≠ part_key dk i)
  ∧ ∀ j, part_key dk' j ≠ dk ∧ ∀ i, part_key dk' j ≠ part_key dk i.
Proof.
  intros Hne H1 H2 dk dk'. split_and!.
  - by intros ?%entry_key_inj.
  - intros i. unfold dk. rewrite part_key_entry_key.
    intros ?%entry_key_inj. by eapply H1.
  - intros j. split.
    + unfold dk'. rewrite part_key_entry_key.
      intros E%entry_key_inj. by eapply H2.
    + intros i [E _]%part_key_inj2. by apply entry_key_inj in E.
Qed.

(** X7. [set] and [delete] of a key leave the result of [get] for every
    other key as it was, provided the other key is not [pointers] and
    neither key is the name of a chunk part of the other ([k_part0],
    [k_part1], ... for the key [k]). *)
Theorem other_keys_unchanged (st : State) (l : list string)
    (key key' : string) (value : JSON.t) :
  Pointers st l →
  pointerKey (this st) = name (this st) +:+ "/pointers" →
  key' ≠ "pointers" →
  key' ≠ key →
  (∀ i, key' ≠ part_key key i) →
  (∀ j, key ≠ part_key key' j) →
  (get key' (set key value st).2).1 = (get key' st).1
  ∧ (get key' (delete key st).2).1 = (get key' st).1.
Proof.
  intros HP Hpk Hkey' Hne H1 H2.
  destruct (apart_keys (name (this st)) key key' Hne H1 H2) as (A & B & C).
  assert (entry_key (name (this st)) key' ≠ pointerKey (this st)) as Hdk.
  { rewrite Hpk. intros E. by apply entry_key_pointers in E. }
  assert (∀ i, part_key (entry_key (name (this st)) key') i
               ≠ pointerKey (this st)) as Hpart.
  { rewrite Hpk. intros i E. by apply part_key_ne_pointers in E. }
  destruct (perform_Pointers (Set_ key value) st l HP) as (Hnm1 & _).
  destruct (perform_Pointers (Delete key) st l HP) as (Hnm2 & _).
  rewrite perform_set_state in Hnm1. cbn [perform] in Hnm2.
  pose proof (lookup_set_other maxChunkSize st l key value) as Hs.
  pose proof (lookup_delete_other st l key) as Hd.
  cbv zeta in Hs, Hd. fold set in Hs.
  rewrite !get_run. cbn [fst]. rewrite Hnm1, Hnm2.
  split; apply read_value_ext.
  - apply Hs; done.
  - intros j. apply Hs; [done|apply C|apply C|done].
  - apply Hd; done.
  - intros j. apply Hd; [done|apply C|apply C|done].
Qed.

Lemma other_keys_unchanged_witness :
  (get "pos" (set "vel" (pos 0 0 1) rc1_1).2).1 = (get "pos" rc1_1).1
  ∧ (get "pos" (delete "vel" rc1_1).2).1 = (get "pos" rc1_1).1.
Proof.
  apply (other_keys_unchanged rc1_1 ["rc1/pos"] "vel" "pos" (pos 0 0 1)).
  - vm_compute. reflexivity.
  - reflexivity.
  - intros H. discriminate H.
  - intros H. discriminate H.
  - intros i. apply not_part_key. reflexivity.
  - intros j. apply not_part_key. reflexivity.
Defined.

(** ** The properties of a database are those under its name *)

(** A call writes and removes only properties whose names start with the
    name of the database and a slash, when the pointers do. *)
Lemma perform_confined (op : operation) (st : State) (l : list string) k :
  Pointers st l →
  pointerKey (this st) = name (this st) +:+ "/pointers" →
  (∀ p, p ∈ l → ∃ x, p = entry_key (name (this st)) x) →
  (∀ x, k ≠ entry_key (name (this st)) x) →
  world (perform op st).2 !! k = world st !! k.
Proof.
  intros HP Hpk Hown Hk.
  assert (k ≠ pointerKey (this st)) as Hkpk.
  { rewrite Hpk. apply (Hk "pointers"). }
  destruct op as [key value|key|].
  - rewrite perform_set_state.
    apply (lookup_set_other maxChunkSize st l key value k HP);
      [apply Hk| |done].
    intros i. rewrite part_key_entry_key. apply Hk.
  - apply (lookup_delete_other st l key k HP); [apply Hk| |done].
    intros i. rewrite part_key_entry_key. apply Hk.
  - cbn [perform]. destruct (clear_cases st l HP) as (_ & _ & _ & Hw).
    apply Hw; [done|].
    intros p [x ->]%Hown. split; [apply Hk|].
    intros i. rewrite part_key_entry_key. apply Hk.
Qed.

(** A sequence of calls throws no exception and leaves the properties of
    other names alone, whether or not every call returns. *)
Lemma perform_all_confined (ops : list operation) (st : State)
    (l : list string) :
  Pointers st l →
  pointerKey (this st) = name (this st) +:+ "/pointers" →
  (∀ p, p ∈ l → ∃ x, p = entry_key (name (this st)) x) →
  ((perform_all ops st).1 = Ok () ∨ (perform_all ops st).1 = Diverges)
  ∧ name (this (perform_all ops st).2) = name (this st)
  ∧ ∀ k, (∀ x, k ≠ entry_key (name (this st)) x) →
         world (perform_all ops st).2 !! k = world st !! k.
Proof.
  revert st l. induction ops as [|op ops IH]; intros st l HP Hpk Hown.
  { cbn. auto. }
  destruct (perform_Pointers op st l HP) as (Hnm & Hpk1 & Hr).
  pose proof (λ k, perform_confined op st l k HP Hpk Hown) as Hw.
  cbn [perform_all]. unfold bind.
  destruct (perform op st) as [[[]|e|] st1]; cbn [fst snd] in *.
  - destruct Hr as [?|(_ & l1 & HP1 & Hl1)]; [done|].
    destruct (IH st1 l1) as (Hr' & Hnm' & Hw').
    + done.
    + by rewrite Hpk1, Hnm.
    + intros p [Hp|(key & _ & ->)]%Hl1; rewrite Hnm; [by apply Hown|by eexists].
    + split; [done|]. split; [by rewrite Hnm', Hnm|].
      intros k Hk. rewrite Hw' by (by rewrite Hnm). by apply Hw.
  - by destruct Hr as [?|[? _]].
  - auto.
Qed.

(** X8. No sequence of calls of [set], [delete] and [clear], whatever the
    keys and the values, writes or removes a property whose name does not
    start with the name of the database and a slash, as long as the
    pointers it starts from are entry keys of the database.  No call throws
    an exception; a call that does not return ends the sequence, and the
    properties of other names are then as they were as well. *)
Theorem writes_stay_under_name (ops : list operation) (st : State)
    (l : list string) (k : string) :
  Pointers st l →
  pointerKey (this st) = name (this st) +:+ "/pointers" →
  (∀ p, p ∈ l → ∃ x, p = entry_key (name (this st)) x) →
  (∀ x, k ≠ entry_key (name (this st)) x) →
  ((perform_all ops st).1 = Ok () ∨ (perform_all ops st).1 = Diverges)
  ∧ world (perform_all ops st).2 !! k = world st !! k.
Proof.
  intros HP Hpk Hown Hk.
  destruct (perform_all_confined ops st l HP Hpk Hown) as (Hr & _ & Hw).
  split; [done|]. by apply Hw.
Qed.

Lemma writes_stay_under_name_witness :
  let ops := [Set_ "big" (JSON.Str "x"); Delete "pos"; Clear] in
  ((perform_all ops mixed_db).1 = Ok ()
   ∨ (perform_all ops mixed_db).1 = Diverges)
  ∧ world (perform_all ops mixed_db).2 !! "db2/big" = world mixed_db !! "db2/big".
Proof.
  apply (writes_stay_under_name _ mixed_db ["db/big"; "db/pos"]).
  - vm_compute. reflexivity.
  - reflexivity.
  - intros p [->|[->|[]%elem_of_nil]%elem_of_cons]%elem_of_cons;
      [by exists "big"|by exists "pos"].
  - intros x H. discriminate H.
Defined.

(** X9. Two databases whose names differ and contain no slash, as the
    constructor requires, do not interfere, as long as the pointers of the
    one that is called are entry keys of its own: after any sequence of
    calls of [set], [delete] and [clear] on it, the index entry of the
    other is as it was, and the other gets the same result for every key.
    No call throws an exception; a call that does not return ends the
    sequence, and has written nothing to the other database either. *)
Theorem databases_do_not_interfere (ops : list operation) (st : State)
    (l : list string) (other : State) (key : string) :
  Pointers st l →
  pointerKey (this st) = name (this st) +:+ "/pointers" →
  (∀ p, p ∈ l → ∃ x, p = entry_key (name (this st)) x) →
  includes "/" (name (this st)) = false →
  includes "/" (name (this other)) = false →
  name (this other) ≠ name (this st) →
  pointerKey (this other) = name (this other) +:+ "/pointers" →
  world other = world st →
  let w' := world (perform_all ops st).2 in
  ((perform_all ops st).1 = Ok () ∨ (perform_all ops st).1 = Diverges)
  ∧ w' !! pointerKey (this other) = world other !! pointerKey (this other)
  ∧ (get key (with_world (λ _, w') other)).1 = (get key other).1.
Proof.
  intros HP Hpk Hown Hs1 Hs2 Hne Hpk2 Hw w'.
  destruct (perform_all_confined ops st l HP Hpk Hown) as (Hrun & _ & Hw').
  subst w'.
  assert (∀ y x, entry_key (name (this other)) y ≠ entry_key (name (this st)) x)
    as Hkeys.
  { intros y x E. by apply entry_key_name_inj in E. }
  split; [done|]. split.
  - rewrite Hw, Hpk2. apply Hw', (Hkeys "pointers").
  - rewrite !get_run. cbn [fst with_world world this]. rewrite Hw.
    apply read_value_ext.
    + apply Hw', Hkeys.
    + intros i. rewrite part_key_entry_key. apply Hw', Hkeys.
Qed.

Lemma databases_do_not_interfere_witness :
  let ops := [Set_ "pos" (pos 0 0 0); Delete "big"; Clear] in
  let w' := world (perform_all ops mixed_db).2 in
  ((perform_all ops mixed_db).1 = Ok ()
   ∨ (perform_all ops mixed_db).1 = Diverges)
  ∧ w' !! "rc1/pointers" = world mixed_db !! "rc1/pointers"
  ∧ (get "pos" (mkState w' [] (mkDatabase "rc1" "rc1/pointers" None))).1
    = (get "pos" (mkState (world mixed_db) []
                    (mkDatabase "rc1" "rc1/pointers" None))).1.
Proof.
  apply (databases_do_not_interfere _ mixed_db ["db/big"; "db/pos"]
           (mkState (world mixed_db) [] (mkDatabase "rc1" "rc1/pointers" None))
           "pos").
  - vm_compute. reflexivity.
  - reflexivity.
  - intros p [->|[->|[]%elem_of_nil]%elem_of_cons]%elem_of_cons;
      [by exists "big"|by exists "pos"].
  - reflexivity.
  - reflexivity.
  - intros H. discriminate H.
  - reflexivity.
  - reflexivity.
Defined.

(** ** A database found again *)

(** X10. What a database has stored is found again by a new object of the
    same name: the constructor succeeds on the properties left by the
    first object, leaves them as they are except for an index entry that is
    missing or empty, and the new object, which has no cache, reads the same
    pointer list from the index entry, emits the same [entries] and gets
    the same result for every key other than [pointers]. *)
Theorem found_again (st : State) (l : list string) :
  Index st l →
  name (this st) ≠ "" →
  includes dquote (name (this st)) = false →
  includes "/" (name (this st)) = false →
  ∃ st', constructor (name (this st)) (world st) = Ok st'
    ∧ cachedPointers (this st') = None
    ∧ Index st' l
    ∧ (∀ k, k ≠ pointerKey (this st) → world st' !! k = world st !! k)
    ∧ (entries st').1 = (entries st).1
    ∧ (∀ key, key ≠ "pointers" → (get key st').1 = (get key st).1).
Proof.
  intros HI Hnm Hq Hs. pose proof (Index_Pointers st l HI) as HP.
  destruct HI as (Hpk & Hst & Hc).
  unfold constructor. rewrite bool_decide_false, Hq, Hs by done. cbn [orb].
  rewrite <- Hpk. eexists. split; [done|].
  destruct (truthy (world st !! pointerKey (this st))) eqn:T; cbn [negb].
  - split; [done|]. split; [|split; [done|]].
    { split; [done|]. split; [done|]. by intros r. }
    split; [|intros key _; by rewrite !get_run].
    by rewrite (entries_run _ l), (entries_run st l).
  - unfold stored_pointers in Hst. rewrite T in Hst. injection Hst as <-.
    assert (stored_pointers
              (<[pointerKey (this st) := JSON.stringify (JSON.Arr [])]> (world st))
              (pointerKey (this st)) = Ok []) as Hst'
      by apply (stored_pointers_insert _ _ []).
    split; [done|]. split; [|split].
    { split; [done|]. split; [done|]. by intros r. }
    { intros k Hk. cbn [world]. by rewrite lookup_insert_ne. }
    split.
    + by rewrite (entries_run _ []), (entries_run st []).
    + intros key Hkey. rewrite !get_run. cbn [fst world this name].
      apply read_value_ext.
      * rewrite lookup_insert_ne; [done|].
        rewrite Hpk. intros E'. symmetry in E'. by apply entry_key_pointers in E'.
      * intros i. rewrite lookup_insert_ne; [done|].
        rewrite Hpk. intros E'. symmetry in E'.
        by apply part_key_ne_pointers in E'.
Qed.

Lemma found_again_witness :
  ∃ st', constructor "db" (world mixed_db) = Ok st'
    ∧ cachedPointers (this st') = None
    ∧ Index st' ["db/big"; "db/pos"]
    ∧ (entries st').1 = (entries mixed_db).1.
Proof.
  assert (Index mixed_db ["db/big"; "db/pos"]) as HI.
  { split_and!; [reflexivity|vm_compute; reflexivity|].
    intros r. vm_compute. by intros [= <-]. }
  destruct (found_again mixed_db ["db/big"; "db/pos"] HI)
    as (st' & Hrun & Hc & HI' & _ & He & _).
  - intros H. discriminate H.
  - reflexivity.
  - reflexivity.
  - exists st'. by split_and!.
Defined.

(** ** An index entry that cannot be parsed *)

Lemma parse_value_no_start (fuel : nat) (c : ascii) (r : string) :
  begins_value c = false → JSON.parse_value fuel (String c r) = None.
Proof.
  intros H. destruct fuel as [|fuel]; [done|]. revert H.
  by destruct c as [[] [] [] [] [] [] [] []].
Qed.

Lemma parse_no_json (text : string) : no_json text = true → JSON.parse text = None.
Proof.
  unfold no_json, JSON.parse. destruct (JSON.skip_ws text) as [|c r]; [done|].
  intros H%negb_true_iff. by rewrite parse_value_no_start.
Qed.

Lemma stored_pointers_malformed (w : gmap string string) (pk text : string) :
  w !! pk = Some text → text ≠ "" → JSON.parse text = None →
  stored_pointers w pk = Throw SyntaxError.
Proof.
  intros Hw Hne Hparse. unfold stored_pointers. rewrite Hw.
  destruct text; [done|]. cbn [truthy default from_option id].
  by rewrite Hparse.
Qed.

(** X11. The constructor does not look into an index entry that holds a
    text.  When that text is no JSON (it begins, after white space, with a
    character that no JSON value begins with, or holds white space only),
    the object is constructed all the same, and then every call of [set],
    [delete], [clear] and [entries] throws the [SyntaxError] of
    [JSON.parse] before it has written anything. *)
Theorem malformed_index (nm text key : string) (value : JSON.t)
    (w : gmap string string) :
  nm ≠ "" → includes dquote nm = false → includes "/" nm = false →
  w !! (nm +:+ "/pointers") = Some text →
  text ≠ "" →
  no_json text = true →
  ∃ st, constructor nm w = Ok st
    ∧ world st = w
    ∧ set key value st = (Throw SyntaxError, st)
    ∧ delete key st = (Throw SyntaxError, st)
    ∧ clear st = (Throw SyntaxError, st)
    ∧ entries st = (Throw SyntaxError, st).
Proof.
  intros Hnm Hq Hs Hw Hne Hparse%parse_no_json.
  unfold constructor. rewrite bool_decide_false, Hq, Hs by done. cbn [orb].
  rewrite Hw. destruct text as [|c text]; [done|]. cbn [truthy negb].
  eexists. split; [done|]. split; [done|].
  set (st := mkState _ _ _).
  assert (_getPointers st = (Throw SyntaxError, st)) as Hget.
  { apply getPointers_throw; [done|].
    by apply (stored_pointers_malformed _ _ (String c text)). }
  split_and!.
  - unfold set, set_with. by erewrite bind_throw.
  - unfold delete. by erewrite bind_throw.
  - unfold clear. by erewrite bind_throw.
  - unfold entries. by erewrite bind_throw.
Qed.

Lemma malformed_index_witness :
  let w : gmap string string := {[ "db/pointers" := "undefined" ]} in
  ∃ st, constructor "db" w = Ok st
    ∧ set "k" (JSON.Num 1) st = (Throw SyntaxError, st)
    ∧ entries st = (Throw SyntaxError, st).
Proof.
  destruct (malformed_index "db" "undefined" "k" (JSON.Num 1)
              {[ "db/pointers" := "undefined" ]})
    as (st & Hrun & _ & Hset & _ & _ & Hentries).
  - intros H. discriminate H.
  - reflexivity.
  - reflexivity.
  - reflexivity.
  - intros H. discriminate H.
  - reflexivity.
  - exists st. by split_and!.
Defined.

(** ** What [entries] emits *)

Lemma collect_ext (w w' : gmap string string) (nm : string) (l : list string) :
  (∀ p, p ∈ l →
     read_value w' (entry_key nm (last_segment p))
     = read_value w (entry_key nm (last_segment p))) →
  collect w' nm l = collect w nm l.
Proof.
  induction l as [|p l IH]; intros H; [done|].
  cbn [collect]. rewrite H by apply list_elem_of_here.
  by rewrite IH by (intros q Hq; by apply H, list_elem_of_further).
Qed.

Lemma collect_snoc (w : gmap string string) (nm : string) (l : list string)
    (p : string) es v :
  collect w nm l = Ok es →
  read_value w (entry_key nm (last_segment p)) = Ok v →
  collect w nm (l ++ [p]) = Ok (es ++ [(last_segment p, v)]).
Proof.
  revert es. induction l as [|q l IH]; intros es Hes Hv.
  - injection Hes as <-. cbn. by rewrite Hv.
  - cbn [collect app] in *.
    destruct (read_value w (entry_key nm (last_segment q))) as [x| |];
      [|done..].
    destruct (collect w nm l) as [rest| |]; [|done..].
    injection Hes as <-. by rewrite (IH rest).
Qed.

Lemma all_digits_no_slash (s : string) :
  all_digits s = true → includes "/" s = false.
Proof.
  induction s as [|c s IH]; [done|]. cbn.
  intros [Dc Ds]%andb_prop.
  destruct (Ascii.eqb c "/") eqn:Ec; [|by apply IH].
  apply Ascii.eqb_eq in Ec as ->. done.
Qed.

(** The pairs emitted for the old pointers after [set] has stored a key
    that was not in the pointer list. *)
Lemma collect_added m st l key value :
  Pointers st l →
  pointerKey (this st) = name (this st) +:+ "/pointers" →
  let dk := entry_key (name (this st)) key in
  (∀ p, p ∈ l →
     let k := last_segment p in
     k ≠ "pointers" ∧ k ≠ key
     ∧ (∀ i, k ≠ part_key key i) ∧ (∀ j, key ≠ part_key k j)) →
  collect (world (added m dk (JSON.stringify value) l st)) (name (this st)) l
  = collect (world st) (name (this st)) l.
Proof.
  intros HP Hpk dk Hl. apply collect_ext. intros p Hp.
  destruct (Hl p Hp) as (Hk & Hne & H1 & H2).
  destruct (apart_keys (name (this st)) key _ Hne H1 H2) as (A & B & C).
  apply read_value_ext.
  - apply lookup_added_other; [done|done|].
    rewrite Hpk. intros E. by apply entry_key_pointers in E.
  - intros j. apply lookup_added_other; [apply C|apply C|].
    rewrite Hpk. intros E. by apply part_key_ne_pointers in E.
Qed.

Lemma entries_snoc (st : State) (l : list string) (key : string)
    (value : JSON.t) (es : list (string * option JSON.t)) :
  Pointers st l →
  pointerKey (this st) = name (this st) +:+ "/pointers" →
  key ≠ "pointers" →
  includes "/" key = false →
  entry_key (name (this st)) key ∉ l →
  digits_only (JSON.stringify value) = false
    ∨ maxChunkSize < String.length (JSON.stringify value) →
  (∀ p, p ∈ l →
     let k := last_segment p in
     k ≠ "pointers" ∧ k ≠ key
     ∧ (∀ i, k ≠ part_key key i) ∧ (∀ j, key ≠ part_key k j)) →
  (entries st).1 = Ok es →
  (entries (set key value st).2).1 = Ok (es ++ [(key, Some value)]).
Proof.
  intros HP Hpk Hkey Hslash Hin Hcase Hl Hes.
  assert ((get key (set key value st).2).1 = Ok (Some value)) as Hget.
  { apply (set_get_roundtrip maxChunkSize st l); try done.
    - apply maxChunkSize_pos.
    - apply JSONRoundTrip.parse_stringify. }
  revert Hget. unfold set. rewrite (set_absent _ st l) by done. cbn [snd].
  set (dk := entry_key (name (this st)) key).
  set (st' := added maxChunkSize dk (JSON.stringify value) l st).
  assert (name (this st') = name (this st)) as Hnm by apply added_this.
  rewrite get_run, Hnm. cbn [fst]. fold dk. intros Hget.
  rewrite (entries_run st' (l ++ [dk])) by by apply added_Pointers.
  rewrite (entries_run st l) in Hes by done. cbn [fst] in *. rewrite Hnm.
  assert (last_segment dk = key) as Hls.
  { unfold dk. by rewrite last_segment_entry_key, last_segment_plain. }
  pose proof (collect_snoc (world st') (name (this st)) l dk es (Some value))
    as H.
  rewrite Hls in H. apply H.
  - subst st' dk. by rewrite collect_added.
  - done.
Qed.

(** X12. [entries] lists the keys in the order in which they were first
    stored: after [set] has stored a new key that contains no slash, it
    emits the pairs that it emitted before, followed by the pair of the new
    key and its value.  The key is not [pointers], its serialization is
    longer than [maxChunkSize] or is not a run of digits, and the keys
    already listed are not [pointers], differ from the new key, and are not
    names of chunk parts of it, nor it of them. *)
Theorem entries_after_set (st : State) (l : list string) (key : string)
    (value : JSON.t) (es : list (string * option JSON.t)) :
  Pointers st l →
  pointerKey (this st) = name (this st) +:+ "/pointers" →
  key ≠ "pointers" →
  includes "/" key = false →
  entry_key (name (this st)) key ∉ l →
  digits_only (JSON.stringify value) = false
    ∨ maxChunkSize < String.length (JSON.stringify value) →
  (∀ p, p ∈ l →
     let k := last_segment p in
     k ≠ "pointers" ∧ k ≠ key
     ∧ (∀ i, k ≠ part_key key i) ∧ (∀ j, key ≠ part_key k j)) →
  (entries st).1 = Ok es →
  (entries (set key value st).2).1 = Ok (es ++ [(key, Some value)]).
Proof. apply entries_snoc. Qed.

Lemma entries_after_set_witness :
  (entries (set "vel" (pos 0 0 1) rc1_1).2).1
  = Ok ([("pos", Some (pos 1 2 3))] ++ [("vel", Some (pos 0 0 1))]).
Proof.
  apply (entries_after_set rc1_1 ["rc1/pos"]).
  - vm_compute. reflexivity.
  - reflexivity.
  - intros H. discriminate H.
  - reflexivity.
  - vm_compute. intros [H|[]%elem_of_nil]%elem_of_cons. discriminate H.
  - left. vm_compute. reflexivity.
  - intros p ->%list_elem_of_singleton. split_and!.
    + intros H. discriminate H.
    + intros H. discriminate H.
    + intros i. apply not_part_key. reflexivity.
    + intros j. apply not_part_key. reflexivity.
  - vm_compute. reflexivity.
Defined.

(** X13. A key that contains a slash is listed by [entries] under what
    follows its last slash, paired with what [get] returns for that name
    and not with the value stored under the key: after [set] has stored
    such a key, [entries] emits the pairs that it emitted before, followed
    by the pair of the last segment of the key and of the result that
    [get] had for that segment before the call.  This holds when what
    follows the last slash, in the new key and in the pointers already
    listed, is not [pointers]: the properties that [get] reads for those
    names are then other than the index entry, which [set] rewrites. *)
Theorem entries_after_set_slash (st : State) (l : list string) (key : string)
    (value : JSON.t) (es : list (string * option JSON.t))
    (v : option JSON.t) :
  Pointers st l →
  pointerKey (this st) = name (this st) +:+ "/pointers" →
  includes "/" key = true →
  entry_key (name (this st)) key ∉ l →
  last_segment key ≠ "pointers" →
  (∀ p, p ∈ l → last_segment p ≠ "pointers") →
  (entries st).1 = Ok es →
  (get (last_segment key) st).1 = Ok v →
  last_segment key ≠ key
  ∧ (entries (set key value st).2).1 = Ok (es ++ [(last_segment key, v)]).
Proof.
  intros HP Hpk Hslash Hin Hlast Hl Hes Hv.
  split; [by apply last_segment_slash|].
  assert (∀ k, includes "/" k = false →
            k ≠ key ∧ (∀ i, k ≠ part_key key i) ∧ (∀ j, key ≠ part_key k j))
    as Hplain.
  { intros k Hk. split_and!.
    - intros ->. congruence.
    - intros i ->. unfold part_key in Hk.
      rewrite includes_app_false, Hslash in Hk. done.
    - intros j E. rewrite E in Hslash. unfold part_key in Hslash.
      rewrite !includes_app_false, Hk in Hslash. cbn [orb] in Hslash.
      rewrite (all_digits_no_slash (toString j)) in Hslash
        by apply toString_all_digits.
      done. }
  unfold set. rewrite (set_absent _ st l) by done. cbn [snd].
  set (dk := entry_key (name (this st)) key).
  set (st' := added maxChunkSize dk (JSON.stringify value) l st).
  assert (name (this st') = name (this st)) as Hnm by apply added_this.
  rewrite (entries_run st' (l ++ [dk])) by by apply added_Pointers.
  rewrite (entries_run st l) in Hes by done.
  rewrite get_run in Hv. cbn [fst] in *. rewrite Hnm.
  assert (last_segment dk = last_segment key) as Hls
    by apply last_segment_entry_key.
  pose proof (collect_snoc (world st') (name (this st)) l dk es v) as H.
  rewrite Hls in H. apply H.
  - subst st' dk. rewrite collect_added; [done|done|done|].
    intros p Hp k. split; [by apply Hl|].
    apply Hplain, last_segment_no_slash.
  - rewrite <- Hv.
    destruct (Hplain (last_segment key) (last_segment_no_slash key))
      as (Hne & H1 & H2).
    destruct (apart_keys (name (this st)) key _ Hne H1 H2) as (A & B & C).
    apply read_value_ext.
    + apply lookup_added_other; [done|done|].
      rewrite Hpk. intros E. by apply entry_key_pointers in E.
    + intros j. apply lookup_added_other; [apply C|apply C|].
      rewrite Hpk. intros E. by apply part_key_ne_pointers in E.
Qed.

Lemma entries_after_set_slash_witness :
  last_segment "cam/pos" ≠ "cam/pos"
  ∧ (entries (set "cam/pos" (pos 7 7 7) rc1_1).2).1
    = Ok ([("pos", Some (pos 1 2 3))] ++ [("pos", Some (pos 1 2 3))]).
Proof.
  apply (entries_after_set_slash rc1_1 ["rc1/pos"]).
  - vm_compute. reflexivity.
  - reflexivity.
  - reflexivity.
  - vm_compute. intros [H|[]%elem_of_nil]%elem_of_cons. discriminate H.
  - intros H. discriminate H.
  - intros p ->%list_elem_of_singleton H. discriminate H.
  - vm_compute. reflexivity.
  - vm_compute. reflexivity.
Defined.

(** ** Clearing *)

(** X14. When no pointer holds a run of digits above 2^53, [clear]
    returns normally and afterwards the pointer list is empty, in the cache
    and in the index entry, and [entries] emits nothing; the property under
    every pointer other than the index key is removed, and so are the chunk
    parts counted by the marker of every pointer when no pointer is the
    name of a chunk part of a pointer; the properties that are neither
    pointers, nor chunk parts of pointers, nor the index entry are as they
    were. *)
Theorem clear_removes_listed (st : State) (l : list string) :
  Pointers st l →
  pointerKey (this st) = name (this st) +:+ "/pointers" →
  (∀ p, p ∈ l → countable (default "" (world st !! p)) = true) →
  let pk := pointerKey (this st) in
  ∃ st', clear st = (Ok (), st')
    ∧ Pointers st' []
    ∧ stored_pointers (world st') (pointerKey (this st')) = Ok []
    ∧ (entries st').1 = Ok []
    ∧ (∀ p, p ∈ l → p ≠ pk → world st' !! p = None)
    ∧ ((∀ p q j, p ∈ l → q ∈ l → p ≠ part_key q j) →
         ∀ p i, p ∈ l →
           digits_only (default "" (world st !! p)) = true →
           i < parseInt (default "" (world st !! p)) →
           world st' !! part_key p i = None)
    ∧ (∀ k, (∀ p, p ∈ l → k ≠ p ∧ ∀ i, k ≠ part_key p i) → k ≠ pk →
         world st' !! k = world st !! k).
Proof.
  intros HP Hpk Hc pk.
  destruct (clear_empties st l HP Hpk Hc)
    as (st' & Hrun & HP' & _ & Hst & Hes & Hbase & _ & Hparts).
  exists st'. split_and!; try done.
  intros k Hk Hkpk.
  rewrite (clear_run st l HP Hc) in Hrun. injection Hrun as <-.
  by apply lookup_cleared_other.
Qed.

Lemma clear_removes_listed_witness :
  ∃ st', clear mixed_db = (Ok (), st')
    ∧ Pointers st' []
    ∧ (entries st').1 = Ok []
    ∧ world st' !! "db/pos" = None
    ∧ world st' !! "db/big" = None
    ∧ world st' !! part_key "db/big" 0 = None
    ∧ world st' !! part_key "db/big" 1 = None.
Proof.
  assert (Pointers mixed_db ["db/big"; "db/pos"]) as HP
    by (vm_compute; reflexivity).
  assert (∀ p, p ∈ ["db/big"; "db/pos"] →
               countable (default "" (world mixed_db !! p)) = true) as Hc.
  { intros p [->|[->|[]%elem_of_nil]%elem_of_cons]%elem_of_cons;
      vm_compute; reflexivity. }
  destruct (clear_removes_listed mixed_db ["db/big"; "db/pos"] HP eq_refl Hc)
    as (st' & Hrun & HP' & _ & Hentries & Hbase & Hparts & _).
  assert (∀ p q j, p ∈ ["db/big"; "db/pos"] → q ∈ ["db/big"; "db/pos"] →
                   p ≠ part_key q j) as Hkeys.
  { intros p q j Hp _. apply not_part_key.
    apply elem_of_cons in Hp as [->|Hp]; [vm_compute; reflexivity|].
    apply list_elem_of_singleton in Hp as ->. vm_compute. reflexivity. }
  exists st'. split_and!.
  - exact Hrun.
  - exact HP'.
  - exact Hentries.
  - apply Hbase; [apply list_elem_of_further, list_elem_of_here|].
    intros H; discriminate H.
  - apply Hbase; [apply list_elem_of_here|]. intros H; discriminate H.
  - apply (Hparts Hkeys); [apply list_elem_of_here|vm_compute; reflexivity|].
    apply Nat.ltb_lt. vm_compute. reflexivity.
  - apply (Hparts Hkeys); [apply list_elem_of_here|vm_compute; reflexivity|].
    apply Nat.ltb_lt. vm_compute. reflexivity.
Defined.

(** ** Storing and deleting *)

Lemma lookup_None_of_keys (w : gmap string string) (k : string) :
  k ∉ (map_to_list w).*1 → w !! k = None.
Proof.
  intros H. destruct (w !! k) as [v|] eqn:E; [|done].
  exfalso. apply H. apply list_elem_of_fmap. exists (k, v).
  split; [done|]. by apply elem_of_map_to_list.
Qed.

(** The properties that [erased] and [written] change are the entry and
    its chunk parts. *)
Lemma lookup_drop_parts_which dk n (w : gmap string string) k :
  drop_parts dk n w !! k = w !! k ∨ ∃ i, k = part_key dk i.
Proof.
  induction n as [|n IH]; [by left|]. rewrite drop_parts_S.
  destruct (decide (k = part_key dk n)) as [->|Hne]; [right; by eexists|].
  by rewrite lookup_delete_ne.
Qed.

Lemma lookup_erased_which dk (w : gmap string string) k :
  erased dk w !! k = w !! k ∨ k = dk ∨ ∃ i, k = part_key dk i.
Proof.
  destruct (decide (k = dk)) as [->|Hne]; [by right; left|].
  unfold erased. rewrite lookup_delete_ne by done.
  destruct (digits_only _); [|by left].
  destruct (lookup_drop_parts_which dk
              (default 0 (turns (default "" (w !! dk)))) w k)
    as [->|?]; [by left|by right; right].
Qed.

Lemma lookup_put_parts_which m dk text n (w : gmap string string) k :
  put_parts m dk text n w !! k = w !! k ∨ ∃ i, k = part_key dk i.
Proof.
  induction n as [|n IH]; [by left|]. rewrite put_parts_S.
  destruct (decide (k = part_key dk n)) as [->|Hne]; [right; by eexists|].
  by rewrite lookup_insert_ne.
Qed.

Lemma lookup_written_which m dk text (w : gmap string string) k :
  written m dk text w !! k = w !! k ∨ k = dk ∨ ∃ i, k = part_key dk i.
Proof.
  destruct (decide (k = dk)) as [->|Hne]; [by right; left|].
  unfold written. destruct (1 <? _); rewrite lookup_insert_ne by done.
  - destruct (lookup_put_parts_which m dk text
                (ceil_div (String.length text) m) w k) as [->|?];
      [by left|by right; right].
  - by left.
Qed.

Lemma without_snoc (dk : string) (l : list string) :
  dk ∉ l → without dk (l ++ [dk]) = l.
Proof.
  intros H. unfold without. rewrite List.filter_app.
  fold (without dk l). rewrite without_not_elem by done.
  cbn. rewrite bool_decide_false by (by intros ?). apply List.app_nil_r.
Qed.

(** X15. [delete] undoes [set]: when a key other than [pointers] is not in
    the pointer list and has neither an entry nor chunk parts, storing a
    value under it and deleting it leaves the pointer list, cached and
    persisted, and every property other than the index entry as they were
    before the two calls.  The value is not an integer above 2^53, whose
    digits [delete] would take for a count of chunk parts and on which it
    does not return; its serialized text has fewer than 2^53 characters, as
    every text has. *)
Theorem set_then_delete (st : State) (l : list string) (key : string)
    (value : JSON.t) :
  Pointers st l →
  pointerKey (this st) = name (this st) +:+ "/pointers" →
  key ≠ "pointers" →
  let dk := entry_key (name (this st)) key in
  dk ∉ l →
  world st !! dk = None →
  (∀ i, world st !! part_key dk i = None) →
  countable (JSON.stringify value) = true →
  (N.of_nat (String.length (JSON.stringify value)) < max_exact)%N →
  let st' := (delete key (set key value st).2).2 in
  (set key value st).1 = Ok false
  ∧ (delete key (set key value st).2).1 = Ok ()
  ∧ Pointers st' l
  ∧ stored_pointers (world st') (pointerKey (this st')) = Ok l
  ∧ (∀ k, k ≠ pointerKey (this st) → world st' !! k = world st !! k).
Proof.
  intros HP Hpk Hkey dk Hin Hbase Hparts Hvalue Hlen st'.
  split; [unfold set; by rewrite (set_absent _ st l)|].
  assert (dk ≠ pointerKey (this st)) as Hdk.
  { rewrite Hpk. intros E. by apply entry_key_pointers in E. }
  assert (∀ i, part_key dk i ≠ pointerKey (this st)) as Hpart.
  { rewrite Hpk. intros i E. by apply part_key_ne_pointers in E. }
  subst st'. unfold set. rewrite (set_absent _ st l) by done. cbn [snd].
  fold dk. set (text := JSON.stringify value).
  set (st1 := added maxChunkSize dk text l st).
  assert (countable (default "" (world st1 !! dk)) = true) as Hc.
  { subst st1. unfold added. cbn [world]. rewrite lookup_insert_ne by done.
    apply written_countable; [apply maxChunkSize_pos|done..]. }
  assert (name (this st1) = name (this st)) as Hnm by apply added_this.
  assert (pointerKey (this st1) = pointerKey (this st)) as Hpk1
    by apply added_this.
  assert (Pointers st1 (l ++ [dk])) as HP1 by by apply added_Pointers.
  rewrite (delete_present st1 (l ++ [dk]))
    by (done || (rewrite Hnm; done)
        || rewrite Hnm; apply elem_of_app; right; apply list_elem_of_here).
  rewrite Hnm. fold dk. cbn [fst snd].
  split; [done|]. split.
  { rewrite <- (without_snoc dk l Hin) at 2.
    apply (deleted_Pointers dk (l ++ [dk]) st1). }
  split.
  { unfold deleted. cbn [world this pointerKey].
    rewrite without_snoc by done. apply stored_pointers_insert. }
  intros k Hk. unfold deleted. cbn [world]. rewrite Hpk1.
  rewrite lookup_insert_ne by done.
  set (w1 := world st1).
  assert (∀ k', k' ≠ pointerKey (this st) →
            w1 !! k' = written maxChunkSize dk text (world st) !! k') as Hw1.
  { intros k' Hk'. subst w1 st1. unfold added. cbn [world].
    by rewrite lookup_insert_ne. }
  assert (∀ i, erased dk w1 !! part_key dk i = None) as Hgone.
  { intros i.
    destruct (decide (maxChunkSize < String.length text)) as [Hlong|Hshort].
    - assert (w1 !! dk
              = Some (toString (ceil_div (String.length text) maxChunkSize)))
        as Hmeta.
      { rewrite Hw1 by done.
        rewrite written_chunked by (done || apply maxChunkSize_pos).
        apply lookup_insert_eq. }
      destruct (decide (i < ceil_div (String.length text) maxChunkSize))
        as [Hi|Hi].
      + apply lookup_erased_part; [| |rewrite Hmeta]; try done;
          rewrite ?Hmeta; cbn [default from_option id];
          [apply toString_digits_only|by rewrite parseInt_toString].
      + destruct (lookup_erased_cases dk w1 (part_key dk i)) as [->| ->];
          [done|].
        rewrite Hw1 by done.
        rewrite written_chunked by (done || apply maxChunkSize_pos).
        rewrite lookup_insert_ne
          by (intros E; symmetry in E; by apply part_key_ne_base in E).
        rewrite lookup_put_parts_out; [apply Hparts|].
        intros j Hj ?%part_key_inj. lia.
    - destruct (lookup_erased_cases dk w1 (part_key dk i)) as [->| ->]; [done|].
      rewrite Hw1 by done.
      rewrite written_direct by (lia || apply maxChunkSize_pos).
      rewrite lookup_insert_ne
        by (intros E; symmetry in E; by apply part_key_ne_base in E).
      apply Hparts. }
  destruct (decide (k = dk)) as [->|Hkdk]; [by rewrite lookup_erased_base|].
  destruct (lookup_erased_which dk w1 k) as [E|[->|[i ->]]].
  - rewrite E, Hw1 by done.
    destruct (lookup_written_which maxChunkSize dk text (world st) k)
      as [E'|[->|[i ->]]]; [done|done|].
    rewrite <- Hw1, <- E by done. by rewrite Hgone, Hparts.
  - done.
  - by rewrite Hgone, Hparts.
Qed.

Lemma set_then_delete_witness :
  let st' := (delete "k" (set "k" (pos 0 0 1) empty_db).2).2 in
  (set "k" (pos 0 0 1) empty_db).1 = Ok false
  ∧ (delete "k" (set "k" (pos 0 0 1) empty_db).2).1 = Ok ()
  ∧ Pointers st' []
  ∧ stored_pointers (world st') (pointerKey (this st')) = Ok []
  ∧ (∀ k, k ≠ "db/pointers" → world st' !! k = world empty_db !! k).
Proof.
  apply (set_then_delete empty_db [] "k" (pos 0 0 1)).
  - reflexivity.
  - reflexivity.
  - intros H. discriminate H.
  - apply not_elem_of_nil.
  - reflexivity.
  - intros i. apply lookup_singleton_ne. intros E. symmetry in E.
    by apply (part_key_ne_pointers _ "db") in E.
  - reflexivity.
  - apply N.ltb_lt. vm_compute. reflexivity.
Defined.

(** ** Storing a shorter value *)

Lemma elem_of_keys (w : gmap string string) (k : string) :
  is_Some (w !! k) → k ∈ (map_to_list w).*1.
Proof.
  intros [v Hv]. apply list_elem_of_fmap. exists (k, v).
  split; [done|]. by apply elem_of_map_to_list.
Qed.

(** X16. A [set] that finds its entry key in the pointer list, under it no
    run of digits above 2^53, and stores a text that fits in one chunk
    returns [true] and leaves the text under the entry key and no chunk
    part of the key, provided the parts present before the call are those
    counted by the marker of the entry. *)
Theorem shrink_leaves_no_part (st : State) (l : list string) (key : string)
    (value : JSON.t) :
  Pointers st l →
  pointerKey (this st) = name (this st) +:+ "/pointers" →
  let dk := entry_key (name (this st)) key in
  let meta := default "" (world st !! dk) in
  dk ∈ l →
  countable meta = true →
  String.length (JSON.stringify value) ≤ maxChunkSize →
  (∀ i, is_Some (world st !! part_key dk i) →
        digits_only meta = true ∧ i < parseInt meta) →
  (set key value st).1 = Ok true
  ∧ world (set key value st).2 !! dk = Some (JSON.stringify value)
  ∧ ∀ i, world (set key value st).2 !! part_key dk i = None.
Proof.
  intros HP Hpk dk meta Hin Hc Hlen Hcounted.
  split; [unfold set; by rewrite (set_present _ st l)|].
  split; [|by apply (shrink_removes_parts st l)].
  unfold set. rewrite (set_present _ st l) by done.
  cbn [snd with_world world]. fold dk.
  rewrite written_direct by (done || apply maxChunkSize_pos).
  apply lookup_insert_eq.
Qed.

Lemma shrink_leaves_no_part_witness :
  let st' := (set "big" (JSON.Str "s") chunked_db).2 in
  (set "big" (JSON.Str "s") chunked_db).1 = Ok true
  ∧ world st' !! entry_key "db" "big" = Some (JSON.stringify (JSON.Str "s"))
  ∧ ∀ i, world st' !! part_key (entry_key "db" "big") i = None.
Proof.
  apply (shrink_leaves_no_part chunked_db ["db/big"] "big" (JSON.Str "s")).
  - reflexivity.
  - reflexivity.
  - apply list_elem_of_here.
  - reflexivity.
  - apply Nat.leb_le. vm_compute. reflexivity.
  - intros i Hi%elem_of_keys.
    assert ((map_to_list (world chunked_db)).*1
            = [part_key "db/big" 1; part_key "db/big" 0; "db/big"; "db/pointers"])
      as E by (vm_compute; reflexivity).
    rewrite E in Hi. clear E.
    apply elem_of_cons in Hi as [->%part_key_inj|Hi];
      [split; [reflexivity|apply Nat.ltb_lt; reflexivity]|].
    apply elem_of_cons in Hi as [->%part_key_inj|Hi];
      [split; [reflexivity|apply Nat.ltb_lt; reflexivity]|].
    apply elem_of_cons in Hi as [Hi|Hi]; [by apply part_key_ne_base in Hi|].
    apply list_elem_of_singleton in Hi.
    by apply (part_key_ne_pointers _ "db") in Hi.
Defined.

(** ** [entries] after [delete], and after a series of [set] *)

Lemma collect_without (w w' : gmap string string) (nm dk : string)
    (l : list string) es :
  collect w nm l = Ok es →
  (∀ p, p ∈ l → p ≠ dk →
     read_value w' (entry_key nm (last_segment p))
     = read_value w (entry_key nm (last_segment p))) →
  collect w' nm (without dk l)
  = Ok (filter (λ pe, pe.1 ≠ dk) (zip l es)).*2.
Proof.
  revert es. induction l as [|p l IH]; intros es Hes Hw.
  { by injection Hes as <-. }
  cbn [collect] in Hes.
  destruct (read_value w (entry_key nm (last_segment p))) as [v| |] eqn:Ev;
    [|done..].
  destruct (collect w nm l) as [rest| |] eqn:Er; [|done..].
  injection Hes as <-. cbn [zip zip_with]. rewrite filter_cons.
  unfold without. cbn [List.filter]. fold (without dk l). cbn [fst].
  assert (collect w' nm (without dk l)
          = Ok (filter (λ pe, pe.1 ≠ dk) (zip l rest)).*2) as IH'.
  { apply IH; [done|]. intros q Hq. apply Hw. by apply list_elem_of_further. }
  case_bool_decide as Hp; destruct (decide (p ≠ dk)) as [Hp'|Hp']; try done.
  cbn [collect]. rewrite Hw, Ev by (done || apply list_elem_of_here).
  by rewrite IH'.
Qed.

(** X17. [delete] takes the pair of the key out of what [entries] emits and
    leaves the other pairs in their order: for a key other than [pointers]
    whose entry key is in the pointer list and whose entry holds no run of
    digits above 2^53, [delete] returns and [entries] emits afterwards the
    pairs that it emitted before for the other pointers.  The keys of the
    other pointers are not [pointers], differ from the deleted key, and
    are not names of chunk parts of it, nor it of them. *)
Theorem entries_after_delete (st : State) (l : list string) (key : string)
    (es : list (string * option JSON.t)) :
  Pointers st l →
  pointerKey (this st) = name (this st) +:+ "/pointers" →
  let dk := entry_key (name (this st)) key in
  dk ∈ l →
  countable (default "" (world st !! dk)) = true →
  (∀ p, p ∈ l → p ≠ dk →
     let k := last_segment p in
     k ≠ "pointers" ∧ k ≠ key
     ∧ (∀ i, k ≠ part_key key i) ∧ (∀ j, key ≠ part_key k j)) →
  (entries st).1 = Ok es →
  (delete key st).1 = Ok ()
  ∧ (entries (delete key st).2).1
    = Ok (filter (λ pe, pe.1 ≠ dk) (zip l es)).*2.
Proof.
  intros HP Hpk dk Hin Hc Hl Hes.
  rewrite (delete_present st l) by done. cbn [fst snd]. fold dk.
  split; [done|].
  rewrite (entries_run _ _ (deleted_Pointers dk l st)).
  rewrite (entries_run st l) in Hes by done. cbn [fst] in *.
  change (name (this (deleted dk l st))) with (name (this st)).
  apply (collect_without (world st)); [done|].
  intros p Hp Hne. destruct (Hl p Hp Hne) as (Hk & Hkey & H1 & H2).
  destruct (apart_keys (name (this st)) key _ Hkey H1 H2) as (A & B & C).
  apply read_value_ext.
  - apply lookup_deleted_other; [done|done|].
    rewrite Hpk. intros E. by apply entry_key_pointers in E.
  - intros j. apply lookup_deleted_other; [apply C|apply C|].
    rewrite Hpk. intros E. by apply part_key_ne_pointers in E.
Qed.

Lemma entries_after_delete_witness :
  (delete "big" mixed_db).1 = Ok ()
  ∧ (entries (delete "big" mixed_db).2).1 = Ok [("pos", Some (pos 1 2 3))].
Proof.
  assert ((entries mixed_db).1
          = Ok [("big", Some (JSON.Str "0123456789ABCDE"));
                ("pos", Some (pos 1 2 3))]) as Hes
    by (vm_compute; reflexivity).
  apply (entries_after_delete mixed_db ["db/big"; "db/pos"] "big"
           [("big", Some (JSON.Str "0123456789ABCDE")); ("pos", Some (pos 1 2 3))]
           eq_refl eq_refl).
  - apply list_elem_of_here.
  - reflexivity.
  - intros p [->|Hp]%elem_of_cons Hne; [done|].
    apply list_elem_of_singleton in Hp as ->. split_and!.
    + intros H. discriminate H.
    + intros H. discriminate H.
    + intros i. apply not_part_key. reflexivity.
    + intros j. apply not_part_key. reflexivity.
  - exact Hes.
Defined.

(** *** A series of new keys *)

Lemma perform_all_app (ops ops' : list operation) (st : State) :
  perform_all (ops ++ ops') st
  = match perform_all ops st with
    | (Ok _, st') => perform_all ops' st'
    | (Throw e, st') => (Throw e, st')
    | (Diverges, st') => (Diverges, st')
    end.
Proof.
  revert st. induction ops as [|op ops IH]; intros st; [done|].
  cbn [app perform_all]. unfold bind.
  destruct (perform op st) as [[[]|e|] st1]; [apply IH|done..].
Qed.

Lemma entries_of_sets (st : State) (kvs : list (string * JSON.t)) :
  Pointers st [] →
  pointerKey (this st) = name (this st) +:+ "/pointers" →
  NoDup kvs.*1 →
  (∀ k, k ∈ kvs.*1 → k ≠ "pointers" ∧ includes "/" k = false) →
  (∀ k k' i, k ∈ kvs.*1 → k' ∈ kvs.*1 → k ≠ part_key k' i) →
  (∀ v, v ∈ kvs.*2 →
     digits_only (JSON.stringify v) = false
     ∨ maxChunkSize < String.length (JSON.stringify v)) →
  ∃ st', perform_all ((λ kv, Set_ kv.1 kv.2) <$> kvs) st = (Ok (), st')
    ∧ Pointers st' (entry_key (name (this st)) <$> kvs.*1)
    ∧ name (this st') = name (this st)
    ∧ pointerKey (this st') = pointerKey (this st)
    ∧ (entries st').1 = Ok ((λ kv, (kv.1, Some kv.2)) <$> kvs).
Proof.
  intros HP Hpk. induction kvs as [|[k v] kvs IH] using rev_ind;
    intros Hnd Hplain Hparts Hvals.
  { exists st. split_and!; try done. by rewrite (entries_run st []). }
  rewrite !fmap_app in *. cbn [fmap list_fmap fst snd] in *.
  apply NoDup_app in Hnd as (Hnd & Hk & _).
  destruct IH as (st1 & Hrun & HP1 & Hnm & Hpk1 & Hes); try done.
  { intros k' Hk'. apply Hplain, elem_of_app. by left. }
  { intros k1 k2 i H1 H2. apply Hparts; apply elem_of_app; by left. }
  { intros v' Hv'. apply Hvals, elem_of_app. by left. }
  assert (k ∉ kvs.*1) as Hfresh.
  { intros H. by apply (Hk k H), list_elem_of_here. }
  destruct (Hplain k) as [Hkp Hks];
    [apply elem_of_app; right; apply list_elem_of_here|].
  assert (entry_key (name (this st1)) k ∉ entry_key (name (this st)) <$> kvs.*1)
    as Hout.
  { rewrite Hnm. intros (k' & E%entry_key_inj & Hk')%list_elem_of_fmap.
    by subst k'. }
  rewrite perform_all_app, Hrun. cbn [perform_all perform fst snd].
  unfold bind, ret.
  pose proof (set_absent maxChunkSize st1 _ k v HP1 Hout) as Hset.
  fold set in Hset. rewrite Hset.
  assert ((set k v st1).2
          = added maxChunkSize (entry_key (name (this st1)) k) (JSON.stringify v)
              (entry_key (name (this st)) <$> kvs.*1) st1) as Est
    by by rewrite Hset.
  rewrite <- Est. eexists. split; [done|].
  rewrite ?fmap_app. cbn [fmap list_fmap].
  split_and!.
  - rewrite Est, Hnm. by apply added_Pointers.
  - rewrite Est. etrans; [apply added_this|done].
  - rewrite Est. etrans; [apply added_this|done].
  - apply (entries_snoc st1 (entry_key (name (this st)) <$> kvs.*1) k v);
      try done.
    + by rewrite Hpk1, Hnm.
    + apply Hvals, elem_of_app. right. apply list_elem_of_here.
    + intros p (k' & -> & Hk')%list_elem_of_fmap.
      destruct (Hplain k') as [Hk'p Hk's]; [apply elem_of_app; by left|].
      rewrite last_segment_entry_key, last_segment_plain by done.
      split_and!.
      * done.
      * by intros ->.
      * intros i. apply Hparts; apply elem_of_app;
          [by left|right; apply list_elem_of_here].
      * intros j. apply Hparts; apply elem_of_app;
          [right; apply list_elem_of_here|by left].
Qed.

(** X18. A database filled with new keys lists them in the order of the
    calls, each with its value: starting from an empty pointer list, after
    [set] has been called once for each of a series of distinct keys,
    [entries] emits the keys and the values in that order.  The keys are
    not [pointers], contain no slash, and none is the name of a chunk part
    of another; the serialization of each value is longer than
    [maxChunkSize] or is not a run of digits. *)
Theorem entries_in_order (st : State) (kvs : list (string * JSON.t)) :
  Pointers st [] →
  pointerKey (this st) = name (this st) +:+ "/pointers" →
  NoDup kvs.*1 →
  (∀ k, k ∈ kvs.*1 → k ≠ "pointers" ∧ includes "/" k = false) →
  (∀ k k' i, k ∈ kvs.*1 → k' ∈ kvs.*1 → k ≠ part_key k' i) →
  (∀ v, v ∈ kvs.*2 →
     digits_only (JSON.stringify v) = false
     ∨ maxChunkSize < String.length (JSON.stringify v)) →
  let calls := (λ kv, Set_ kv.1 kv.2) <$> kvs in
  (perform_all calls st).1 = Ok ()
  ∧ (entries (perform_all calls st).2).1
    = Ok ((λ kv, (kv.1, Some kv.2)) <$> kvs).
Proof.
  intros HP Hpk Hnd Hplain Hparts Hvals calls.
  destruct (entries_of_sets st kvs HP Hpk Hnd Hplain Hparts Hvals)
    as (st' & Hrun & _ & _ & _ & Hes).
  subst calls. by rewrite Hrun.
Qed.

Lemma entries_in_order_witness :
  let calls := [Set_ "pos" (pos 1 2 3); Set_ "name" (JSON.Str "cam")] in
  (perform_all calls rc1).1 = Ok ()
  ∧ (entries (perform_all calls rc1).2).1
    = Ok [("pos", Some (pos 1 2 3)); ("name", Some (JSON.Str "cam"))].
Proof.
  apply (entries_in_order rc1 [("pos", pos 1 2 3); ("name", JSON.Str "cam")]).
  - reflexivity.
  - reflexivity.
  - apply NoDup_cons. split; [|apply NoDup_singleton].
    intros H%list_elem_of_singleton. discriminate H.
  - intros k [->|Hk]%elem_of_cons;
      [|apply list_elem_of_singleton in Hk as ->];
      (split; [intros H; discriminate H|reflexivity]).
  - intros k k' i [->|Hk]%elem_of_cons _;
      [|apply list_elem_of_singleton in Hk as ->];
      apply not_part_key; reflexivity.
  - intros v [->|Hv]%elem_of_cons;
      [|apply list_elem_of_singleton in Hv as ->]; left; reflexivity.
Defined.

(** * Properties of [waitForChunkLoad] *)

Module ChunkLoadFacts.
Import ChunkLoad.

Section facts.

Context {number : Type}.
Variable show : number → string.
Variable isChunkLoaded : nat → bool.
Variable position : @Vector3 number.

(** The loop stops at the first tick, among those it looks at, at which the
    chunk is loaded. *)
Lemma wait_loop_seen (attempts k : nat) (h : Host) :
  k < attempts →
  (∀ j, j < k → isChunkLoaded (clock h + 5 * j) = false) →
  isChunkLoaded (clock h + 5 * k) = true →
  wait_loop show isChunkLoaded position attempts h
  = (attempts - k,
     mkHost (clock h + 5 * k)
       (console h ++ replicate k (log (waiting_message show position)))).
Proof.
  revert attempts h. induction k as [|k IH]; intros attempts h Hk Hnot Hyes.
  - destruct attempts as [|a]; [lia|]. cbn [wait_loop].
    rewrite Nat.mul_0_r, Nat.add_0_r in Hyes. rewrite Hyes. cbn.
    rewrite Nat.add_0_r, List.app_nil_r. by destruct h.
  - destruct attempts as [|a]; [lia|]. cbn [wait_loop].
    pose proof (Hnot 0 ltac:(lia)) as H0.
    rewrite Nat.mul_0_r, Nat.add_0_r in H0. rewrite H0. cbn [negb andb Nat.ltb Nat.leb].
    rewrite IH; cbn [clock console].
    + f_equal. f_equal; [lia|]. by rewrite <- List.app_assoc.
    + lia.
    + intros j Hj. rewrite <- (Hnot (S j)) by lia. f_equal. lia.
    + rewrite <- Hyes. f_equal. lia.
Qed.

(** It gives up after as many waits as [attempts] allows. *)
Lemma wait_loop_unseen (attempts : nat) (h : Host) :
  (∀ j, j < attempts → isChunkLoaded (clock h + 5 * j) = false) →
  wait_loop show isChunkLoaded position attempts h
  = (0, mkHost (clock h + 5 * attempts)
          (console h
             ++ replicate attempts (log (waiting_message show position)))).
Proof.
  revert h. induction attempts as [|a IH]; intros h Hnot.
  - cbn. rewrite andb_false_r, Nat.add_0_r, List.app_nil_r. by destruct h.
  - cbn [wait_loop].
    pose proof (Hnot 0 ltac:(lia)) as H0.
    rewrite Nat.mul_0_r, Nat.add_0_r in H0. rewrite H0. cbn [negb andb Nat.ltb Nat.leb].
    rewrite IH; cbn [clock console].
    + f_equal. f_equal; [lia|]. by rewrite <- List.app_assoc.
    + intros j Hj. rewrite <- (Hnot (S j)) by lia. f_equal. lia.
Qed.

(** X19. When the chunk is loaded at one of the ten ticks that the
    function looks at (the tick of the call and every fifth tick after it,
    up to the forty-fifth), the function returns at the first of them: it
    has waited five ticks and logged one message for each earlier look,
    and reports no failure. *)
Theorem chunk_seen (k : nat) (h : Host) :
  k < 10 →
  (∀ j, j < k → isChunkLoaded (clock h + 5 * j) = false) →
  isChunkLoaded (clock h + 5 * k) = true →
  waitForChunkLoad show isChunkLoaded position h
  = mkHost (clock h + 5 * k)
      (console h ++ replicate k (log (waiting_message show position))).
Proof.
  intros Hk Hnot Hyes. unfold waitForChunkLoad.
  rewrite (wait_loop_seen 10 k) by done.
  destruct (10 - k =? 0) eqn:E; [|done]. apply Nat.eqb_eq in E. lia.
Qed.

(** X20. When the chunk is loaded at none of those ten ticks, the function
    returns fifty ticks after the call, having logged ten messages, and
    reports the failure; it does so whether or not the chunk is loaded at
    the fiftieth tick, at which it looks once more. *)
Theorem chunk_unseen (h : Host) :
  (∀ j, j < 10 → isChunkLoaded (clock h + 5 * j) = false) →
  waitForChunkLoad show isChunkLoaded position h
  = mkHost (clock h + 50)
      (console h ++ replicate 10 (log (waiting_message show position))
         ++ [error (failed_message show position)]).
Proof.
  intros Hnot. unfold waitForChunkLoad.
  rewrite wait_loop_unseen by done. cbn [Nat.eqb clock console].
  by rewrite <- List.app_assoc.
Qed.

End facts.

Lemma chunk_seen_witness :
  waitForChunkLoad JSON.number (λ t, 12 <=? t) (mkVector3 8%Z 64%Z (-8)%Z)
    (mkHost 0 [])
  = mkHost 15 (replicate 3 (log "Waiting for chunk to load at 8, -8...")).
Proof.
  apply (chunk_seen JSON.number (λ t, 12 <=? t) (mkVector3 8%Z 64%Z (-8)%Z) 3
           (mkHost 0 [])).
  - lia.
  - intros j Hj. apply Nat.leb_gt. cbn [clock]. lia.
  - reflexivity.
Defined.

Lemma chunk_unseen_witness :
  waitForChunkLoad JSON.number (λ t, 50 <=? t) (mkVector3 8%Z 64%Z (-8)%Z)
    (mkHost 0 [])
  = mkHost 50
      (replicate 10 (log "Waiting for chunk to load at 8, -8...")
         ++ [error "Chunk failed to load at 8, -8 after multiple attempts."]).
Proof.
  apply (chunk_unseen JSON.number (λ t, 50 <=? t) (mkVector3 8%Z 64%Z (-8)%Z)
           (mkHost 0 [])).
  intros j Hj. apply Nat.leb_gt. cbn [clock]. lia.
Defined.

End ChunkLoadFacts.
